(** * OrderlyID: the identifier codec of package [orderlyid]

    A shallow embedding of the Go reference implementation: the bit packer
    ([pack], [unpack]), the Crockford-style Base32 transform ([b32encode],
    [b32decode]), the Bech32-style checksum ([checksum4Base]), the
    generators [New] and [NewFromParts] with the sequence step of [New],
    and [Parse].

    Go values are embedded as follows.
    - A [byte], [uint16], [uint32], [uint64] is a [Z]; every conversion and
      every operation that can leave the width is followed by its wrap-around
      ([u8], [u16], [u32], [u64]).  An [int64] is a [Z] wrapped by [i64].
    - A Go [string] or [[]byte] is the list of its bytes, [list Z].
    - A function that can return an [error] or [panic] returns an [outcome].
    - What a function reads from its environment (the clock, the random
      source, the package variables [lastMs] and [seq12]) is an argument,
      and the state it leaves is part of its result. *)

From Stdlib Require Import String Ascii.
From Stdlib Require Import ZArith List Lia Bool.
Import ListNotations.
Local Open Scope Z_scope.

Declare Scope go_scope.
Delimit Scope go_scope with go.
(* Go's precedences: [<<], [>>] and [&] bind like [*]; [|] and [^] like [+]. *)
Infix ">>" := Z.shiftr (at level 40, left associativity) : go_scope.
Infix "<<" := Z.shiftl (at level 40, left associativity) : go_scope.
Infix ".&" := Z.land (at level 40, left associativity) : go_scope.
Infix ".|" := Z.lor (at level 50, left associativity) : go_scope.
Infix ".^" := Z.lxor (at level 50, left associativity) : go_scope.
Local Open Scope go_scope.

(** ** Machine integers *)

Definition u8 (x : Z) : Z := x mod 2 ^ 8.
Definition u16 (x : Z) : Z := x mod 2 ^ 16.
Definition u32 (x : Z) : Z := x mod 2 ^ 32.
Definition u64 (x : Z) : Z := x mod 2 ^ 64.

(** Two's complement reading of the low 64 bits: Go's [int64] arithmetic. *)
Definition i64 (x : Z) : Z := (x + 2 ^ 63) mod 2 ^ 64 - 2 ^ 63.

Definition is_u8 (x : Z) : Prop := 0 <= x < 2 ^ 8.
Definition is_u16 (x : Z) : Prop := 0 <= x < 2 ^ 16.
Definition is_u64 (x : Z) : Prop := 0 <= x < 2 ^ 64.

Definition is_bytes (s : list Z) : Prop := Forall is_u8 s.

(** ** Strings *)

Definition gostring : Type := list Z.

Definition byte_of_ascii (a : ascii) : Z := Z.of_N (N_of_ascii a).

(** A string literal, as the bytes Go stores for it. *)
Definition str (s : string) : gostring := map byte_of_ascii (list_ascii_of_string s).

(** A character literal. *)
Definition chr (s : string) : Z := hd 0 (str s).

Definition len {A : Type} (s : list A) : Z := Z.of_nat (length s).

(** [s[i]] for an index known to be in range, [0] otherwise (the callers
    below guard every index). *)
Definition at_ (s : list Z) (i : Z) : Z := nth (Z.to_nat i) s 0.

(** [s[i:j]], [s[:j]] and [s[i:]] for indices in range. *)
Definition slice_to (s : gostring) (j : Z) : gostring := firstn (Z.to_nat j) s.
Definition slice_from (s : gostring) (i : Z) : gostring := skipn (Z.to_nat i) s.

(** [arr[i] = v] on an array, for [i] within the array. *)
Fixpoint set_nth (i : nat) (v : Z) (arr : list Z) : list Z :=
  match arr, i with
  | [], _ => []
  | _ :: t, O => v :: t
  | h :: t, S i' => h :: set_nth i' v t
  end.

Definition upd (arr : list Z) (i v : Z) : list Z := set_nth (Z.to_nat i) v arr.

(** ** Results *)

(** The [error] values the package creates, by the text they carry. *)
Inductive error : Type :=
| ErrChecksumLength                (* "checksum must be 4 chars" *)
| ErrChecksumMismatch              (* "checksum mismatch" *)
| ErrMissingSeparator              (* "missing prefix separator" *)
| ErrInvalidPrefix                 (* "invalid prefix" *)
| ErrPayloadLength                 (* "payload must be 32 chars" *)
| ErrInvalidBase32Pos (j : Z)      (* "invalid base32 at pos %d" *)
| ErrBase32Length                  (* "base32 length must be 32" *)
| ErrInvalidBase32At (i : Z)       (* "invalid base32 at %d" *)
| ErrInvalidBase32Payload          (* "invalid base32 payload" *)
| ErrInvalidPrefixQ (p : gostring) (* "invalid prefix %q" *).

(** The run-time panics the package can raise. *)
Inductive panic : Type :=
| PanicInvalidPrefix        (* panic("invalid prefix") *)
| PanicEntropy              (* panic(err) after rand.Read *)
| PanicUnpackLength         (* panic("unpack expects 20 bytes") *)
| PanicEncodeLength         (* panic("b32encode expects 20 bytes") *)
| PanicBadBase              (* panic("checksum4Base: bad base") *)
| PanicInvalidPayload       (* panic("invalid payload for checksum") *)
| PanicIndexOutOfRange      (* runtime error: index out of range *)
| PanicDivideByZero         (* runtime error: integer divide by zero *).

Inductive outcome (A : Type) : Type :=
| Ok (a : A)
| Err (e : error)
| Panic (p : panic).
Arguments Ok {A} a.
Arguments Err {A} e.
Arguments Panic {A} p.

Definition bind {A B : Type} (m : outcome A) (k : A -> outcome B) : outcome B :=
  match m with
  | Ok a => k a
  | Err e => Err e
  | Panic p => Panic p
  end.

Notation "'do' x <- m ; k" := (bind m (fun x => k))
  (at level 10, x pattern, m at level 100, k at level 200).

(** ** Package variables and [init] *)

(** [alpha]: the Crockford alphabet, lowercase. *)
Definition alpha : list Z := str "0123456789abcdefghjkmnpqrstvwxyz".

Definition epoch2020 : Z := 1577836800000.
Definition privacyBitMask : Z := 1 << 5.

(** [strings.ToUpper(string([]byte{b}))[0]] for an ASCII letter [b]. *)
Definition upper1 (b : Z) : Z :=
  if (chr "a" <=? b) && (b <=? chr "z") then b - 32 else b.

(** [alphaValidMask[b] = true]. *)
Definition set_true (valid : list bool) (b : Z) : list bool :=
  firstn (Z.to_nat b) valid ++ true :: skipn (S (Z.to_nat b)) valid.

(** One round of the loop [for i, b := range alpha] of [init], on the pair
    [(alphaRev, alphaValidMask)]. *)
Definition init_step (t : list Z * list bool) (ib : Z * Z) : list Z * list bool :=
  let '(rev, valid) := t in
  let '(i, b) := ib in
  let rev := upd rev b (u8 i) in
  let valid := set_true valid b in
  if (chr "a" <=? b) && (b <=? chr "z")
  then (upd rev (upper1 b) (u8 i), set_true valid (upper1 b))
  else (rev, valid).

(** The tables after [init]: every entry [0xFF], then the alphabet in both
    cases, then the ambiguous glyphs. *)
Definition init_tables : list Z * list bool :=
  let rev := repeat 255 256 in
  let valid := repeat false 256 in
  let '(rev, valid) :=
    fold_left init_step (combine (map Z.of_nat (seq 0 (length alpha))) alpha) (rev, valid) in
  let rev := upd (upd rev (chr "I") (at_ rev (chr "1"))) (chr "i") (at_ rev (chr "1")) in
  let rev := upd (upd rev (chr "L") (at_ rev (chr "1"))) (chr "l") (at_ rev (chr "1")) in
  let rev := upd (upd rev (chr "O") (at_ rev (chr "0"))) (chr "o") (at_ rev (chr "0")) in
  let rev := upd (upd rev (chr "U") (at_ rev (chr "v"))) (chr "u") (at_ rev (chr "v")) in
  let valid := fold_left set_true (map chr ["I"; "i"; "L"; "l"; "O"; "o"; "U"; "u"]%string) valid in
  (rev, valid).

Definition alphaRev_table : list Z := Eval vm_compute in fst init_tables.
Definition alphaValidMask_table : list bool := Eval vm_compute in snd init_tables.

(** [alphaRev[b]] for a byte [b]. *)
Definition alphaRev (b : Z) : Z := nth (Z.to_nat b) alphaRev_table 255.

(** [prefixRe.MatchString]: the pattern [^[a-z][a-z0-9]{1,30}$] on bytes. *)
Definition is_lower (b : Z) : bool := (chr "a" <=? b) && (b <=? chr "z").
Definition is_digit (b : Z) : bool := (chr "0" <=? b) && (b <=? chr "9").
Definition is_lower_or_digit (b : Z) : bool := is_lower b || is_digit b.

Definition prefixRe_MatchString (p : gostring) : bool :=
  match p with
  | [] => false
  | c :: rest =>
      is_lower c && forallb is_lower_or_digit rest
      && (1 <=? len rest) && (len rest <=? 30)
  end.

(** [arr[j] = v] with Go's bounds check. *)
Definition store (arr : list Z) (j v : Z) : outcome (list Z) :=
  if (0 <=? j) && (j <? len arr) then Ok (upd arr j v) else Panic PanicIndexOutOfRange.

(** ** Bit packer *)

(** [pack]: the layout
    [| 48b time | 8b flags | 16b tenant | 12b seq | 16b shard | 60b random |],
    big-endian.  Bytes 10 and 12 are written twice in the source ([=] then
    [|=]); here each is the [.|] of its two nibbles. *)
Definition pack (ms flags tenant seq12 shard random60 : Z) : list Z :=
  [ u8 (ms >> 40); u8 (ms >> 32); u8 (ms >> 24); u8 (ms >> 16); u8 (ms >> 8); u8 ms;
    flags;
    u8 (tenant >> 8); u8 tenant;
    u8 (seq12 >> 4);
    u8 (u16 ((seq12 .& 15) << 4)) .| u8 ((shard >> 12) .& 15);
    u8 ((shard >> 4) .& 255);
    u8 (u16 ((shard .& 15) << 4)) .| u8 ((random60 >> 56) .& 15);
    u8 ((random60 >> 48) .& 255); u8 ((random60 >> 40) .& 255);
    u8 ((random60 >> 32) .& 255); u8 ((random60 >> 24) .& 255);
    u8 ((random60 >> 16) .& 255); u8 ((random60 >> 8) .& 255);
    u8 (random60 .& 255) ].

(** The six fields in the order [unpack] returns them. *)
Definition fields : Type := (Z * Z * Z * Z * Z * Z)%type.

Definition unpack (inb : list Z) : outcome fields :=
  if negb (len inb =? 20) then Panic PanicUnpackLength else
  let b := at_ inb in
  let ms := u64 (b 0 << 40) .| u64 (b 1 << 32) .| u64 (b 2 << 24)
            .| u64 (b 3 << 16) .| u64 (b 4 << 8) .| b 5 in
  let flags := b 6 in
  let tenant := u16 (b 7 << 8) .| b 8 in
  let seq12 := u16 (b 9 << 4) .| (b 10 .& 240) >> 4 in
  let shard := u16 ((b 10 .& 15) << 12) .| u16 (b 11 << 4) .| (b 12 .& 240) >> 4 in
  let random60 := u64 ((b 12 .& 15) << 56) .| u64 (b 13 << 48) .| u64 (b 14 << 40)
                  .| u64 (b 15 << 32) .| u64 (b 16 << 24) .| u64 (b 17 << 16)
                  .| u64 (b 18 << 8) .| b 19 in
  Ok (ms, flags, tenant, seq12, shard, random60).

(** ** Base32 transform *)

(** Loop state of [b32encode]: [acc], [bits], [j], [out]. *)
Definition enc_state : Type := (Z * Z * Z * list Z)%type.

(** The inner loop [for bits >= 5 { ... }].  Every round takes five from
    [bits], so [bits] rounds are always enough. *)
Fixpoint encode_emit (fuel : nat) (st : enc_state) : outcome enc_state :=
  let '(acc, bits, j, out) := st in
  match fuel with
  | O => Ok st
  | S fuel' =>
      if 5 <=? bits then
        let bits := bits - 5 in
        let idx := u8 ((acc >> bits) .& 31) in
        do out <- store out j (at_ alpha idx);
        encode_emit fuel' (acc, bits, j + 1, out)
      else Ok st
  end.

(** One round of [for _, b := range src]. *)
Definition encode_byte (st : enc_state) (b : Z) : outcome enc_state :=
  let '(acc, bits, j, out) := st in
  let acc := u32 (acc << 8) .| b in
  let bits := bits + 8 in
  encode_emit (Z.to_nat bits) (acc, bits, j, out).

Fixpoint encode_loop (src : list Z) (st : enc_state) : outcome enc_state :=
  match src with
  | [] => Ok st
  | b :: rest => do st <- encode_byte st b; encode_loop rest st
  end.

Definition b32encode (src : list Z) : outcome gostring :=
  if negb (len src =? 20) then Panic PanicEncodeLength else
  do st <- encode_loop src (0, 0, 0, repeat 0 32);
  let '(acc, bits, j, out) := st in
  if negb (bits =? 0) then
    let idx := u8 (u32 (acc << (5 - bits)) .& 31) in
    do out <- store out j (at_ alpha idx);
    Ok out
  else Ok out.

(** Loop state of [b32decode]: [acc], [bits], [j], [out]. *)
Definition dec_state : Type := (Z * Z * Z * list Z)%type.

(** The loop [for i := 0; i < len(s); i++] of [b32decode], from index [i]
    on, [s] being what is left of the string. *)
Fixpoint decode_loop (s : gostring) (i : Z) (st : dec_state) : outcome dec_state :=
  match s with
  | [] => Ok st
  | c :: rest =>
      let '(acc, bits, j, out) := st in
      let v := alphaRev c in
      if v =? 255 then Err (ErrInvalidBase32At i) else
      let acc := u32 (acc << 5) .| v in
      let bits := bits + 5 in
      if 8 <=? bits then
        let bits := bits - 8 in
        do out <- store out j (u8 ((acc >> bits) .& 255));
        decode_loop rest (i + 1) (acc, bits, j + 1, out)
      else decode_loop rest (i + 1) (acc, bits, j, out)
  end.

Definition b32decode (s : gostring) : outcome (list Z) :=
  if negb (len s =? 32) then Err ErrBase32Length else
  do st <- decode_loop s 0 (0, 0, 0, repeat 0 20);
  let '(acc, bits, j, out) := st in
  if negb (j =? 20) || negb (bits =? 0) then Err ErrInvalidBase32Payload
  else Ok out.

(** ** The [strings], [unicode] and [unicode/utf8] functions the package calls *)

Definition RuneError : Z := 65533.
Definition RuneSelf : Z := 128.
Definition UTFMax : Z := 4.

(** [strings.IndexByte]: the index of the first [c] in [s], or [-1]. *)
Fixpoint IndexByte_from (s : gostring) (c : Z) (i : Z) : Z :=
  match s with
  | [] => -1
  | b :: rest => if b =? c then i else IndexByte_from rest c (i + 1)
  end.

Definition IndexByte (s : gostring) (c : Z) : Z := IndexByte_from s c 0.

(** [strings.LastIndexByte]: the index of the last [c] in [s], or [-1]. *)
Definition LastIndexByte (s : gostring) (c : Z) : Z :=
  let i := IndexByte (rev s) c in
  if i <? 0 then -1 else len s - 1 - i.

(** The table [first] of [unicode/utf8] with [acceptRanges] looked up: for a
    leading byte, the length of its sequence and the range its second byte
    must lie in; [None] for a byte that starts no sequence. *)
Definition utf8_first (b : Z) : option (Z * Z * Z) :=
  if b <? 128 then Some (1, 0, 0)
  else if b <? 194 then None
  else if b <? 224 then Some (2, 128, 191)
  else if b =? 224 then Some (3, 160, 191)
  else if b <? 237 then Some (3, 128, 191)
  else if b =? 237 then Some (3, 128, 159)
  else if b <? 240 then Some (3, 128, 191)
  else if b =? 240 then Some (4, 144, 191)
  else if b <? 244 then Some (4, 128, 191)
  else if b =? 244 then Some (4, 128, 143)
  else None.

Definition is_cont (b : Z) : bool := (128 <=? b) && (b <=? 191).

(** [utf8.DecodeRuneInString]: the first rune of [s] and its width;
    [(RuneError, 1)] for an encoding that is invalid or cut short. *)
Definition DecodeRuneInString (s : gostring) : Z * Z :=
  match s with
  | [] => (RuneError, 0)
  | s0 :: rest =>
      match utf8_first s0 with
      | None => (RuneError, 1)
      | Some (1, _, _) => (s0, 1)
      | Some (sz, lo, hi) =>
          if len s <? sz then (RuneError, 1) else
          let s1 := at_ s 1 in
          if (s1 <? lo) || (hi <? s1) then (RuneError, 1) else
          if sz <=? 2 then ((s0 .& 31) << 6 .| (s1 .& 63), 2) else
          let s2 := at_ s 2 in
          if negb (is_cont s2) then (RuneError, 1) else
          if sz <=? 3 then ((s0 .& 15) << 12 .| (s1 .& 63) << 6 .| (s2 .& 63), 3) else
          let s3 := at_ s 3 in
          if negb (is_cont s3) then (RuneError, 1) else
          ((s0 .& 7) << 18 .| (s1 .& 63) << 12 .| (s2 .& 63) << 6 .| (s3 .& 63), 4)
      end
  end.

(** [utf8.RuneStart]. *)
Definition RuneStart (b : Z) : bool := negb (b .& 192 =? 128).

(** The loop [for start--; start >= lim; start--] of
    [DecodeLastRuneInString]: the index it stops at.  It looks at no more
    than [UTFMax - 1] bytes. *)
Fixpoint last_start (fuel : nat) (s : gostring) (start lim : Z) : Z :=
  match fuel with
  | O => start
  | S fuel' =>
      if lim <=? start then
        if RuneStart (at_ s start) then start
        else last_start fuel' s (start - 1) lim
      else start
  end.

(** [utf8.DecodeLastRuneInString]. *)
Definition DecodeLastRuneInString (s : gostring) : Z * Z :=
  let e := len s in
  if e =? 0 then (RuneError, 0) else
  let start := e - 1 in
  let r := at_ s start in
  if r <? RuneSelf then (r, 1) else
  let lim := Z.max (e - UTFMax) 0 in
  let start := last_start (Z.to_nat UTFMax) s (start - 1) lim in
  let start := if start <? 0 then 0 else start in
  let '(r, size) := DecodeRuneInString (slice_from s start) in
  if negb (start + size =? e) then (RuneError, 1) else (r, size).

(** [unicode.IsSpace]: the [White_Space] property. *)
Definition IsSpace (r : Z) : bool :=
  ((9 <=? r) && (r <=? 13)) || (r =? 32) || (r =? 133) || (r =? 160)
  || (r =? 5760) || ((8192 <=? r) && (r <=? 8202))
  || (r =? 8232) || (r =? 8233) || (r =? 8239) || (r =? 8287) || (r =? 12288).

(** The table [asciiSpace] of [strings]. *)
Definition asciiSpace (c : Z) : bool :=
  ((9 <=? c) && (c <=? 13)) || (c =? 32).

(** [strings.TrimLeftFunc(s, unicode.IsSpace)]: what is left of [s] from the
    first rune that is no space.  Every round takes at least one byte, so
    [length s] rounds are enough. *)
Fixpoint TrimLeftFunc_IsSpace (fuel : nat) (s : gostring) : gostring :=
  match fuel with
  | O => s
  | S fuel' =>
      match s with
      | [] => []
      | _ =>
          let '(r, size) := DecodeRuneInString s in
          if IsSpace r then TrimLeftFunc_IsSpace fuel' (slice_from s size) else s
      end
  end.

(** [lastIndexFunc(s, unicode.IsSpace, false)], from [i] down; [i] falls by
    at least one a round. *)
Fixpoint lastIndexFunc_notSpace (fuel : nat) (s : gostring) (i : Z) : Z :=
  match fuel with
  | O => -1
  | S fuel' =>
      if 0 <? i then
        let '(r, size) := DecodeLastRuneInString (slice_to s i) in
        let i := i - size in
        if negb (IsSpace r) then i else lastIndexFunc_notSpace fuel' s i
      else -1
  end.

(** [strings.TrimRightFunc(s, unicode.IsSpace)]. *)
Definition TrimRightFunc_IsSpace (s : gostring) : gostring :=
  let i := lastIndexFunc_notSpace (S (length s)) s (len s) in
  let i := if (0 <=? i) && (RuneSelf <=? at_ s i)
           then i + snd (DecodeRuneInString (slice_from s i))
           else i + 1 in
  slice_to s i.

(** [strings.TrimFunc(s, unicode.IsSpace)]. *)
Definition TrimFunc_IsSpace (s : gostring) : gostring :=
  TrimRightFunc_IsSpace (TrimLeftFunc_IsSpace (length s) s).

(** The two scans of [strings.TrimSpace] read bytes the same way, one from
    the front and one from the back: stop at the first byte that is not
    ASCII (reported by [true]) or is no ASCII space. *)
Fixpoint skip_asciiSpace (s : gostring) : bool * gostring :=
  match s with
  | [] => (false, [])
  | c :: rest =>
      if RuneSelf <=? c then (true, s)
      else if asciiSpace c then skip_asciiSpace rest
      else (false, s)
  end.

(** [strings.TrimSpace]. *)
Definition TrimSpace (s : gostring) : gostring :=
  let '(uni, s1) := skip_asciiSpace s in
  if uni then TrimFunc_IsSpace s1 else
  let '(uni, r) := skip_asciiSpace (rev s1) in
  if uni then TrimRightFunc_IsSpace (rev r) else rev r.

Definition is_upper (b : Z) : bool := (chr "A" <=? b) && (b <=? chr "Z").

(** [unicode.SimpleFold] on the runes that fold with an ASCII rune: the two
    cases of every letter, with the Kelvin sign next to [k] and the long s
    next to [s]. *)
Definition SimpleFold_ascii_orbit (r : Z) : Z :=
  if r =? chr "k" then 8490
  else if r =? 8490 then chr "K"
  else if r =? chr "s" then 383
  else if r =? 383 then chr "S"
  else if is_upper r then r + 32
  else if is_lower r then r - 32
  else r.

(** The loop [for r != sr && r < tr { r = unicode.SimpleFold(r) }]. *)
Fixpoint fold_walk (fuel : nat) (r sr tr : Z) : Z :=
  match fuel with
  | O => r
  | S fuel' =>
      if negb (r =? sr) && (r <? tr)
      then fold_walk fuel' (SimpleFold_ascii_orbit r) sr tr
      else r
  end.

Definition lower1 (c : Z) : Z := if is_upper c then c + 32 else c.

(** ** Hexadecimal strings *)

Module hex.

(** The errors of [encoding/hex]: [InvalidByteError] and [ErrLength]. *)
Inductive error : Type :=
  | InvalidByteError (b : Z)
  | ErrLength.

(** [reverseHexTable]: the value of a hexadecimal digit of either case,
    [255] for every other byte. *)
Definition reverseHexTable (c : Z) : Z :=
  if (chr "0" <=? c) && (c <=? chr "9") then c - chr "0"
  else if (chr "a" <=? c) && (c <=? chr "f") then c - chr "a" + 10
  else if (chr "A" <=? c) && (c <=? chr "F") then c - chr "A" + 10
  else 255.

(** [hex.Decode]: the bytes decoded and the error, if any.  The loop takes
    two characters a round and stops at the first that is no digit; a
    character left over is looked at before the length is reported. *)
Fixpoint Decode (src : gostring) : list Z * option error :=
  match src with
  | [] => ([], None)
  | [p] =>
      if 0x0f <? reverseHexTable p then ([], Some (InvalidByteError p))
      else ([], Some ErrLength)
  | p :: q :: rest =>
      let a := reverseHexTable p in
      let b := reverseHexTable q in
      if 0x0f <? a then ([], Some (InvalidByteError p))
      else if 0x0f <? b then ([], Some (InvalidByteError q))
      else
        let '(out, err) := Decode rest in
        (u8 (a << 4 .| b) :: out, err)
  end.

(** [hex.DecodeString]. *)
Definition DecodeString (s : gostring) : list Z * option error := Decode s.

End hex.

(** ** More of [strings] *)

(** [==] on strings. *)
Fixpoint string_eq (a b : gostring) : bool :=
  match a, b with
  | [], [] => true
  | x :: a', y :: b' => (x =? y) && string_eq a' b'
  | _, _ => false
  end.

(** [strings.HasPrefix]. *)
Fixpoint HasPrefix (s prefix : gostring) : bool :=
  match prefix, s with
  | [], _ => true
  | _ :: _, [] => false
  | c :: prefix', d :: s' => (d =? c) && HasPrefix s' prefix'
  end.

(** [strings.Contains]: whether [substr] starts somewhere in [s]. *)
Fixpoint Contains (s substr : gostring) : bool :=
  HasPrefix s substr
  || match s with
     | [] => false
     | _ :: s' => Contains s' substr
     end.

Section Codec.

(** The Unicode case tables are data of Go's library, not of this package.
    Two parameters stand for the only places the package can reach them with
    a rune outside ASCII. *)

(** [strings.Map(unicode.ToLower, s)], which [strings.ToLower] returns for a
    string holding a byte that is not ASCII. *)
Variable lowerUnicode : gostring -> gostring.

(** Whether the walk [for r != sr && r < tr { r = unicode.SimpleFold(r) }]
    from a rune [sr] outside ASCII ends on [tr]. *)
Variable foldUnicode : Z -> Z -> bool.

(** [strings.ToLower]. *)
Definition ToLower (s : gostring) : gostring :=
  if forallb (fun c => c <? RuneSelf) s then map lower1 s else lowerUnicode s.

(** The rune-wise part of [strings.EqualFold], after the label [hasUnicode]:
    [for _, sr := range s { ... }] and then [return len(t) == 0].  Every
    round takes at least one byte of [s], so its callers' [S (length s)]
    rounds are enough.  A walk from an ASCII rune stays on
    [SimpleFold_ascii_orbit] and ends within four rounds. *)
Fixpoint EqualFold_runes (fuel : nat) (s t : gostring) : bool :=
  match fuel with
  | O => false
  | S fuel' =>
      match s, t with
      | [], _ => len t =? 0
      | _ :: _, [] => false
      | _ :: _, t0 :: _ =>
          let '(sr, ssize) := DecodeRuneInString s in
          let '(tr, tsize) := if t0 <? RuneSelf then (t0, 1) else DecodeRuneInString t in
          let s' := slice_from s ssize in
          let t' := slice_from t tsize in
          if tr =? sr then EqualFold_runes fuel' s' t' else
          let '(sr, tr) := if tr <? sr then (tr, sr) else (sr, tr) in
          if tr <? RuneSelf then
            if is_upper sr && (tr =? sr + 32) then EqualFold_runes fuel' s' t' else false
          else
            let hit := if sr <? RuneSelf
                       then fold_walk 4 (SimpleFold_ascii_orbit sr) sr tr =? tr
                       else foldUnicode sr tr in
            if hit then EqualFold_runes fuel' s' t' else false
      end
  end.

(** [strings.EqualFold]: the byte-wise pass over ASCII, which hands over to
    [EqualFold_runes] at the first byte that is not ASCII. *)
Fixpoint EqualFold (s t : gostring) : bool :=
  match s, t with
  | [], [] => true
  | sr :: s', tr :: t' =>
      if RuneSelf <=? sr .| tr then EqualFold_runes (S (length s)) s t
      else if tr =? sr then EqualFold s' t'
      else
        let '(sr, tr) := if tr <? sr then (tr, sr) else (sr, tr) in
        if is_upper sr && (tr =? sr + 32) then EqualFold s' t' else false
  | _, _ => false
  end.

(** ** Checksum engine *)

Definition hrpExpand (s : gostring) : list Z :=
  map (fun c => c >> 5) s ++ [0] ++ map (fun c => c .& 31) s.

Fixpoint payloadTo5bits (payload : gostring) : outcome (list Z) :=
  match payload with
  | [] => Ok []
  | c :: rest =>
      let v := alphaRev c in
      if v =? 255 then Panic PanicInvalidPayload else
      do out <- payloadTo5bits rest;
      Ok (v :: out)
  end.

(** One round of the loop of [bech32Polymod]. *)
Definition polymod_step (chk v : Z) : Z :=
  let b := chk >> 25 in
  let chk := u32 ((chk .& 0x1ffffff) << 5) .^ v in
  let chk := if negb (b .& 1 =? 0) then chk .^ 0x3b6a57b2 else chk in
  let chk := if negb (b .& 2 =? 0) then chk .^ 0x26508e6d else chk in
  let chk := if negb (b .& 4 =? 0) then chk .^ 0x1ea119fa else chk in
  let chk := if negb (b .& 8 =? 0) then chk .^ 0x3d4233dd else chk in
  let chk := if negb (b .& 16 =? 0) then chk .^ 0x2a1462b3 else chk in
  chk.

Definition bech32Polymod (values : list Z) : Z := fold_left polymod_step values 1.

Definition checksum4Base (base : gostring) : outcome gostring :=
  let idx := IndexByte base (chr "_") in
  if idx <=? 0 then Panic PanicBadBase else
  let hrp := ToLower (slice_to base (idx + 1)) in
  let payload := ToLower (slice_from base (idx + 1)) in
  let values := hrpExpand hrp in
  do p5 <- payloadTo5bits payload;
  let values := values ++ p5 in
  let values := values ++ [0; 0; 0; 0] in
  let pm := bech32Polymod values .^ 1 in
  Ok (map (fun i => at_ alpha (u8 ((pm >> (5 * (3 - i))) .& 31))) [0; 1; 2; 3]).

(** ** Generation from explicit parts *)

Record Components : Type := mkComponents {
  c_Prefix : gostring;
  c_TimeMs : Z;
  c_Flags : Z;
  c_Tenant : Z;
  c_Seq : Z;
  c_Shard : Z;
  c_Random60 : Z
}.

Definition validatePrefix (p : gostring) : outcome unit :=
  if negb (prefixRe_MatchString p) then Err (ErrInvalidPrefixQ p) else Ok tt.

Definition NewFromParts (c : Components) (withChecksum : bool) : outcome gostring :=
  do _ <- validatePrefix (c_Prefix c);
  let msSince2020 :=
    if epoch2020 <=? c_TimeMs c then u64 (i64 (c_TimeMs c - epoch2020)) else 0 in
  let seq12 := c_Seq c .& 0x0FFF in
  let rand60 := c_Random60 c .& ((1 << 60) - 1) in
  let body := pack msSince2020 (c_Flags c) (c_Tenant c) seq12 (c_Shard c) rand60 in
  do payload <- b32encode body;
  let base := c_Prefix c ++ str "_" ++ payload in
  if withChecksum then
    do cs <- checksum4Base base;
    Ok (base ++ str "-" ++ cs)
  else Ok base.

(** ** Parsing *)

Record Parsed : Type := mkParsed {
  Prefix : gostring;
  TimeMs : Z;
  Flags : Z;
  Tenant : Z;
  Seq : Z;
  Shard : Z;
  Random : Z
}.

(** The loop [for j := 0; j < 32; j++] of [Parse], from index [j] on. *)
Fixpoint check_symbols (payload : gostring) (j : Z) : outcome unit :=
  match payload with
  | [] => Ok tt
  | c :: rest =>
      if alphaRev c =? 255 then Err (ErrInvalidBase32Pos j)
      else check_symbols rest (j + 1)
  end.

(** The checksum block of [Parse]: the base string that is left once a
    suffix after the last ['-'] has been checked. *)
Definition split_checksum (s : gostring) : outcome gostring :=
  let i := LastIndexByte s (chr "-") in
  if 0 <=? i then
    let base := slice_to s i in
    let csGiven := slice_from s (i + 1) in
    if negb (len csGiven =? 4) then Err ErrChecksumLength else
    do expected <- checksum4Base base;
    if negb (EqualFold csGiven expected) then Err ErrChecksumMismatch
    else Ok base
  else Ok s.

Definition Parse (s : gostring) : outcome Parsed :=
  let s := TrimSpace s in
  do base <- split_checksum s;
  let i := IndexByte base (chr "_") in
  if i <=? 0 then Err ErrMissingSeparator else
  let prefix := slice_to base i in
  if negb (prefixRe_MatchString prefix) then Err ErrInvalidPrefix else
  let payload := slice_from base (i + 1) in
  if negb (len payload =? 32) then Err ErrPayloadLength else
  do _ <- check_symbols payload 0;
  do buf <- b32decode payload;
  do f <- unpack buf;
  let '(ms, flags, tenant, seq, shard, random60) := f in
  Ok {| Prefix := prefix;
        TimeMs := i64 (i64 ms + epoch2020);
        Flags := flags;
        Tenant := tenant;
        Seq := seq;
        Shard := shard;
        Random := random60 |}.

(** ** Generation from the clock *)

Record options : Type := mkOptions {
  tenant : Z;
  shard : Z;
  withChecksum : bool;
  bucketSeconds : Z
}.

Definition Option : Type := options -> options.

Definition WithTenant (t : Z) : Option :=
  fun o => mkOptions t (shard o) (withChecksum o) (bucketSeconds o).

Definition WithShard (s : Z) : Option :=
  fun o => mkOptions (tenant o) s (withChecksum o) (bucketSeconds o).

Definition WithShardFromBytes (b : list Z) : Option :=
  fun o =>
    let h := fold_left (fun h byte_ => u32 (h * 16777619) .^ byte_) b 0 in
    mkOptions (tenant o) (u16 (h .& 0xFFFF)) (withChecksum o) (bucketSeconds o).

Definition WithChecksum (v : bool) : Option :=
  fun o => mkOptions (tenant o) (shard o) v (bucketSeconds o).

Definition WithBucketSeconds (sec : Z) : Option :=
  fun o => mkOptions (tenant o) (shard o) (withChecksum o) sec.

(** The package variables [lastMs] and [seq12], guarded by [mu]. *)
Definition seq_state : Type := (Z * Z)%type.

(** The critical section of [New]: the new state and [localSeq]. *)
Definition seq_step (st : seq_state) (ms : Z) : seq_state * Z :=
  let '(lastMs, seq12) := st in
  if ms =? lastMs then
    let seq12 := u16 (seq12 + 1) .& 0x0FFF in
    ((lastMs, seq12), seq12)
  else ((ms, 0), 0).

(** [binary.BigEndian.Uint64]. *)
Definition BigEndian_Uint64 (b : list Z) : Z :=
  at_ b 7 .| at_ b 6 << 8 .| at_ b 5 << 16 .| at_ b 4 << 24
  .| at_ b 3 << 32 .| at_ b 2 << 40 .| at_ b 1 << 48 .| at_ b 0 << 56.

(** [New], with what it reads from its environment made explicit: [now] is
    [time.Now().UTC().UnixMilli()], [entropy] the eight bytes [rand.Read]
    delivers ([None] when it fails) and [st] the sequence state, which is
    returned updated. *)
Definition New (prefix : gostring) (opts : list Option)
    (now : Z) (entropy : option (list Z)) (st : seq_state)
  : outcome gostring * seq_state :=
  if negb (prefixRe_MatchString prefix) then (Panic PanicInvalidPrefix, st) else
  let o := fold_left (fun o fn => fn o) opts (mkOptions 0 0 false 0) in
  let bs := i64 (bucketSeconds o * 1000) in
  if (0 <? bucketSeconds o) && (bs =? 0) then (Panic PanicDivideByZero, st) else
  let now := if 0 <? bucketSeconds o then i64 (i64 (Z.quot now bs) * bs) else now in
  let ms := i64 (now - epoch2020) in
  let '(st, localSeq) := seq_step st ms in
  let flags := 0 in
  let flags := if 0 <? bucketSeconds o then flags .| privacyBitMask else flags in
  match entropy with
  | None => (Panic PanicEntropy, st)
  | Some rnd =>
      let rnd := upd rnd 0 (at_ rnd 0 .& 0x0F) in
      let random60 := BigEndian_Uint64 rnd in
      let body := pack (u64 ms) flags (tenant o) localSeq (shard o) random60 in
      (do payload <- b32encode body;
       let base := prefix ++ str "_" ++ payload in
       if withChecksum o then
         do cs <- checksum4Base base;
         Ok (base ++ str "-" ++ cs)
       else Ok base, st)
  end.

(** ** Generation from parts, the random in hexadecimal *)

(** What [NewFromPartsHex] returns: the error of [hex.DecodeString], wrapped
    as ["random_hex: %w"], or what [NewFromParts] returns. *)
Inductive hex_outcome : Type :=
  | RandomHexError (err : hex.error)
  | FromParts (r : outcome gostring).

(** The loop [for _, b := range rb { u = (u << 8) | uint64(b) }]. *)
Definition be_uint64 (rb : list Z) : Z :=
  fold_left (fun u b => u64 (u << 8) .| b) rb 0.

Definition NewFromPartsHex (c : Components) (randomHex : gostring) (withChecksum : bool)
  : hex_outcome :=
  match hex.DecodeString randomHex with
  | (_, Some err) => RandomHexError err
  | (rb, None) =>
      let u := be_uint64 rb in
      let c := mkComponents (c_Prefix c) (c_TimeMs c) (c_Flags c) (c_Tenant c) (c_Seq c)
                 (c_Shard c) (u .& ((1 << 60) - 1)) in
      FromParts (NewFromParts c withChecksum)
  end.

End Codec.

(** * The test vectors and the programs that read them *)

(** The struct [vector], which the spec-vector test, [tools/conformance] and
    [cmd/goldenize] each declare, field for field. *)
Record vector : Type := mkVector {
  v_Desc : gostring;
  v_Prefix : gostring;
  v_TimeMs : Z;
  v_Flags : Z;
  v_Tenant : Z;
  v_Seq : Z;
  v_Shard : Z;
  v_RandomHex : gostring;
  v_ID : gostring;
  v_ExpectError : bool
}.

(** The [Components] literal the three programs build from a vector;
    [Random60] is left at its zero value. *)
Definition vector_components (v : vector) : Components :=
  mkComponents (v_Prefix v) (v_TimeMs v) (v_Flags v) (v_Tenant v) (v_Seq v) (v_Shard v) 0.

(** ** The spec-vector test *)

Module spec_vectors_test.

(** The errors of [hexTo60]. *)
Inductive hexTo60_error : Type :=
  | DecodeError (err : hex.error)
  | EmptyRandomHex.

Definition hexTo60 (h : gostring) : hexTo60_error + Z :=
  match hex.DecodeString h with
  | (_, Some err) => inl (DecodeError err)
  | (b, None) =>
      if len b =? 0 then inl EmptyRandomHex
      else inr (be_uint64 b .& ((1 << 60) - 1))
  end.

(** The calls of [t.Fatalf], by their message. *)
Inductive failure : Type :=
  | NoVectors
  | BuildIDFailed
  | EncodeMismatch
  | ExpectedParseError
  | ParseFailed
  | PrefixMismatch
  | TimeMismatch
  | FlagsMismatch
  | TenantMismatch
  | SeqMismatch
  | ShardMismatch
  | RandomDecode
  | RandomMismatch.

(** How a test, or one round of its loop, ends: it goes on, it stops at
    [t.Fatalf], or the package panics under it. *)
Inductive verdict : Type :=
  | Pass
  | Fatalf (f : failure)
  | Panicked (pn : panic).

(** [for _, vec := range vset.Vectors], the body given by [check];
    [loadVectors] has refused an empty list before. *)
Fixpoint each_vector (check : vector -> verdict) (vs : list vector) : verdict :=
  match vs with
  | [] => Pass
  | vec :: rest =>
      match check vec with
      | Pass => each_vector check rest
      | stop => stop
      end
  end.

Section Test.

Variable lowerUnicode : gostring -> gostring.
Variable foldUnicode : Z -> Z -> bool.

Definition buildID (v : vector) : hex_outcome :=
  let withChecksum := Contains (v_ID v) (str "-") in
  NewFromPartsHex lowerUnicode (vector_components v) (v_RandomHex v) withChecksum.

Definition isInvalid (v : vector) : bool :=
  Contains (ToLower lowerUnicode (v_Desc v)) (str "invalid").

(** The body of the loop of [TestSpecVectors_EncodeMatches]. *)
Definition encode_check (vec : vector) : verdict :=
  if isInvalid vec then Pass else
  match buildID vec with
  | RandomHexError _ => Fatalf BuildIDFailed
  | FromParts (Err _) => Fatalf BuildIDFailed
  | FromParts (Panic pn) => Panicked pn
  | FromParts (Ok got) =>
      if negb (string_eq got (v_ID vec)) then Fatalf EncodeMismatch else Pass
  end.

Definition TestSpecVectors_EncodeMatches (vs : list vector) : verdict :=
  if len vs =? 0 then Fatalf NoVectors else each_vector encode_check vs.

(** The body of the loop of [TestSpecVectors_ParseMatches]. *)
Definition parse_check (vec : vector) : verdict :=
  match Parse lowerUnicode foldUnicode (v_ID vec) with
  | Panic pn => Panicked pn
  | Err _ => if v_ExpectError vec then Pass else Fatalf ParseFailed
  | Ok parsed =>
      if v_ExpectError vec then Fatalf ExpectedParseError else
      if isInvalid vec then Fatalf ExpectedParseError else
      if negb (string_eq (Prefix parsed) (v_Prefix vec)) then Fatalf PrefixMismatch else
      if negb (TimeMs parsed =? v_TimeMs vec) then Fatalf TimeMismatch else
      if negb (Flags parsed =? v_Flags vec) then Fatalf FlagsMismatch else
      if negb (Tenant parsed =? v_Tenant vec) then Fatalf TenantMismatch else
      if negb (Seq parsed =? v_Seq vec .& 0x0FFF) then Fatalf SeqMismatch else
      if negb (Shard parsed =? v_Shard vec) then Fatalf ShardMismatch else
      match hexTo60 (v_RandomHex vec) with
      | inl _ => Fatalf RandomDecode
      | inr wantRnd =>
          if negb (Random parsed =? wantRnd) then Fatalf RandomMismatch else Pass
      end
  end.

Definition TestSpecVectors_ParseMatches (vs : list vector) : verdict :=
  if len vs =? 0 then Fatalf NoVectors else each_vector parse_check vs.

End Test.

End spec_vectors_test.

(** ** [tools/conformance] *)

Module conformance.

(** [hexTo60] of the tool: the empty string is 0. *)
Definition hexTo60 (h : gostring) : hex.error + Z :=
  match hex.DecodeString h with
  | (_, Some err) => inl err
  | (b, None) => inr (be_uint64 b .& ((1 << 60) - 1))
  end.

(** The four counters of [main]. *)
Record counts : Type := mkCounts {
  encOK : Z;
  encFail : Z;
  parseOK : Z;
  parseFail : Z
}.

(** How a round of the loop ends: with the next round, in [exitWith] under
    [-fail-fast], or in a panic of the package. *)
Inductive round : Type :=
  | Next (k : counts)
  | ExitWith (k : counts)
  | Crash (pn : panic).

Definition add_encOK (k : counts) : counts :=
  mkCounts (encOK k + 1) (encFail k) (parseOK k) (parseFail k).
Definition add_encFail (k : counts) : counts :=
  mkCounts (encOK k) (encFail k + 1) (parseOK k) (parseFail k).
Definition add_parseOK (k : counts) : counts :=
  mkCounts (encOK k) (encFail k) (parseOK k + 1) (parseFail k).
Definition add_parseFail (k : counts) : counts :=
  mkCounts (encOK k) (encFail k) (parseOK k) (parseFail k + 1).

Section Tool.

Variable lowerUnicode : gostring -> gostring.
Variable foldUnicode : Z -> Z -> bool.

(** The flags [-v] and [-fail-fast]. *)
Variable verbose : bool.
Variable failFast : bool.

(** The encode check of one vector. *)
Definition encode_round (vc : vector) (k : counts) : round :=
  if negb (v_ExpectError vc) then
    let withChecksum := Contains (v_ID vc) (str "-") in
    match NewFromPartsHex lowerUnicode (vector_components vc) (v_RandomHex vc) withChecksum with
    | FromParts (Panic pn) => Crash pn
    | FromParts (Ok got) =>
        if negb (string_eq got (v_ID vc)) then
          let k := add_encFail k in
          if failFast then ExitWith k else Next k
        else Next (add_encOK k)
    | _ =>
        let k := add_encFail k in
        if failFast then ExitWith k else Next k
    end
  else Next k.

(** The parse check of one vector. *)
Definition parse_round (vc : vector) (k : counts) : round :=
  match Parse lowerUnicode foldUnicode (v_ID vc) with
  | Panic pn => Crash pn
  | Err _ =>
      if v_ExpectError vc then
        Next (if verbose then add_parseOK k else k)
      else
        let k := add_parseFail k in
        if failFast then ExitWith k else Next k
  | Ok parsed =>
      if v_ExpectError vc then
        let k := add_parseFail k in
        if failFast then ExitWith k else Next k
      else
      if negb (string_eq (Prefix parsed) (v_Prefix vc)) then Next (add_parseFail k) else
      if negb (TimeMs parsed =? v_TimeMs vc) then Next (add_parseFail k) else
      if negb (Flags parsed =? v_Flags vc) then Next (add_parseFail k) else
      if negb (Tenant parsed =? v_Tenant vc) then Next (add_parseFail k) else
      if negb (Seq parsed =? v_Seq vc .& 0x0FFF) then Next (add_parseFail k) else
      if negb (Shard parsed =? v_Shard vc) then Next (add_parseFail k) else
      match hexTo60 (v_RandomHex vc) with
      | inl _ => Next (add_parseFail k)
      | inr wantRnd =>
          if negb (Random parsed =? wantRnd) then Next (add_parseFail k)
          else Next (add_parseOK k)
      end
  end.

(** The body of [for i, vc := range vf.Vectors]. *)
Definition vector_round (vc : vector) (k : counts) : round :=
  match encode_round vc k with
  | Next k => parse_round vc k
  | stop => stop
  end.

(** The loop, and the [exitWith] after it. *)
Fixpoint rounds (vs : list vector) (k : counts) : round :=
  match vs with
  | [] => ExitWith k
  | vc :: rest =>
      match vector_round vc k with
      | Next k => rounds rest k
      | stop => stop
      end
  end.

(** The exit status [exitWith] gives. *)
Definition exit_status (k : counts) : Z :=
  if 0 <? encFail k + parseFail k then 1 else 0.

(** [main] on the vectors read: the counters printed and the exit status,
    [None] for a panic.  An empty list is refused with status 2. *)
Definition main (vs : list vector) : option (counts * Z) :=
  if len vs =? 0 then Some (mkCounts 0 0 0 0, 2) else
  match rounds vs (mkCounts 0 0 0 0) with
  | Next k | ExitWith k => Some (k, exit_status k)
  | Crash _ => None
  end.

End Tool.

End conformance.

(** ** [cmd/goldenize] *)

Module goldenize.

(** What [must] panics with. *)
Inductive must_error : Type :=
  | RandomHex (err : hex.error)
  | Parts (err : error).

(** How the loop of [main] ends. *)
Inductive run (A : Type) : Type :=
  | Done (a : A)
  | Must (err : must_error)
  | Crash (pn : panic).
Arguments Done {A} a.
Arguments Must {A} err.
Arguments Crash {A} pn.

Definition set_ID (vec : vector) (id : gostring) : vector :=
  mkVector (v_Desc vec) (v_Prefix vec) (v_TimeMs vec) (v_Flags vec) (v_Tenant vec)
    (v_Seq vec) (v_Shard vec) (v_RandomHex vec) id (v_ExpectError vec).

Section Tool.

Variable lowerUnicode : gostring -> gostring.

(** The body of [for i := range v.Vectors]: the vector as it is left, and
    whether it was changed. *)
Definition vector_round (vec : vector) : run (vector * bool) :=
  if v_ExpectError vec then Done (vec, false) else
  let withChecksum := Contains (v_ID vec) (str "-") in
  match NewFromPartsHex lowerUnicode (vector_components vec) (v_RandomHex vec) withChecksum with
  | RandomHexError err => Must (RandomHex err)
  | FromParts (Err err) => Must (Parts err)
  | FromParts (Panic pn) => Crash pn
  | FromParts (Ok got) =>
      if negb (string_eq (v_ID vec) got) then Done (set_ID vec got, true)
      else Done (vec, false)
  end.

(** The loop: the vectors as they are left and the flag [changed]. *)
Fixpoint rounds (vs : list vector) (changed : bool) : run (list vector * bool) :=
  match vs with
  | [] => Done ([], changed)
  | vec :: rest =>
      match vector_round vec with
      | Done (vec', c) =>
          match rounds rest (changed || c) with
          | Done (rest', changed') => Done (vec' :: rest', changed')
          | Must err => Must err
          | Crash pn => Crash pn
          end
      | Must err => Must err
      | Crash pn => Crash pn
      end
  end.

(** [main] on the vectors read: the vectors the file holds afterwards. *)
Definition main (vs : list vector) : run (list vector) :=
  match rounds vs false with
  | Done (vs', changed) => Done (if changed then vs' else vs)
  | Must err => Must err
  | Crash pn => Crash pn
  end.

End Tool.

End goldenize.

(** ** The command-line tool *)

Module cli.

(** The tamper demo of [main]: the last byte of a non-empty string replaced
    by ['0'], or by ['1'] where it is ['0']. *)
Definition tamper (bad : gostring) : gostring :=
  let last := at_ bad (len bad - 1) in
  let repl := if last =? chr "0" then chr "1" else chr "0" in
  slice_to bad (len bad - 1) ++ [repl].

End cli.

(** [bad := id[:len(id)-1] + "0"] of [TestChecksumRoundTrip]. *)
Definition tamper_zero (id : gostring) : gostring :=
  slice_to id (len id - 1) ++ str "0".

(** * Vocabulary of the statements *)


(** Horner evaluation of digits of [w] bits, most significant first. *)
Definition horner (w : Z) (acc : Z) (ds : list Z) : Z :=
  fold_left (fun a d => a * 2 ^ w + d) ds acc.

(** The number a list of [w]-bit digits writes. *)
Definition value (w : Z) (ds : list Z) : Z := horner w 0 ds.

(** Every element is a digit of [w] bits. *)
Definition digits (w : Z) (ds : list Z) : Prop := Forall (fun d => 0 <= d < 2 ^ w) ds.

(** The character of a 5-bit symbol: [alpha[d]]. *)
Definition sym (d : Z) : Z := at_ alpha d.

(** An array of [n] cells whose first cells hold [l], the rest still zero. *)
Definition filled (n : nat) (l : list Z) : list Z := l ++ repeat 0 (n - length l).

(** Go's [<] on strings and [bytes.Compare]: lexicographic order of bytes. *)
Fixpoint lex_compare (a b : list Z) : comparison :=
  match a, b with
  | [], [] => Eq
  | [], _ :: _ => Lt
  | _ :: _, [] => Gt
  | x :: a', y :: b' =>
      match x ?= y with
      | Eq => lex_compare a' b'
      | c => c
      end
  end.

(** Order of two results that both follow from comparing first by [c]. *)
Definition then_compare (c d : comparison) : comparison :=
  match c with Eq => d | _ => c end.

(** The order of the tuples [(time, flags, tenant, seq, shard, random)]. *)
Definition fields_compare (f g : fields) : comparison :=
  let '(t1, fl1, te1, s1, sh1, r1) := f in
  let '(t2, fl2, te2, s2, sh2, r2) := g in
  then_compare (t1 ?= t2) (then_compare (fl1 ?= fl2) (then_compare (te1 ?= te2)
    (then_compare (s1 ?= s2) (then_compare (sh1 ?= sh2) (r1 ?= r2))))).

(** [byte(x >> k)]: the eight bits of [x] from bit [k] up. *)
Definition bits8 (x k : Z) : Z := (x / 2 ^ k) mod 2 ^ 8.

(** The four bits of [x] from bit [k] up. *)
Definition bits4 (x k : Z) : Z := (x / 2 ^ k) mod 2 ^ 4.

(** A character the decoder accepts. *)
Definition accepted (c : Z) : Prop := 0 <= alphaRev c < 2 ^ 5.

(** The 160-bit number the layout assigns to a tuple of fields. *)
Definition body_number (f : fields) : Z :=
  let '(ms, flags, tenant, seq12, shard, random60) := f in
  ms * 2 ^ 112 + flags * 2 ^ 104 + tenant * 2 ^ 88 + seq12 * 2 ^ 76
  + shard * 2 ^ 60 + random60.

(** Fields within the widths of the layout. *)
Definition fields_in_range (f : fields) : Prop :=
  let '(ms, flags, tenant, seq12, shard, random60) := f in
  0 <= ms < 2 ^ 48 /\ 0 <= flags < 2 ^ 8 /\ 0 <= tenant < 2 ^ 16
  /\ 0 <= seq12 < 2 ^ 12 /\ 0 <= shard < 2 ^ 16 /\ 0 <= random60 < 2 ^ 60.

(** A character of a canonical identifier before its checksum suffix: a
    lowercase letter, a digit or the separator. *)
Definition is_word (c : Z) : bool := is_lower_or_digit c || (c =? chr "_").

(** The characters [TrimSpace] stops at. *)
Definition no_space (c : Z) : Prop := c < RuneSelf /\ asciiSpace c = false.

(** Values for the two Unicode parameters of the codec, for statements about
    one concrete identifier.  Every identifier named below is ASCII, where
    neither parameter is consulted. *)
Definition lowerUnicode_unused : gostring -> gostring := fun s => s.
Definition foldUnicode_unused : Z -> Z -> bool := fun _ _ => false.

(** The record [Parse] builds from a prefix and the fields [unpack] returns. *)
Definition parsed_of (prefix : gostring) (f : fields) : Parsed :=
  let '(ms, flags, tenant, seq, shard, random60) := f in
  {| Prefix := prefix;
     TimeMs := i64 (i64 ms + epoch2020);
     Flags := flags;
     Tenant := tenant;
     Seq := seq;
     Shard := shard;
     Random := random60 |}.

(** What [New] and [NewFromParts] both do with a payload: [prefix_payload],
    and the checksum suffix when asked for. *)
Definition assemble (lowerUnicode : gostring -> gostring)
    (prefix payload : gostring) (withChecksum : bool) : outcome gostring :=
  let base := prefix ++ str "_" ++ payload in
  if withChecksum then
    do cs <- checksum4Base lowerUnicode base;
    Ok (base ++ str "-" ++ cs)
  else Ok base.

(** A base string made of a valid prefix, the separator and symbols. *)
Definition canonical_base (p : gostring) (ds : list Z) : gostring :=
  p ++ str "_" ++ map sym ds.

(** The fields [NewFromParts] packs for components whose time is at or
    after the epoch. *)
Definition fields_of (c : Components) : fields :=
  (c_TimeMs c - epoch2020, c_Flags c, c_Tenant c, c_Seq c mod 2 ^ 12,
   c_Shard c, c_Random60 c mod 2 ^ 60).

(** Components whose fields have Go's types and whose time, once shifted by
    the epoch, fits 48 bits. *)
Definition components_in_range (c : Components) : Prop :=
  epoch2020 <= c_TimeMs c < epoch2020 + 2 ^ 48
  /\ is_u8 (c_Flags c) /\ is_u16 (c_Tenant c) /\ is_u16 (c_Seq c)
  /\ is_u16 (c_Shard c) /\ is_u64 (c_Random60 c).

(** [pack] applied to a tuple of fields. *)
Definition pack_fields (f : fields) : list Z :=
  let '(ms, flags, tenant, seq12, shard, random60) := f in
  pack ms flags tenant seq12 shard random60.

(** The options [New] ends up with: [fn(&o)] for each option in turn. *)
Definition resolve_options (opts : list Option) : options :=
  fold_left (fun o fn => fn o) opts (mkOptions 0 0 false 0).

(** The millisecond [New] hands to the sequence generator: the clock,
    truncated to the bucket when bucketing is on, shifted by the epoch. *)
Definition incoming_ms (o : options) (now : Z) : Z :=
  let bs := i64 (bucketSeconds o * 1000) in
  let now := if 0 <? bucketSeconds o then i64 (i64 (Z.quot now bs) * bs) else now in
  i64 (now - epoch2020).

(** The step of the sequence generator as the specification words it, on
    the state [(last_ms, counter)]. *)
Definition sequence_step (st : Z * Z) (ms : Z) : Z * Z :=
  let '(last_ms, counter) := st in
  if ms =? last_ms then (last_ms, (counter + 1) mod 4096) else (ms, 0).

(** What [New] needs from its environment to return: a matching prefix,
    options of Go's types whose bucket, if any, is no multiple of [2 ^ 61]
    seconds, and eight random bytes. *)
Definition New_ready (prefix : gostring) (opts : list Option) (rnd : list Z) : Prop :=
  prefixRe_MatchString prefix = true
  /\ is_u16 (tenant (resolve_options opts)) /\ is_u16 (shard (resolve_options opts))
  /\ (0 < bucketSeconds (resolve_options opts) ->
      i64 (bucketSeconds (resolve_options opts) * 1000) <> 0)
  /\ length rnd = 8%nat /\ is_bytes rnd.

(** The relation between a payload character and what may stand for it:
    itself, or [u] or [U] for [v]. *)
Definition u_for_v (c c' : Z) : Prop :=
  c' = c \/ (c = chr "v" /\ (c' = chr "u" \/ c' = chr "U")).

(** ASCII white space only. *)
Definition spaces (ws : gostring) : Prop := Forall (fun b => asciiSpace b = true) ws.

(** A string that begins and ends with an ASCII byte that is no space. *)
Definition trimmed (s : gostring) : Prop :=
  s <> [] /\ no_space (hd 0 s) /\ no_space (last s 0).

(** The components a parsed identifier names. *)
Definition components_of (r : Parsed) : Components :=
  mkComponents (Prefix r) (TimeMs r) (Flags r) (Tenant r) (Seq r) (Shard r) (Random r).

(** Two spellings of the same symbols: character by character, the decoding
    table gives the same value. *)
Definition same_symbols (q q' : gostring) : Prop :=
  Forall2 (fun c c' => alphaRev c' = alphaRev c) q q'.

(** What [Parse] makes of a prefix and a payload once the base string is
    split: decode, unpack, fill the record. *)
Definition decode_fields (p q : gostring) : outcome Parsed :=
  do body <- b32decode q;
  do f <- unpack body;
  Ok (parsed_of p f).

(** The flags [New] writes: the privacy bit when the time is bucketed. *)
Definition New_flags (o : options) : Z :=
  if 0 <? bucketSeconds o then privacyBitMask else 0.

(** The fields of the identifier [New] returns, as they are read back: the
    time of the sequence generator, the options' tenant and shard, the
    sequence number drawn, and sixty bits of the entropy. *)
Definition New_fields (o : options) (now : Z) (rnd : list Z) (st : seq_state) : fields :=
  (u64 (incoming_ms o now) mod 2 ^ 48, New_flags o, tenant o,
   snd (sequence_step st (incoming_ms o now)), shard o, value 8 rnd mod 2 ^ 60).

(** The identifier made of a prefix, payload symbols and, with checksum,
    checksum symbols. *)
Definition identifier (p : gostring) (ds : list Z) (wc : bool) (cs : list Z) : gostring :=
  canonical_base p ds ++ (if wc then str "-" ++ map sym cs else []).

(** A hexadecimal digit, of either case. *)
Definition is_hex (c : Z) : Prop := hex.reverseHexTable c <= 15.

(** Components with another random. *)
Definition with_random (c : Components) (r : Z) : Components :=
  mkComponents (c_Prefix c) (c_TimeMs c) (c_Flags c) (c_Tenant c) (c_Seq c) (c_Shard c) r.

(** A vector whose numbers have the types of the struct. *)
Definition vector_typed (v : vector) : Prop :=
  - 2 ^ 63 <= v_TimeMs v < 2 ^ 63
  /\ is_u8 (v_Flags v) /\ is_u16 (v_Tenant v) /\ is_u16 (v_Seq v) /\ is_u16 (v_Shard v).

(** A time the layout holds: from the epoch to [2 ^ 48] milliseconds past it. *)
Definition time_in_range (t : Z) : bool :=
  (epoch2020 <=? t) && (t <? epoch2020 + 2 ^ 48).

(** The time read back from an identifier [NewFromParts] made for [t]. *)
Definition time_read (t : Z) : Z :=
  if t <? epoch2020 then epoch2020 else epoch2020 + (t - epoch2020) mod 2 ^ 48.

(** ** Vocabulary of the checksum engine *)

(** A generator, taken or not by a bit of the state's top. *)
Definition gen (b m G : Z) : Z := if Z.testbit b m then G else 0.

(** The part of a round that moves the low 25 bits up. *)
Definition low25_up (chk : Z) : Z := u32 ((chk .& 0x1ffffff) << 5).

(** What a round does to the difference of two states. *)
Definition polymod_shift (x : Z) : Z := polymod_step x 0.

(** [n] rounds on a difference. *)
Fixpoint polymod_shifts (n : nat) (x : Z) : Z :=
  match n with
  | O => x
  | S n' => polymod_shifts n' (polymod_shift x)
  end.

(** * Properties *)

(** ** Arithmetic of shifts and masks *)

Lemma shr_div (x k : Z) : 0 <= k -> x >> k = x / 2 ^ k.
Proof. intros; apply Z.shiftr_div_pow2; assumption. Qed.

Lemma shl_mul (x k : Z) : 0 <= k -> x << k = x * 2 ^ k.
Proof. intros; apply Z.shiftl_mul_pow2; assumption. Qed.

Lemma land_mask (x k : Z) : 0 <= k -> x .& (2 ^ k - 1) = x mod 2 ^ k.
Proof.
  intros Hk. rewrite <- Z.land_ones by assumption.
  f_equal. rewrite Z.ones_equiv. lia.
Qed.

(** A block above bit [k] and a value below it share no bit, so [.|] adds. *)
Lemma lor_add (hi lo k : Z) :
  0 <= k -> 0 <= lo < 2 ^ k -> hi * 2 ^ k .| lo = hi * 2 ^ k + lo.
Proof.
  intros Hk Hlo.
  assert (Hz : hi * 2 ^ k .& lo = 0).
  { apply Z.bits_inj'. intros n Hn.
    rewrite Z.land_spec, Z.bits_0.
    destruct (Z.lt_ge_cases n k) as [Hlt | Hge].
    - rewrite Z.mul_pow2_bits_low by assumption. reflexivity.
    - rewrite <- (Z.mod_small lo (2 ^ k)) by assumption.
      rewrite Z.mod_pow2_bits_high by lia. apply andb_false_r. }
  rewrite <- Z.lxor_lor by assumption.
  symmetry. apply Z.add_nocarry_lxor. assumption.
Qed.

(** The bits of [x] below [n + m]: the [m] bits from [n] up, then the [n]
    low bits. *)
Lemma mod_split (x n m : Z) :
  0 <= n -> 0 <= m ->
  x mod 2 ^ (n + m) = (x / 2 ^ n) mod 2 ^ m * 2 ^ n + x mod 2 ^ n.
Proof.
  intros Hn Hm. rewrite Z.pow_add_r by assumption.
  rewrite Z.rem_mul_r by lia. lia.
Qed.

Lemma div_div_pow2 (x n m : Z) :
  0 <= n -> 0 <= m -> x / 2 ^ n / 2 ^ m = x / 2 ^ (n + m).
Proof.
  intros Hn Hm. rewrite Z.pow_add_r by assumption.
  apply Z.div_div; lia.
Qed.

Lemma mod_pow2_bound (x k : Z) : 0 <= k -> 0 <= x mod 2 ^ k < 2 ^ k.
Proof. intros; apply Z.mod_pos_bound; lia. Qed.

(** ** Bit packer *)

Lemma u8_small (x : Z) : 0 <= x < 2 ^ 8 -> u8 x = x.
Proof. intros; apply Z.mod_small; assumption. Qed.

Lemma u16_small (x : Z) : 0 <= x < 2 ^ 16 -> u16 x = x.
Proof. intros; apply Z.mod_small; assumption. Qed.

Lemma u64_small (x : Z) : 0 <= x < 2 ^ 64 -> u64 x = x.
Proof. intros; apply Z.mod_small; assumption. Qed.

Lemma bits8_bound (x k : Z) : 0 <= bits8 x k < 2 ^ 8.
Proof. apply mod_pow2_bound; lia. Qed.

Lemma bits4_bound (x k : Z) : 0 <= bits4 x k < 2 ^ 4.
Proof. apply mod_pow2_bound; lia. Qed.

Lemma u8_shr (x k : Z) : 0 <= k -> u8 (x >> k) = bits8 x k.
Proof. intros; unfold u8, bits8; rewrite shr_div by assumption; reflexivity. Qed.

Lemma u8_shr_mask (x k : Z) : 0 <= k -> u8 ((x >> k) .& 255) = bits8 x k.
Proof.
  intros. change 255 with (2 ^ 8 - 1). rewrite land_mask by lia.
  rewrite shr_div by assumption. apply u8_small, mod_pow2_bound; lia.
Qed.

Lemma u8_mask (x : Z) : u8 (x .& 255) = bits8 x 0.
Proof.
  change 255 with (2 ^ 8 - 1). rewrite land_mask by lia.
  unfold bits8. rewrite Z.pow_0_r, Z.div_1_r. apply u8_small, mod_pow2_bound; lia.
Qed.

Lemma u8_bits8_0 (x : Z) : u8 x = bits8 x 0.
Proof. unfold u8, bits8. rewrite Z.pow_0_r, Z.div_1_r. reflexivity. Qed.

(** The high nibble written by [byte((x & 0x0F) << 4)]. *)
Lemma hi_nibble (x : Z) : u8 (u16 ((x .& 15) << 4)) = bits4 x 0 * 2 ^ 4.
Proof.
  change 15 with (2 ^ 4 - 1). rewrite land_mask by lia.
  rewrite shl_mul by lia. unfold bits4. rewrite Z.pow_0_r, Z.div_1_r.
  pose proof (mod_pow2_bound x 4).
  rewrite u16_small by lia. apply u8_small; lia.
Qed.

(** The low nibble written by [byte((x >> k) & 0x0F)]. *)
Lemma lo_nibble (x k : Z) : 0 <= k -> u8 ((x >> k) .& 15) = bits4 x k.
Proof.
  intros. change 15 with (2 ^ 4 - 1). rewrite land_mask by lia.
  rewrite shr_div by assumption. pose proof (bits4_bound x k).
  apply u8_small. unfold bits4 in *. lia.
Qed.

(** [pack] byte by byte, in terms of bit fields. *)
Lemma pack_bits (ms flags tenant seq12 shard random60 : Z) :
  pack ms flags tenant seq12 shard random60 =
  [ bits8 ms 40; bits8 ms 32; bits8 ms 24; bits8 ms 16; bits8 ms 8; bits8 ms 0;
    flags;
    bits8 tenant 8; bits8 tenant 0;
    bits8 seq12 4;
    bits4 seq12 0 * 2 ^ 4 + bits4 shard 12;
    bits8 shard 4;
    bits4 shard 0 * 2 ^ 4 + bits4 random60 56;
    bits8 random60 48; bits8 random60 40; bits8 random60 32; bits8 random60 24;
    bits8 random60 16; bits8 random60 8; bits8 random60 0 ].
Proof.
  unfold pack.
  rewrite !hi_nibble, !lo_nibble by lia.
  rewrite !u8_shr_mask, !u8_shr, !u8_mask, !u8_bits8_0 by lia.
  rewrite !lor_add by (try lia; apply bits4_bound).
  reflexivity.
Qed.

Lemma pack_is_bytes (ms flags tenant seq12 shard random60 : Z) :
  is_u8 flags -> is_bytes (pack ms flags tenant seq12 shard random60).
Proof.
  intros Hf. rewrite pack_bits. unfold is_bytes.
  pose proof (bits4_bound seq12 0). pose proof (bits4_bound shard 12).
  pose proof (bits4_bound shard 0). pose proof (bits4_bound random60 56).
  repeat (apply Forall_cons;
          [ first [ apply bits8_bound | assumption | unfold is_u8; lia ] | ]).
  apply Forall_nil.
Qed.

(** Reading a byte that holds two nibbles. *)
Lemma nibbles_hi (h l : Z) :
  0 <= h < 2 ^ 4 -> 0 <= l < 2 ^ 4 -> ((h * 2 ^ 4 + l) .& 240) >> 4 = h.
Proof.
  intros Hh Hl.
  assert (Hb : 0 <= h * 2 ^ 4 + l < 256) by lia.
  assert (E : forall x, 0 <= x < 256 -> (x .& 240) >> 4 = x / 2 ^ 4).
  { intros x Hx.
    assert (Hall : forallb (fun n => ((Z.of_nat n .& 240) >> 4) =? Z.of_nat n / 2 ^ 4)
                     (seq 0 256) = true) by (vm_compute; reflexivity).
    rewrite forallb_forall in Hall.
    specialize (Hall (Z.to_nat x)). rewrite Z2Nat.id in Hall by lia.
    apply Z.eqb_eq, Hall, in_seq. lia. }
  rewrite E by assumption.
  symmetry; apply (Z.div_unique _ _ h l); lia.
Qed.

Lemma nibbles_lo (h l : Z) :
  0 <= h < 2 ^ 4 -> 0 <= l < 2 ^ 4 -> (h * 2 ^ 4 + l) .& 15 = l.
Proof.
  intros Hh Hl. change 15 with (2 ^ 4 - 1). rewrite land_mask by lia.
  symmetry; apply (Z.mod_unique _ _ h l); lia.
Qed.

(** [uint(b) << k] stays inside the word. *)
Lemma u64_shl (b k : Z) : 0 <= b < 2 ^ 8 -> 0 <= k <= 56 -> u64 (b << k) = b * 2 ^ k.
Proof.
  intros Hb Hk. rewrite shl_mul by lia. apply u64_small.
  assert (2 ^ k <= 2 ^ 56) by (apply Z.pow_le_mono_r; lia). nia.
Qed.

Lemma u16_shl (b k : Z) : 0 <= b < 2 ^ 8 -> 0 <= k <= 8 -> u16 (b << k) = b * 2 ^ k.
Proof.
  intros Hb Hk. rewrite shl_mul by lia. apply u16_small.
  assert (2 ^ k <= 2 ^ 8) by (apply Z.pow_le_mono_r; lia). nia.
Qed.

Lemma u16_shl12 (b : Z) : 0 <= b < 2 ^ 4 -> u16 (b << 12) = b * 2 ^ 12.
Proof. intros Hb. rewrite shl_mul by lia. apply u16_small. lia. Qed.

(** Bounds of every bit field that occurs in the goal. *)
Ltac pose_field_bounds :=
  repeat match goal with
  | |- context [bits8 ?x ?k] =>
      lazymatch goal with
      | _ : 0 <= bits8 x k < 2 ^ 8 |- _ => fail
      | _ => pose proof (bits8_bound x k)
      end
  | |- context [bits4 ?x ?k] =>
      lazymatch goal with
      | _ : 0 <= bits4 x k < 2 ^ 4 |- _ => fail
      | _ => pose proof (bits4_bound x k)
      end
  end.

(** Turn a chain of [.|] over disjoint blocks into a sum, innermost first. *)
Ltac lor_to_add :=
  rewrite <- ?Z.lor_assoc;
  repeat match goal with
  | |- context [ ?h * 2 ^ ?k .| ?lo ] =>
      lazymatch lo with
      | context [Z.lor] => fail
      | _ => rewrite (lor_add h lo k) by lia
      end
  end.

Lemma bits8_split (x k : Z) :
  0 <= k -> x mod 2 ^ (k + 8) = bits8 x k * 2 ^ k + x mod 2 ^ k.
Proof. intros; apply mod_split; lia. Qed.

Lemma bits4_split (x k : Z) :
  0 <= k -> x mod 2 ^ (k + 4) = bits4 x k * 2 ^ k + x mod 2 ^ k.
Proof. intros; apply mod_split; lia. Qed.

Lemma mod_1 (x : Z) : x mod 2 ^ 0 = 0.
Proof. apply Z.mod_1_r. Qed.

(** Six bytes make the low 48 bits. *)
Lemma join_ms (x : Z) :
  bits8 x 40 * 2 ^ 40 + (bits8 x 32 * 2 ^ 32 + (bits8 x 24 * 2 ^ 24
    + (bits8 x 16 * 2 ^ 16 + (bits8 x 8 * 2 ^ 8 + bits8 x 0)))) = x mod 2 ^ 48.
Proof.
  pose proof (bits8_split x 40). pose proof (bits8_split x 32).
  pose proof (bits8_split x 24). pose proof (bits8_split x 16).
  pose proof (bits8_split x 8). pose proof (bits8_split x 0).
  pose proof (mod_1 x). cbn [Z.add Pos.add Pos.succ] in *. lia.
Qed.

Lemma join_u16 (x : Z) : bits8 x 8 * 2 ^ 8 + bits8 x 0 = x mod 2 ^ 16.
Proof.
  pose proof (bits8_split x 8). pose proof (bits8_split x 0).
  pose proof (mod_1 x). cbn [Z.add Pos.add Pos.succ] in *. lia.
Qed.

Lemma join_seq (x : Z) : bits8 x 4 * 2 ^ 4 + bits4 x 0 = x mod 2 ^ 12.
Proof.
  pose proof (bits8_split x 4). pose proof (bits4_split x 0).
  pose proof (mod_1 x). cbn [Z.add Pos.add Pos.succ] in *. lia.
Qed.

Lemma join_shard (x : Z) :
  bits4 x 12 * 2 ^ 12 + (bits8 x 4 * 2 ^ 4 + bits4 x 0) = x mod 2 ^ 16.
Proof.
  pose proof (bits4_split x 12). pose proof (bits8_split x 4).
  pose proof (bits4_split x 0).
  pose proof (mod_1 x). cbn [Z.add Pos.add Pos.succ] in *. lia.
Qed.

Lemma join_random (x : Z) :
  bits4 x 56 * 2 ^ 56 + (bits8 x 48 * 2 ^ 48 + (bits8 x 40 * 2 ^ 40
    + (bits8 x 32 * 2 ^ 32 + (bits8 x 24 * 2 ^ 24 + (bits8 x 16 * 2 ^ 16
    + (bits8 x 8 * 2 ^ 8 + bits8 x 0)))))) = x mod 2 ^ 60.
Proof.
  pose proof (bits4_split x 56). pose proof (bits8_split x 48).
  pose proof (bits8_split x 40). pose proof (bits8_split x 32).
  pose proof (bits8_split x 24). pose proof (bits8_split x 16).
  pose proof (bits8_split x 8). pose proof (bits8_split x 0).
  pose proof (mod_1 x). cbn [Z.add Pos.add Pos.succ] in *. lia.
Qed.

(** [unpack] on twenty named bytes. *)
Lemma unpack_20 (b0 b1 b2 b3 b4 b5 b6 b7 b8 b9 b10 b11 b12 b13 b14 b15 b16 b17 b18 b19 : Z) :
  unpack [b0; b1; b2; b3; b4; b5; b6; b7; b8; b9; b10; b11; b12; b13; b14; b15;
          b16; b17; b18; b19] =
  Ok (u64 (b0 << 40) .| u64 (b1 << 32) .| u64 (b2 << 24) .| u64 (b3 << 16)
        .| u64 (b4 << 8) .| b5,
      b6,
      u16 (b7 << 8) .| b8,
      u16 (b9 << 4) .| (b10 .& 240) >> 4,
      u16 ((b10 .& 15) << 12) .| u16 (b11 << 4) .| (b12 .& 240) >> 4,
      u64 ((b12 .& 15) << 56) .| u64 (b13 << 48) .| u64 (b14 << 40)
        .| u64 (b15 << 32) .| u64 (b16 << 24) .| u64 (b17 << 16)
        .| u64 (b18 << 8) .| b19).
Proof. reflexivity. Qed.

(** What [unpack] reads back from [pack]: every field cut to its width. *)
Lemma unpack_pack_masked (ms flags tenant seq12 shard random60 : Z) :
  is_u8 flags -> is_u16 tenant -> is_u16 shard ->
  unpack (pack ms flags tenant seq12 shard random60) =
  Ok (ms mod 2 ^ 48, flags, tenant, seq12 mod 2 ^ 12, shard, random60 mod 2 ^ 60).
Proof.
  intros Hf Ht Hs. unfold is_u8, is_u16 in *.
  rewrite pack_bits, unpack_20.
  pose_field_bounds.
  rewrite !nibbles_hi, !nibbles_lo by assumption.
  rewrite !u64_shl by (try apply bits8_bound; lia).
  rewrite u16_shl12 by assumption.
  rewrite !u16_shl by (try apply bits8_bound; lia).
  lor_to_add.
  rewrite join_ms, join_u16, join_seq, join_shard, join_random.
  rewrite (Z.mod_small tenant), (Z.mod_small shard) by assumption.
  reflexivity.
Qed.

(** C2. For fields within their widths, [unpack (pack x)] is [x]. *)
Theorem unpack_pack (time_ms flags tenant seq shard random : Z) :
  0 <= time_ms < 2 ^ 48 -> 0 <= flags < 2 ^ 8 ->
  0 <= tenant < 2 ^ 16 -> 0 <= seq < 2 ^ 12 ->
  0 <= shard < 2 ^ 16 -> 0 <= random < 2 ^ 60 ->
  unpack (pack time_ms flags tenant seq shard random) =
  Ok (time_ms, flags, tenant, seq, shard, random).
Proof.
  intros Hms Hf Ht Hq Hs Hr.
  rewrite unpack_pack_masked by assumption.
  rewrite !Z.mod_small by assumption. reflexivity.
Qed.

(** ** Digits and values *)

Lemma len_app {A : Type} (l1 l2 : list A) : len (l1 ++ l2) = len l1 + len l2.
Proof. unfold len. rewrite length_app. lia. Qed.

Lemma len_cons {A : Type} (x : A) (l : list A) : len (x :: l) = 1 + len l.
Proof. unfold len. cbn [length]. lia. Qed.

Lemma len_nonneg {A : Type} (l : list A) : 0 <= len l.
Proof. unfold len. lia. Qed.

Lemma horner_app (w acc : Z) (l1 l2 : list Z) :
  horner w acc (l1 ++ l2) = horner w (horner w acc l1) l2.
Proof. unfold horner. apply fold_left_app. Qed.

Lemma value_snoc (w : Z) (l : list Z) (d : Z) :
  value w (l ++ [d]) = value w l * 2 ^ w + d.
Proof. unfold value. rewrite horner_app. reflexivity. Qed.

Lemma horner_shift (w : Z) (l : list Z) :
  0 <= w -> forall acc, horner w acc l = acc * 2 ^ (w * len l) + value w l.
Proof.
  intros Hw. unfold value. induction l as [| d l IH]; intros acc.
  - cbn. rewrite Z.mul_0_r. cbn. lia.
  - cbn [horner fold_left]. fold (horner w (acc * 2 ^ w + d) l).
    fold (horner w (0 * 2 ^ w + d) l).
    rewrite IH. rewrite (IH (0 * 2 ^ w + d)).
    rewrite len_cons. pose proof (len_nonneg l).
    replace (w * (1 + len l)) with (w + w * len l) by lia.
    rewrite Z.pow_add_r by nia. ring.
Qed.

Lemma value_cons (w d : Z) (l : list Z) :
  0 <= w -> value w (d :: l) = d * 2 ^ (w * len l) + value w l.
Proof.
  intros Hw. unfold value at 1. cbn [horner fold_left].
  fold (horner w (0 * 2 ^ w + d) l). rewrite horner_shift by assumption.
  ring.
Qed.

Lemma value_bound (w : Z) (l : list Z) :
  0 <= w -> digits w l -> 0 <= value w l < 2 ^ (w * len l).
Proof.
  intros Hw Hd. induction Hd as [| d l Hdig Hl IH].
  - cbn. lia.
  - rewrite value_cons by assumption. rewrite len_cons.
    pose proof (len_nonneg l).
    replace (w * (1 + len l)) with (w + w * len l) by lia.
    rewrite Z.pow_add_r by nia.
    assert (0 < 2 ^ (w * len l)) by (apply Z.pow_pos_nonneg; nia).
    nia.
Qed.

(** Two digit strings of one length that write the same number are equal. *)
Lemma value_inj (w : Z) (l1 : list Z) :
  0 <= w -> forall l2, length l1 = length l2 -> digits w l1 -> digits w l2 ->
  value w l1 = value w l2 -> l1 = l2.
Proof.
  intros Hw. induction l1 as [| d1 l1 IH]; intros [| d2 l2] Hlen H1 H2 Hv;
    try discriminate; [reflexivity |].
  inversion H1 as [| ? ? Hd1 Hl1]; subst. inversion H2 as [| ? ? Hd2 Hl2]; subst.
  injection Hlen as Hlen.
  rewrite !value_cons in Hv by assumption.
  assert (Hll : len l1 = len l2) by (unfold len; lia). rewrite Hll in Hv.
  pose proof (value_bound w l1 Hw Hl1) as B1. rewrite Hll in B1.
  pose proof (value_bound w l2 Hw Hl2) as B2.
  assert (d1 = d2) by nia. subst d2.
  f_equal. apply IH; try assumption. lia.
Qed.

(** The lexicographic order of digit strings of one length is the order of
    the numbers they write. *)
Lemma lex_compare_value (w : Z) (l1 : list Z) :
  0 <= w -> forall l2, length l1 = length l2 -> digits w l1 -> digits w l2 ->
  lex_compare l1 l2 = (value w l1 ?= value w l2).
Proof.
  intros Hw. induction l1 as [| d1 l1 IH]; intros [| d2 l2] Hlen H1 H2;
    try discriminate; [reflexivity |].
  inversion H1 as [| ? ? Hd1 Hl1]; subst. inversion H2 as [| ? ? Hd2 Hl2]; subst.
  injection Hlen as Hlen.
  rewrite !value_cons by assumption.
  assert (Hll : len l1 = len l2) by (unfold len; lia). rewrite Hll.
  pose proof (value_bound w l1 Hw Hl1) as B1. rewrite Hll in B1.
  pose proof (value_bound w l2 Hw Hl2) as B2.
  cbn [lex_compare].
  destruct (Z.compare_spec d1 d2) as [E | L | G].
  - subst. rewrite IH by assumption.
    destruct (Z.compare_spec (value w l1) (value w l2));
      symmetry; [apply Z.compare_eq_iff | apply Z.compare_lt_iff | apply Z.compare_gt_iff]; lia.
  - symmetry; apply Z.compare_lt_iff. nia.
  - symmetry; apply Z.compare_gt_iff. nia.
Qed.

(** A strictly increasing relabelling of the digits keeps the order. *)
Lemma lex_compare_map (f : Z -> Z) (P : Z -> Prop) :
  (forall x y, P x -> P y -> (f x ?= f y) = (x ?= y)) ->
  forall l1 l2, Forall P l1 -> Forall P l2 ->
  lex_compare (map f l1) (map f l2) = lex_compare l1 l2.
Proof.
  intros Hf. induction l1 as [| x l1 IH]; intros [| y l2] H1 H2; try reflexivity.
  inversion H1; subst. inversion H2; subst.
  cbn [map lex_compare]. rewrite Hf by assumption.
  rewrite IH by assumption. reflexivity.
Qed.

Lemma lex_compare_app (p a b : list Z) :
  lex_compare (p ++ a) (p ++ b) = lex_compare a b.
Proof.
  induction p as [| x p IH]; [reflexivity |].
  cbn [app lex_compare]. rewrite Z.compare_refl. exact IH.
Qed.

(** ** The accumulator of the Base32 loops *)

(** The 32-bit accumulator holds the low bits of everything read so far;
    a window of [m] bits at [k] is the same window of the whole number. *)
Lemma acc_window (N k m : Z) :
  0 <= k -> 0 <= m -> k + m <= 32 ->
  (N mod 2 ^ 32) >> k .& (2 ^ m - 1) = (N / 2 ^ k) mod 2 ^ m.
Proof.
  intros Hk Hm Hkm. rewrite land_mask, shr_div by assumption.
  apply Z.bits_inj'. intros i Hi.
  destruct (Z.lt_ge_cases i m).
  - rewrite !Z.mod_pow2_bits_low by lia. rewrite !Z.div_pow2_bits by lia.
    rewrite Z.mod_pow2_bits_low by lia. reflexivity.
  - rewrite !Z.mod_pow2_bits_high by lia. reflexivity.
Qed.

Lemma acc_push8 (N b : Z) :
  0 <= b < 2 ^ 8 -> u32 ((N mod 2 ^ 32) << 8) .| b = (N * 2 ^ 8 + b) mod 2 ^ 32.
Proof.
  intros Hb. rewrite shl_mul by lia. unfold u32.
  change (2 ^ 32) with (2 ^ 24 * 2 ^ 8).
  rewrite Z.mul_mod_distr_r by lia. rewrite lor_add by lia.
  change (2 ^ 24 * 2 ^ 8) with (2 ^ 32). change (2 ^ 24) with 16777216.
  change (2 ^ 32) with 4294967296. change (2 ^ 8) with 256 in *.
  Z.div_mod_to_equations. lia.
Qed.

Lemma acc_push5 (N v : Z) :
  0 <= v < 2 ^ 5 -> u32 ((N mod 2 ^ 32) << 5) .| v = (N * 2 ^ 5 + v) mod 2 ^ 32.
Proof.
  intros Hb. rewrite shl_mul by lia. unfold u32.
  change (2 ^ 32) with (2 ^ 27 * 2 ^ 5).
  rewrite Z.mul_mod_distr_r by lia. rewrite lor_add by lia.
  change (2 ^ 27 * 2 ^ 5) with (2 ^ 32). change (2 ^ 27) with 134217728.
  change (2 ^ 32) with 4294967296. change (2 ^ 5) with 32 in *.
  Z.div_mod_to_equations. lia.
Qed.

(** Taking [m] more bits of [N] extends the number read so far by one digit. *)
Lemma window_extend (N k m : Z) :
  0 <= k -> 0 <= m ->
  N / 2 ^ (k + m) * 2 ^ m + (N / 2 ^ k) mod 2 ^ m = N / 2 ^ k.
Proof.
  intros Hk Hm. rewrite <- div_div_pow2 by assumption.
  pose proof (Z.div_mod (N / 2 ^ k) (2 ^ m)). 
  assert (0 < 2 ^ m) by (apply Z.pow_pos_nonneg; lia). lia.
Qed.

(** ** Array cells *)

Lemma set_nth_app (l1 : list Z) (x v : Z) (l2 : list Z) :
  set_nth (length l1) v (l1 ++ x :: l2) = l1 ++ v :: l2.
Proof. induction l1 as [| h t IH]; cbn; [reflexivity | rewrite IH; reflexivity]. Qed.

Lemma filled_length (n : nat) (l : list Z) :
  (length l <= n)%nat -> length (filled n l) = n.
Proof. intros H. unfold filled. rewrite length_app, repeat_length. lia. Qed.

(** Writing cell [length l] of an array filled up to there. *)
Lemma store_filled (n : nat) (l : list Z) (v : Z) :
  (length l < n)%nat ->
  store (filled n l) (len l) v = Ok (filled n (l ++ [v])).
Proof.
  intros Hlt. unfold store.
  assert (Hin : (0 <=? len l) && (len l <? len (filled n l)) = true).
  { apply andb_true_iff. unfold len. rewrite filled_length by lia.
    split; [apply Z.leb_le | apply Z.ltb_lt]; lia. }
  rewrite Hin. f_equal. unfold upd, len, filled. rewrite Nat2Z.id.
  replace (n - length l)%nat with (S (n - length (l ++ [v])))
    by (rewrite length_app; cbn [length]; lia).
  cbn [repeat]. rewrite set_nth_app. rewrite <- app_assoc. reflexivity.
Qed.

Lemma len_map (f : Z -> Z) (l : list Z) : len (map f l) = len l.
Proof. unfold len. rewrite length_map. reflexivity. Qed.

Lemma store_filled_map (n : nat) (f : Z -> Z) (l : list Z) (d : Z) :
  (length (map f l) < n)%nat ->
  store (filled n (map f l)) (len l) (f d) = Ok (filled n (map f (l ++ [d]))).
Proof.
  intros Hlt. rewrite <- (len_map f l), store_filled by assumption.
  rewrite map_app. reflexivity.
Qed.

Lemma filled_full (n : nat) (l : list Z) : length l = n -> filled n l = l.
Proof. intros E. unfold filled. rewrite E, Nat.sub_diag. apply app_nil_r. Qed.

(** ** The encoder *)

Lemma sym_digit_u8 (N k : Z) :
  0 <= k -> k + 5 <= 32 ->
  u8 ((N mod 2 ^ 32) >> k .& 31) = (N / 2 ^ k) mod 2 ^ 5.
Proof.
  intros Hk Hk5. change 31 with (2 ^ 5 - 1). rewrite acc_window by lia.
  apply u8_small. pose proof (mod_pow2_bound (N / 2 ^ k) 5). lia.
Qed.

(** The inner loop of the encoder: it drains [bits] down to [bits mod 5],
    and the symbols written spell the bits of [N] above those left. *)
Lemma encode_emit_spec (N : Z) (fuel : nat) :
  forall (bits : Z) (ds : list Z),
  bits <= Z.of_nat fuel -> 0 <= bits <= 27 ->
  digits 5 ds -> value 5 ds = N / 2 ^ bits ->
  5 * len ds + bits <= 160 ->
  exists ds',
    encode_emit fuel (N mod 2 ^ 32, bits, len ds, filled 32 (map sym ds)) =
      Ok (N mod 2 ^ 32, bits mod 5, len ds', filled 32 (map sym ds'))
    /\ digits 5 ds' /\ value 5 ds' = N / 2 ^ (bits mod 5)
    /\ 5 * len ds' + bits mod 5 = 5 * len ds + bits.
Proof.
  induction fuel as [| fuel IH]; intros bits ds Hfuel Hbits Hds Hval Hcnt.
  - exists ds. assert (bits = 0) by lia. subst bits. cbn [encode_emit].
    repeat split; assumption.
  - cbn [encode_emit]. destruct (Z.leb_spec 5 bits) as [H5 | H5].
    + set (d := (N / 2 ^ (bits - 5)) mod 2 ^ 5).
      rewrite sym_digit_u8 by lia. fold d. fold (sym d).
      assert (Hd : 0 <= d < 2 ^ 5) by (apply mod_pow2_bound; lia).
      assert (Hlen : (length (map sym ds) < 32)%nat).
      { rewrite length_map. unfold len in Hcnt. lia. }
      rewrite store_filled_map by assumption. cbn [bind].
      replace (len ds + 1) with (len (ds ++ [d])) by (rewrite len_app; reflexivity).
      destruct (IH (bits - 5) (ds ++ [d])) as (ds' & Hrun & Hds' & Hval' & Hcnt').
      * lia.
      * lia.
      * apply Forall_app. split; [assumption | constructor; [exact Hd | constructor]].
      * rewrite value_snoc, Hval. unfold d.
        replace bits with ((bits - 5) + 5) at 1 by lia.
        apply window_extend; lia.
      * rewrite len_app. change (len [d]) with 1. lia.
      * assert (Hmod : (bits - 5) mod 5 = bits mod 5).
        { replace bits with ((bits - 5) + 1 * 5) at 2 by lia. rewrite Z.mod_add by lia. reflexivity. }
        rewrite Hmod in *. exists ds'. split; [exact Hrun |].
        split; [assumption |]. split; [assumption |].
        rewrite Hcnt'. rewrite len_app. change (len [d]) with 1. lia.
    + exists ds. rewrite (Z.mod_small bits 5) by lia. repeat split; assumption.
Qed.

(** Shifting in [m] more bits leaves the part above them as it was. *)
Lemma window_shift (N b m k : Z) :
  0 <= m -> 0 <= k -> 0 <= b < 2 ^ m ->
  (N * 2 ^ m + b) / 2 ^ (k + m) = N / 2 ^ k.
Proof.
  intros Hm Hk Hb. rewrite (Z.add_comm k m), <- div_div_pow2 by lia.
  f_equal. assert (0 < 2 ^ m) by (apply Z.pow_pos_nonneg; lia).
  rewrite Z.div_add_l by lia. rewrite Z.div_small by assumption. lia.
Qed.

(** One source byte: the state after it spells [N * 256 + b]. *)
Lemma encode_byte_spec (N b bits : Z) (ds : list Z) :
  0 <= N -> 0 <= b < 2 ^ 8 -> 0 <= bits < 5 ->
  digits 5 ds -> value 5 ds = N / 2 ^ bits ->
  5 * len ds + bits + 8 <= 160 ->
  exists ds' bits',
    encode_byte (N mod 2 ^ 32, bits, len ds, filled 32 (map sym ds)) b =
      Ok ((N * 2 ^ 8 + b) mod 2 ^ 32, bits', len ds', filled 32 (map sym ds'))
    /\ 0 <= bits' < 5 /\ digits 5 ds'
    /\ value 5 ds' = (N * 2 ^ 8 + b) / 2 ^ bits'
    /\ 5 * len ds' + bits' = 5 * len ds + bits + 8.
Proof.
  intros HN Hb Hbits Hds Hval Hcnt. unfold encode_byte.
  rewrite acc_push8 by assumption.
  destruct (encode_emit_spec (N * 2 ^ 8 + b) (Z.to_nat (bits + 8)) (bits + 8) ds)
    as (ds' & Hrun & Hds' & Hval' & Hcnt'); try lia; try assumption.
  - rewrite Hval. symmetry. apply window_shift; lia.
  - exists ds', ((bits + 8) mod 5). split; [exact Hrun |].
    split; [apply Z.mod_pos_bound; lia |].
    split; [assumption |]. split; [assumption | lia].
Qed.

(** The loop over the source: the symbols written spell the bits of all
    bytes read, except the [bits'] last ones, still in the accumulator. *)
Lemma encode_loop_spec (src : list Z) :
  forall (N bits : Z) (ds : list Z),
  is_bytes src -> 0 <= N -> 0 <= bits < 5 ->
  digits 5 ds -> value 5 ds = N / 2 ^ bits ->
  5 * len ds + bits + 8 * len src <= 160 ->
  exists ds' bits',
    encode_loop src (N mod 2 ^ 32, bits, len ds, filled 32 (map sym ds)) =
      Ok (horner 8 N src mod 2 ^ 32, bits', len ds', filled 32 (map sym ds'))
    /\ 0 <= bits' < 5 /\ digits 5 ds'
    /\ value 5 ds' = horner 8 N src / 2 ^ bits'
    /\ 5 * len ds' + bits' = 5 * len ds + bits + 8 * len src.
Proof.
  induction src as [| b src IH]; intros N bits ds Hsrc HN Hbits Hds Hval Hcnt.
  - exists ds, bits. cbn [encode_loop horner fold_left].
    change (len []) with 0. repeat split; try assumption; lia.
  - inversion Hsrc as [| ? ? Hb Hsrc']; subst. unfold is_u8 in Hb.
    rewrite len_cons in *. pose proof (len_nonneg src).
    destruct (encode_byte_spec N b bits ds) as (ds1 & bits1 & Hrun1 & Hb1 & Hds1 & Hval1 & Hcnt1);
      try assumption; try lia.
    destruct (IH (N * 2 ^ 8 + b) bits1 ds1) as (ds2 & bits2 & Hrun2 & Hb2 & Hds2 & Hval2 & Hcnt2);
      try assumption; try lia.
    exists ds2, bits2. cbn [encode_loop]. rewrite Hrun1. cbn [bind].
    split; [exact Hrun2 |].
    split; [assumption |]. split; [assumption |]. split; [exact Hval2 | lia].
Qed.

Lemma sym_in_alpha (d : Z) : 0 <= d < 2 ^ 5 -> In (sym d) alpha.
Proof.
  intros Hd. unfold sym, at_. apply nth_In.
  change (length alpha) with 32%nat. lia.
Qed.

(** [b32encode] on twenty bytes: thirty-two symbols that write, five bits
    each, the number the bytes write. *)
Theorem b32encode_spec (src : list Z) :
  length src = 20%nat -> is_bytes src ->
  exists ds,
    b32encode src = Ok (map sym ds)
    /\ length ds = 32%nat /\ digits 5 ds /\ value 5 ds = value 8 src.
Proof.
  intros Hlen Hsrc. unfold b32encode.
  replace (len src =? 20) with true by (unfold len; rewrite Hlen; reflexivity).
  cbn [negb].
  destruct (encode_loop_spec src 0 0 []) as (ds & bits & Hrun & Hb & Hds & Hval & Hcnt);
    try assumption; try lia.
  - constructor.
  - reflexivity.
  - unfold len. rewrite Hlen. cbn. lia.
  - change (0 mod 2 ^ 32) with 0 in Hrun. change (len []) with 0 in Hrun.
    change (filled 32 (map sym [])) with (repeat 0 32) in Hrun.
    rewrite Hrun. cbn [bind].
    assert (Hl : len src = 20) by (unfold len; rewrite Hlen; reflexivity).
    rewrite Hl in Hcnt. change (len []) with 0 in Hcnt.
    assert (bits = 0) by lia. subst bits.
    assert (Hl32 : length ds = 32%nat) by (unfold len in Hcnt; lia).
    cbn [Z.eqb negb]. rewrite filled_full by (rewrite length_map; exact Hl32).
    exists ds. rewrite Z.pow_0_r, Z.div_1_r in Hval. repeat split; assumption.
Qed.

(** ** The decoder *)

Lemma byte_digit_u8 (M k : Z) :
  0 <= k -> k + 8 <= 32 ->
  u8 ((M mod 2 ^ 32) >> k .& 255) = (M / 2 ^ k) mod 2 ^ 8.
Proof.
  intros Hk Hk8. change 255 with (2 ^ 8 - 1). rewrite acc_window by lia.
  apply u8_small. apply mod_pow2_bound; lia.
Qed.

(** The loop of [b32decode] on accepted characters: the bytes written spell
    the bits of all symbols read, except the [bits'] last ones. *)
Lemma decode_loop_spec (s : list Z) :
  forall (i M bits : Z) (es : list Z),
  Forall accepted s -> 0 <= M -> 0 <= bits < 8 ->
  digits 8 es -> value 8 es = M / 2 ^ bits ->
  8 * len es + bits + 5 * len s <= 160 ->
  exists es' bits',
    decode_loop s i (M mod 2 ^ 32, bits, len es, filled 20 es) =
      Ok (horner 5 M (map alphaRev s) mod 2 ^ 32, bits', len es', filled 20 es')
    /\ 0 <= bits' < 8 /\ digits 8 es'
    /\ value 8 es' = horner 5 M (map alphaRev s) / 2 ^ bits'
    /\ 8 * len es' + bits' = 8 * len es + bits + 5 * len s.
Proof.
  induction s as [| c s IH]; intros i M bits es Hs HM Hbits Hes Hval Hcnt.
  - exists es, bits. cbn [decode_loop map horner fold_left].
    change (len []) with 0. repeat split; try assumption; lia.
  - inversion Hs as [| ? ? Hc Hs']; subst. unfold accepted in Hc.
    rewrite len_cons in *. pose proof (len_nonneg s). pose proof (len_nonneg es).
    cbn [decode_loop map horner fold_left].
    fold (horner 5 (M * 2 ^ 5 + alphaRev c) (map alphaRev s)).
    replace (alphaRev c =? 255) with false by (symmetry; apply Z.eqb_neq; lia).
    rewrite acc_push5 by assumption.
    set (M1 := M * 2 ^ 5 + alphaRev c).
    assert (HM1 : 0 <= M1) by (unfold M1; lia).
    destruct (Z.leb_spec 8 (bits + 5)) as [H8 | H8].
    + set (e := (M1 / 2 ^ (bits + 5 - 8)) mod 2 ^ 8).
      rewrite byte_digit_u8 by lia. fold e.
      assert (He : 0 <= e < 2 ^ 8) by (apply mod_pow2_bound; lia).
      rewrite store_filled by (unfold len in *; lia). cbn [bind].
      replace (len es + 1) with (len (es ++ [e])) by (rewrite len_app; reflexivity).
      destruct (IH (i + 1) M1 (bits + 5 - 8) (es ++ [e]))
        as (es' & bits' & Hrun & Hb' & Hes' & Hval' & Hcnt'); try assumption; try lia.
      * apply Forall_app. split; [assumption | constructor; [exact He | constructor]].
      * rewrite value_snoc, Hval. unfold e.
        rewrite <- (window_shift M (alphaRev c) 5 bits) by lia. fold M1.
        replace (bits + 5) with ((bits + 5 - 8) + 8) at 1 by lia.
        apply window_extend; lia.
      * rewrite len_app. change (len [e]) with 1. lia.
      * exists es', bits'. split; [exact Hrun |].
        split; [assumption |]. split; [assumption |]. split; [exact Hval' |].
        rewrite Hcnt', len_app. change (len [e]) with 1. lia.
    + destruct (IH (i + 1) M1 (bits + 5) es)
        as (es' & bits' & Hrun & Hb' & Hes' & Hval' & Hcnt'); try assumption; try lia.
      * rewrite Hval. symmetry. apply window_shift; lia.
      * exists es', bits'. split; [exact Hrun |].
        split; [assumption |]. split; [assumption |]. split; [exact Hval' | lia].
Qed.

(** [b32decode] on thirty-two accepted characters: the twenty bytes that
    write the number the symbols write. *)
Theorem b32decode_spec (s : list Z) :
  length s = 32%nat -> Forall accepted s ->
  exists es,
    b32decode s = Ok es
    /\ length es = 20%nat /\ digits 8 es /\ value 8 es = value 5 (map alphaRev s).
Proof.
  intros Hlen Hs. unfold b32decode.
  replace (len s =? 32) with true by (unfold len; rewrite Hlen; reflexivity).
  cbn [negb].
  destruct (decode_loop_spec s 0 0 0 []) as (es & bits & Hrun & Hb & Hes & Hval & Hcnt);
    try assumption; try lia.
  - constructor.
  - reflexivity.
  - unfold len. rewrite Hlen. cbn. lia.
  - change (0 mod 2 ^ 32) with 0 in Hrun. change (len []) with 0 in Hrun.
    change (filled 20 []) with (repeat 0 20) in Hrun.
    rewrite Hrun. cbn [bind].
    assert (Hl : len s = 32) by (unfold len; rewrite Hlen; reflexivity).
    rewrite Hl in Hcnt. change (len []) with 0 in Hcnt.
    assert (bits = 0) by lia. subst bits.
    assert (Hl20 : length es = 20%nat) by (unfold len in Hcnt; lia).
    replace (len es =? 20) with true by (unfold len; rewrite Hl20; reflexivity).
    cbn [Z.eqb negb orb]. rewrite filled_full by exact Hl20.
    exists es. rewrite Z.pow_0_r, Z.div_1_r in Hval. repeat split; assumption.
Qed.

(** ** Alphabet *)

(** [alphaRev] inverts [alpha]. *)
Lemma alphaRev_sym (d : Z) : 0 <= d < 2 ^ 5 -> alphaRev (sym d) = d.
Proof.
  intros Hd.
  assert (Hall : forallb (fun n => alphaRev (sym (Z.of_nat n)) =? Z.of_nat n) (seq 0 32) = true)
    by (vm_compute; reflexivity).
  rewrite forallb_forall in Hall.
  specialize (Hall (Z.to_nat d)). rewrite Z2Nat.id in Hall by lia.
  apply Z.eqb_eq, Hall, in_seq. lia.
Qed.

Lemma sym_accepted (d : Z) : 0 <= d < 2 ^ 5 -> accepted (sym d).
Proof. intros Hd. unfold accepted. rewrite alphaRev_sym; assumption. Qed.

Lemma map_alphaRev_sym (ds : list Z) : digits 5 ds -> map alphaRev (map sym ds) = ds.
Proof.
  intros H. induction H as [| d ds Hd _ IH]; [reflexivity |].
  cbn [map]. rewrite alphaRev_sym, IH by assumption. reflexivity.
Qed.

Lemma is_bytes_digits (l : list Z) : is_bytes l <-> digits 8 l.
Proof. reflexivity. Qed.

(** Encoding then decoding twenty bytes gives them back. *)
Lemma b32decode_b32encode (b : list Z) :
  length b = 20%nat -> is_bytes b ->
  exists s,
    b32encode b = Ok s
    /\ length s = 32%nat
    /\ Forall (fun c => In c alpha) s
    /\ b32decode s = Ok b.
Proof.
  intros Hlen Hb.
  destruct (b32encode_spec b Hlen Hb) as (ds & Henc & Hl & Hds & Hval).
  exists (map sym ds). split; [exact Henc |].
  split; [rewrite length_map; exact Hl |].
  split.
  - apply Forall_map. eapply Forall_impl; [| exact Hds].
    intros d Hd. apply sym_in_alpha; exact Hd.
  - destruct (b32decode_spec (map sym ds)) as (es & Hdec & Hl' & Hes & Hval').
    + rewrite length_map; exact Hl.
    + apply Forall_map. eapply Forall_impl; [| exact Hds].
      intros d Hd. apply sym_accepted; exact Hd.
    + rewrite Hdec. f_equal.
      apply (value_inj 8); try assumption; try lia.
      rewrite Hval', map_alphaRev_sym, Hval by assumption. reflexivity.
Qed.

(** C3. For every array [b] of twenty bytes, [b32encode b] is thirty-two
    characters of the lowercase alphabet, and [b32decode] of it is [b]. *)
Theorem b32_roundtrip (b : list Z) :
  length b = 20%nat -> is_bytes b ->
  exists s,
    b32encode b = Ok s
    /\ length s = 32%nat
    /\ Forall (fun c => In c alpha) s
    /\ b32decode s = Ok b.
Proof. exact (b32decode_b32encode b). Qed.

(** ** Order *)

Lemma value_20 (b0 b1 b2 b3 b4 b5 b6 b7 b8 b9 b10 b11 b12 b13 b14 b15 b16 b17 b18 b19 : Z) :
  value 8 [b0; b1; b2; b3; b4; b5; b6; b7; b8; b9; b10; b11; b12; b13; b14; b15;
           b16; b17; b18; b19] =
  b0 * 2 ^ 152 + b1 * 2 ^ 144 + b2 * 2 ^ 136 + b3 * 2 ^ 128 + b4 * 2 ^ 120
  + b5 * 2 ^ 112 + b6 * 2 ^ 104 + b7 * 2 ^ 96 + b8 * 2 ^ 88 + b9 * 2 ^ 80
  + b10 * 2 ^ 72 + b11 * 2 ^ 64 + b12 * 2 ^ 56 + b13 * 2 ^ 48 + b14 * 2 ^ 40
  + b15 * 2 ^ 32 + b16 * 2 ^ 24 + b17 * 2 ^ 16 + b18 * 2 ^ 8 + b19.
Proof. unfold value, horner. cbn [fold_left]. ring. Qed.

(** The bytes [pack] writes are the base-256 digits of [body_number]. *)
Lemma pack_value (ms flags tenant seq12 shard random60 : Z) :
  is_u8 flags -> is_u16 tenant -> is_u16 shard ->
  value 8 (pack ms flags tenant seq12 shard random60) =
  body_number (ms mod 2 ^ 48, flags, tenant, seq12 mod 2 ^ 12, shard, random60 mod 2 ^ 60).
Proof.
  intros Hf Ht Hs. unfold is_u8, is_u16 in *.
  rewrite pack_bits, value_20. unfold body_number.
  pose proof (join_ms ms). pose proof (join_u16 tenant). pose proof (join_seq seq12).
  pose proof (join_shard shard). pose proof (join_random random60).
  rewrite (Z.mod_small tenant) in * by assumption.
  rewrite (Z.mod_small shard) in * by assumption.
  lia.
Qed.

(** Comparing [hi * B + lo] compares [hi], then [lo]. *)
Lemma compare_radix (B hi1 lo1 hi2 lo2 : Z) :
  0 <= lo1 < B -> 0 <= lo2 < B ->
  (hi1 * B + lo1 ?= hi2 * B + lo2) = then_compare (hi1 ?= hi2) (lo1 ?= lo2).
Proof.
  intros H1 H2. unfold then_compare.
  destruct (Z.compare_spec hi1 hi2) as [E | L | G].
  - subst. destruct (Z.compare_spec lo1 lo2);
      [apply Z.compare_eq_iff | apply Z.compare_lt_iff | apply Z.compare_gt_iff]; lia.
  - apply Z.compare_lt_iff. nia.
  - apply Z.compare_gt_iff. nia.
Qed.

(** The order of the body numbers is the order of the tuples. *)
Lemma body_number_compare (f g : fields) :
  fields_in_range f -> fields_in_range g ->
  (body_number f ?= body_number g) = fields_compare f g.
Proof.
  destruct f as [[[[[t1 fl1] te1] s1] sh1] r1].
  destruct g as [[[[[t2 fl2] te2] s2] sh2] r2].
  unfold fields_in_range, body_number, fields_compare.
  intros (Ht1 & Hfl1 & Hte1 & Hs1 & Hsh1 & Hr1) (Ht2 & Hfl2 & Hte2 & Hs2 & Hsh2 & Hr2).
  rewrite <- (compare_radix (2 ^ 60) sh1 r1 sh2 r2) by assumption.
  rewrite <- (compare_radix (2 ^ 76) s1 _ s2 _) by lia.
  rewrite <- (compare_radix (2 ^ 88) te1 _ te2 _) by lia.
  rewrite <- (compare_radix (2 ^ 104) fl1 _ fl2 _) by lia.
  rewrite <- (compare_radix (2 ^ 112) t1 _ t2 _) by lia.
  f_equal; lia.
Qed.

(** Byte-wise comparison of two packed bodies is the comparison of their
    field tuples. *)
Lemma pack_compare (f g : fields) :
  fields_in_range f -> fields_in_range g ->
  lex_compare (pack_fields f) (pack_fields g) = fields_compare f g.
Proof.
  intros Hf Hg. rewrite <- body_number_compare by assumption.
  destruct f as [[[[[t1 fl1] te1] s1] sh1] r1].
  destruct g as [[[[[t2 fl2] te2] s2] sh2] r2].
  destruct Hf as (Ht1 & Hfl1 & Hte1 & Hs1 & Hsh1 & Hr1).
  destruct Hg as (Ht2 & Hfl2 & Hte2 & Hs2 & Hsh2 & Hr2).
  unfold pack_fields.
  rewrite (lex_compare_value 8); try lia; try reflexivity;
    try (apply is_bytes_digits, pack_is_bytes; exact Hfl1 || exact Hfl2).
  rewrite !pack_value by assumption.
  rewrite !Z.mod_small by assumption. reflexivity.
Qed.

(** The alphabet is in increasing order. *)
Lemma sym_compare (x y : Z) :
  0 <= x < 2 ^ 5 -> 0 <= y < 2 ^ 5 -> (sym x ?= sym y) = (x ?= y).
Proof.
  intros Hx Hy.
  assert (Hall : forallb (fun a => forallb (fun b =>
            match sym (Z.of_nat a) ?= sym (Z.of_nat b), Z.of_nat a ?= Z.of_nat b with
            | Eq, Eq | Lt, Lt | Gt, Gt => true
            | _, _ => false
            end) (seq 0 32)) (seq 0 32) = true) by (vm_compute; reflexivity).
  rewrite forallb_forall in Hall.
  specialize (Hall (Z.to_nat x)). rewrite forallb_forall in Hall.
  specialize (Hall ltac:(apply in_seq; lia) (Z.to_nat y) ltac:(apply in_seq; lia)).
  rewrite !Z2Nat.id in Hall by lia.
  destruct (sym x ?= sym y), (x ?= y); try reflexivity; discriminate.
Qed.

(** Encoding keeps the order: the payloads of two bodies compare as the
    bodies do. *)
Lemma b32encode_compare (b1 b2 : list Z) (s1 s2 : gostring) :
  length b1 = 20%nat -> is_bytes b1 -> length b2 = 20%nat -> is_bytes b2 ->
  b32encode b1 = Ok s1 -> b32encode b2 = Ok s2 ->
  lex_compare s1 s2 = lex_compare b1 b2.
Proof.
  intros Hl1 Hb1 Hl2 Hb2 He1 He2.
  destruct (b32encode_spec b1 Hl1 Hb1) as (ds1 & Henc1 & Hn1 & Hds1 & Hv1).
  destruct (b32encode_spec b2 Hl2 Hb2) as (ds2 & Henc2 & Hn2 & Hds2 & Hv2).
  rewrite Henc1 in He1. rewrite Henc2 in He2.
  injection He1 as <-. injection He2 as <-.
  rewrite (lex_compare_map sym (fun d => 0 <= d < 2 ^ 5)); try assumption.
  2:{ intros x y Hx Hy. apply sym_compare; assumption. }
  rewrite (lex_compare_value 5), (lex_compare_value 8); try assumption; try lia.
  rewrite Hv1, Hv2. reflexivity.
Qed.

(** ** Strings *)

Lemma firstn_len_app (p rest : gostring) : slice_to (p ++ rest) (len p) = p.
Proof.
  unfold slice_to, len. rewrite Nat2Z.id.
  rewrite firstn_app, Nat.sub_diag, firstn_all. cbn. apply app_nil_r.
Qed.

Lemma skipn_len_app (p : gostring) (c : Z) (rest : gostring) :
  slice_from (p ++ c :: rest) (len p + 1) = rest.
Proof.
  unfold slice_from, len.
  replace (Z.to_nat (Z.of_nat (length p) + 1)) with (length p + 1)%nat by lia.
  rewrite skipn_app. rewrite skipn_all2 by lia.
  replace (length p + 1 - length p)%nat with 1%nat by lia. reflexivity.
Qed.

Lemma IndexByte_from_absent (s : gostring) (c : Z) :
  forall i, ~ In c s -> IndexByte_from s c i = -1.
Proof.
  induction s as [| b s IH]; intros i Hin; [reflexivity |].
  cbn [IndexByte_from]. destruct (Z.eqb_spec b c) as [E | N].
  - exfalso. apply Hin. left. exact E.
  - apply IH. intros H. apply Hin. right. exact H.
Qed.

Lemma IndexByte_from_app (p : gostring) (c : Z) (rest : gostring) :
  forall i, ~ In c p -> IndexByte_from (p ++ c :: rest) c i = i + len p.
Proof.
  induction p as [| b p IH]; intros i Hin.
  - cbn [app IndexByte_from]. rewrite Z.eqb_refl. change (len []) with 0. lia.
  - cbn [app IndexByte_from]. destruct (Z.eqb_spec b c) as [E | N].
    + exfalso. apply Hin. left. exact E.
    + rewrite IH by (intros H; apply Hin; right; exact H).
      rewrite len_cons. lia.
Qed.

Lemma IndexByte_app (p : gostring) (c : Z) (rest : gostring) :
  ~ In c p -> IndexByte (p ++ c :: rest) c = len p.
Proof. intros H. unfold IndexByte. rewrite IndexByte_from_app by assumption. lia. Qed.

Lemma IndexByte_absent (s : gostring) (c : Z) : ~ In c s -> IndexByte s c = -1.
Proof. intros H. apply IndexByte_from_absent. exact H. Qed.

Lemma LastIndexByte_absent (s : gostring) (c : Z) : ~ In c s -> LastIndexByte s c = -1.
Proof.
  intros H. unfold LastIndexByte. rewrite IndexByte_absent; [reflexivity |].
  intros Hin. apply H. apply in_rev. exact Hin.
Qed.

Lemma LastIndexByte_app (p : gostring) (c : Z) (rest : gostring) :
  ~ In c rest -> LastIndexByte (p ++ c :: rest) c = len p.
Proof.
  intros H. unfold LastIndexByte.
  rewrite rev_app_distr. cbn [rev]. rewrite <- app_assoc. cbn [app].
  rewrite IndexByte_app by (intros Hin; apply H; apply in_rev; exact Hin).
  pose proof (len_nonneg (rev rest)).
  replace (len (rev rest) <? 0) with false by (symmetry; apply Z.ltb_ge; lia).
  rewrite len_app, len_cons. unfold len. rewrite length_rev. lia.
Qed.

(** [TrimSpace] leaves alone a string whose ends are ASCII and no space. *)
Lemma skip_asciiSpace_stop (c : Z) (s : gostring) :
  c < RuneSelf -> asciiSpace c = false -> skip_asciiSpace (c :: s) = (false, c :: s).
Proof.
  intros Hc Hs. cbn [skip_asciiSpace].
  replace (RuneSelf <=? c) with false by (symmetry; apply Z.leb_gt; exact Hc).
  rewrite Hs. reflexivity.
Qed.

Lemma TrimSpace_id (s : gostring) :
  s <> [] -> Forall no_space s -> TrimSpace s = s.
Proof.
  intros Hne Hall. unfold TrimSpace.
  destruct s as [| c t]; [contradiction |].
  inversion Hall as [| ? ? [Hc Hs] Ht]; subst.
  rewrite skip_asciiSpace_stop by assumption.
  assert (Hrev : Forall no_space (rev (c :: t)))
    by (apply Forall_rev; exact Hall).
  destruct (rev (c :: t)) as [| c' t'] eqn:E.
  - apply (f_equal (@length Z)) in E. rewrite length_rev in E. discriminate.
  - inversion Hrev as [| ? ? [Hc' Hs'] _]; subst.
    rewrite skip_asciiSpace_stop by assumption.
    rewrite <- E. apply rev_involutive.
Qed.

(** Characters of identifiers are ASCII, no space, no capital. *)
Lemma is_word_plain (c : Z) :
  is_word c = true ->
  c < RuneSelf /\ asciiSpace c = false /\ is_upper c = false /\ c <> chr "-".
Proof.
  unfold is_word, is_lower_or_digit, is_lower, is_digit, asciiSpace, is_upper, RuneSelf.
  change (chr "a") with 97; change (chr "z") with 122; change (chr "0") with 48;
    change (chr "9") with 57; change (chr "_") with 95; change (chr "A") with 65;
    change (chr "Z") with 90; change (chr "-") with 45.
  intros H. repeat split; try lia;
    repeat match goal with
    | |- _ = false => apply not_true_is_false; intros Hx
    | Hx : _ && _ = true |- _ => apply andb_true_iff in Hx; destruct Hx
    | Hx : _ || _ = true |- _ => apply orb_true_iff in Hx; destruct Hx
    | Hx : (_ <=? _) = true |- _ => apply Z.leb_le in Hx
    | Hx : (_ =? _) = true |- _ => apply Z.eqb_eq in Hx
    end; lia.
Qed.

Lemma sym_is_word (d : Z) : 0 <= d < 2 ^ 5 -> is_lower_or_digit (sym d) = true.
Proof.
  intros Hd.
  assert (Hall : forallb (fun n => is_lower_or_digit (sym (Z.of_nat n))) (seq 0 32) = true)
    by (vm_compute; reflexivity).
  rewrite forallb_forall in Hall.
  specialize (Hall (Z.to_nat d)). rewrite Z2Nat.id in Hall by lia.
  apply Hall, in_seq. lia.
Qed.

Lemma lower_or_digit_word (c : Z) : is_lower_or_digit c = true -> is_word c = true.
Proof. intros H. unfold is_word. rewrite H. reflexivity. Qed.

Lemma lower_or_digit_not_sep (c : Z) : is_lower_or_digit c = true -> c <> chr "_".
Proof.
  unfold is_lower_or_digit, is_lower, is_digit.
  change (chr "a") with 97; change (chr "z") with 122; change (chr "0") with 48;
    change (chr "9") with 57; change (chr "_") with 95.
  intros H.
  repeat match goal with
    | Hx : _ && _ = true |- _ => apply andb_true_iff in Hx; destruct Hx
    | Hx : _ || _ = true |- _ => apply orb_true_iff in Hx; destruct Hx
    | Hx : (_ <=? _) = true |- _ => apply Z.leb_le in Hx
    end; lia.
Qed.

(** What the prefix pattern says about a string it matches. *)
Lemma prefix_chars (p : gostring) :
  prefixRe_MatchString p = true ->
  p <> [] /\ Forall (fun c => is_lower_or_digit c = true) p /\ 2 <= len p <= 31.
Proof.
  unfold prefixRe_MatchString. destruct p as [| c rest]; [discriminate |].
  intros H. apply andb_true_iff in H. destruct H as [H H30].
  apply andb_true_iff in H. destruct H as [H H1].
  apply andb_true_iff in H. destruct H as [Hc Hrest].
  apply Z.leb_le in H30, H1. rewrite forallb_forall in Hrest.
  split; [discriminate |]. split.
  - constructor.
    + unfold is_lower_or_digit. rewrite Hc. reflexivity.
    + apply Forall_forall. exact Hrest.
  - rewrite len_cons. lia.
Qed.

(** ** Canonical base strings *)

Lemma payloadTo5bits_sym (ds : list Z) :
  digits 5 ds -> payloadTo5bits (map sym ds) = Ok ds.
Proof.
  intros H. induction H as [| d ds Hd _ IH]; [reflexivity |].
  cbn [map payloadTo5bits]. rewrite alphaRev_sym by assumption.
  replace (d =? 255) with false by (symmetry; apply Z.eqb_neq; lia).
  rewrite IH. reflexivity.
Qed.

Lemma mask31 (x : Z) : 0 <= u8 (x .& 31) < 2 ^ 5.
Proof.
  change 31 with (2 ^ 5 - 1). rewrite land_mask by lia.
  pose proof (mod_pow2_bound x 5). rewrite u8_small; lia.
Qed.

Lemma canonical_base_word (p : gostring) (ds : list Z) :
  prefixRe_MatchString p = true -> digits 5 ds ->
  Forall (fun c => is_word c = true) (canonical_base p ds).
Proof.
  intros Hp Hds. destruct (prefix_chars p Hp) as (_ & Hchars & _).
  unfold canonical_base. apply Forall_app. split.
  - eapply Forall_impl; [| exact Hchars]. intros c. apply lower_or_digit_word.
  - apply Forall_app. split.
    + constructor; [reflexivity | constructor].
    + apply Forall_map. eapply Forall_impl; [| exact Hds].
      intros d Hd. apply lower_or_digit_word, sym_is_word. exact Hd.
Qed.

Lemma prefix_no_sep (p : gostring) :
  prefixRe_MatchString p = true -> ~ In (chr "_") p.
Proof.
  intros Hp Hin. destruct (prefix_chars p Hp) as (_ & Hchars & _).
  rewrite Forall_forall in Hchars.
  apply (lower_or_digit_not_sep _ (Hchars _ Hin)). reflexivity.
Qed.

Lemma IndexByte_canonical (p : gostring) (rest : gostring) :
  prefixRe_MatchString p = true -> IndexByte (p ++ str "_" ++ rest) (chr "_") = len p.
Proof. intros Hp. apply (IndexByte_app p (chr "_") rest), prefix_no_sep, Hp. Qed.

Lemma sym_ascii (d : Z) : 0 <= d < 2 ^ 5 -> 0 <= sym d < RuneSelf.
Proof.
  intros Hd. pose proof (sym_is_word d Hd) as Hw.
  apply lower_or_digit_word, is_word_plain in Hw.
  split; [| tauto].
  assert (Hall : forallb (fun n => 0 <=? sym (Z.of_nat n)) (seq 0 32) = true)
    by (vm_compute; reflexivity).
  rewrite forallb_forall in Hall.
  specialize (Hall (Z.to_nat d)). rewrite Z2Nat.id in Hall by lia.
  apply Z.leb_le, Hall, in_seq. lia.
Qed.

Lemma word_no_dash (s : gostring) :
  Forall (fun c => is_word c = true) s -> ~ In (chr "-") s.
Proof.
  intros H Hin. rewrite Forall_forall in H.
  destruct (is_word_plain _ (H _ Hin)) as (_ & _ & _ & Hne). apply Hne. reflexivity.
Qed.

Lemma check_symbols_accepted (s : gostring) :
  forall j, Forall accepted s -> check_symbols s j = Ok tt.
Proof.
  induction s as [| c s IH]; intros j H; [reflexivity |].
  inversion H as [| ? ? Hc Hs]; subst. unfold accepted in Hc.
  cbn [check_symbols].
  replace (alphaRev c =? 255) with false by (symmetry; apply Z.eqb_neq; lia).
  apply IH. exact Hs.
Qed.

Lemma symbols_accepted (ds : list Z) : digits 5 ds -> Forall accepted (map sym ds).
Proof.
  intros H. apply Forall_map. eapply Forall_impl; [| exact H].
  intros d Hd. apply sym_accepted. exact Hd.
Qed.

Lemma symbols_word (ds : list Z) :
  digits 5 ds -> Forall (fun c => is_word c = true) (map sym ds).
Proof.
  intros H. apply Forall_map. eapply Forall_impl; [| exact H].
  intros d Hd. apply lower_or_digit_word, sym_is_word. exact Hd.
Qed.

Lemma word_no_space (s : gostring) :
  Forall (fun c => is_word c = true) s -> Forall no_space s.
Proof.
  intros H. eapply Forall_impl; [| exact H].
  intros c Hc. destruct (is_word_plain c Hc) as (H1 & H2 & _). split; assumption.
Qed.

(** The payload [b32encode] returns decodes to the body it was made from. *)
Lemma b32decode_encoded (body : list Z) (ds : list Z) :
  length body = 20%nat -> is_bytes body ->
  b32encode body = Ok (map sym ds) -> b32decode (map sym ds) = Ok body.
Proof.
  intros Hl Hb Henc.
  destruct (b32decode_b32encode body Hl Hb) as (s & Henc' & _ & _ & Hdec).
  rewrite Henc in Henc'. injection Henc' as <-. exact Hdec.
Qed.

(** ** Integer conversions in range *)

Lemma i64_small (x : Z) : - 2 ^ 63 <= x < 2 ^ 63 -> i64 x = x.
Proof. intros H. unfold i64. rewrite Z.mod_small by lia. lia. Qed.

Lemma mask12 (x : Z) : x .& 0x0FFF = x mod 2 ^ 12.
Proof. change 0x0FFF with (2 ^ 12 - 1). apply land_mask. lia. Qed.

Lemma mask60 (x : Z) : x .& ((1 << 60) - 1) = x mod 2 ^ 60.
Proof. change ((1 << 60) - 1) with (2 ^ 60 - 1). apply land_mask. lia. Qed.

Lemma fields_of_in_range (c : Components) :
  components_in_range c -> fields_in_range (fields_of c).
Proof.
  unfold components_in_range, fields_in_range, fields_of, is_u8, is_u16.
  intros (Ht & Hfl & Hte & Hsq & Hsh & Hrn).
  pose proof (mod_pow2_bound (c_Seq c) 12). pose proof (mod_pow2_bound (c_Random60 c) 60).
  repeat split; lia.
Qed.

(** ** Sequence step *)

Lemma seq_step_spec (st : seq_state) (ms : Z) :
  seq_step st ms = (sequence_step st ms, snd (sequence_step st ms)).
Proof.
  destruct st as [lastMs seq12]. unfold seq_step, sequence_step.
  destruct (ms =? lastMs); [| reflexivity].
  assert (E : u16 (seq12 + 1) .& 0x0FFF = (seq12 + 1) mod 4096).
  { rewrite mask12. unfold u16.
    change (2 ^ 16) with (2 ^ 12 * 2 ^ 4). rewrite Z.rem_mul_r by lia.
    rewrite (Z.mul_comm (2 ^ 12)), Z.mod_add by lia.
    rewrite Z.mod_mod by lia. reflexivity. }
  rewrite E. reflexivity.
Qed.

Lemma sequence_step_range (st : Z * Z) (ms : Z) :
  0 <= snd (sequence_step st ms) < 2 ^ 12.
Proof.
  destruct st as [lastMs counter]. unfold sequence_step.
  destruct (ms =? lastMs); cbn [snd]; [apply Z.mod_pos_bound |]; lia.
Qed.

(** ** The decoder reads characters through [alphaRev] only *)

Lemma alphaRev_u_for_v (c c' : Z) : u_for_v c c' -> alphaRev c' = alphaRev c.
Proof. intros [-> | [-> [-> | ->]]]; reflexivity. Qed.

Lemma decode_loop_u_for_v (s s' : gostring) :
  Forall2 u_for_v s s' ->
  forall i st, decode_loop s' i st = decode_loop s i st.
Proof.
  intros H. induction H as [| c c' s s' Hc _ IH]; intros i st; [reflexivity |].
  cbn [decode_loop]. destruct st as [[[acc bits] j] out].
  rewrite (alphaRev_u_for_v c c' Hc).
  destruct (alphaRev c =? 255); [reflexivity |].
  destruct (8 <=? bits + 5).
  - destruct (store out j _); cbn [bind]; [apply IH | reflexivity | reflexivity].
  - apply IH.
Qed.

Lemma check_symbols_u_for_v (s s' : gostring) :
  Forall2 u_for_v s s' ->
  forall j, check_symbols s' j = check_symbols s j.
Proof.
  intros H. induction H as [| c c' s s' Hc _ IH]; intros j; [reflexivity |].
  cbn [check_symbols]. rewrite (alphaRev_u_for_v c c' Hc).
  destruct (alphaRev c =? 255); [reflexivity | apply IH].
Qed.

(** An invalid-symbol error of the decoder names a character that
    [alphaRev] maps to [0xFF]. *)
Lemma decode_loop_error_at (s : gostring) :
  forall i st k,
  decode_loop s i st = Err (ErrInvalidBase32At k) ->
  i <= k < i + len s /\ alphaRev (at_ s (k - i)) = 255.
Proof.
  induction s as [| c s IH]; intros i st k H; [discriminate H |].
  cbn [decode_loop] in H. destruct st as [[[acc bits] j] out].
  rewrite len_cons. pose proof (len_nonneg s).
  destruct (Z.eqb_spec (alphaRev c) 255) as [E | N].
  - injection H as <-. split; [lia |]. rewrite Z.sub_diag. exact E.
  - assert (Hrec : exists st', decode_loop s (i + 1) st' = Err (ErrInvalidBase32At k)).
    { destruct (8 <=? bits + 5).
      - unfold store in H.
        destruct ((0 <=? j) && (j <? len out)); cbn [bind] in H;
          [eexists; exact H | discriminate H].
      - eexists; exact H. }
    destruct Hrec as (st' & Hrec). destruct (IH _ _ _ Hrec) as (Hk & Ha).
    split; [lia |]. unfold at_ in *.
    replace (Z.to_nat (k - i)) with (S (Z.to_nat (k - (i + 1)))) by lia.
    exact Ha.
Qed.

Lemma check_symbols_error_at (s : gostring) :
  forall j k,
  check_symbols s j = Err (ErrInvalidBase32Pos k) ->
  j <= k < j + len s /\ alphaRev (at_ s (k - j)) = 255.
Proof.
  induction s as [| c s IH]; intros j k H; [discriminate H |].
  cbn [check_symbols] in H. rewrite len_cons. pose proof (len_nonneg s).
  destruct (Z.eqb_spec (alphaRev c) 255) as [E | N].
  - injection H as <-. split; [lia |]. rewrite Z.sub_diag. exact E.
  - destruct (IH _ _ H) as (Hk & Ha). split; [lia |]. unfold at_ in *.
    replace (Z.to_nat (k - j)) with (S (Z.to_nat (k - (j + 1)))) by lia.
    exact Ha.
Qed.

(** C10, as the code has it.  [init] gives [u] and [U] the value of [v],
    which is 27.  So a payload in which [u] or [U] stands for some [v]
    decodes as the payload itself, in [b32decode] and in the symbol check
    of [Parse]; and no invalid-symbol error of either names a position that
    holds [u] or [U]. *)
Theorem u_decodes_as_v (p p' : gostring) :
  length p = 32%nat -> Forall2 u_for_v p p' ->
  alphaRev (chr "u") = alphaRev (chr "v")
  /\ alphaRev (chr "U") = alphaRev (chr "v")
  /\ alphaRev (chr "v") = 27
  /\ b32decode p' = b32decode p
  /\ check_symbols p' 0 = check_symbols p 0
  /\ (forall k, b32decode p' = Err (ErrInvalidBase32At k) ->
      at_ p' k <> chr "u" /\ at_ p' k <> chr "U")
  /\ (forall k, check_symbols p' 0 = Err (ErrInvalidBase32Pos k) ->
      at_ p' k <> chr "u" /\ at_ p' k <> chr "U").
Proof.
  intros Hlen Huv.
  split; [reflexivity |]. split; [reflexivity |]. split; [reflexivity |].
  split.
  { unfold b32decode.
    replace (len p') with (len p)
      by (unfold len; rewrite (Forall2_length Huv); reflexivity).
    destruct (negb (len p =? 32)); [reflexivity |].
    rewrite (decode_loop_u_for_v p p' Huv). reflexivity. }
  split; [apply check_symbols_u_for_v; exact Huv |].
  split.
  - intros k H. unfold b32decode in H.
    destruct (negb (len p' =? 32)); [discriminate H |].
    destruct (decode_loop p' 0 (0, 0, 0, repeat 0 20)) as [[[[acc bits] j] out] | e | pn] eqn:E;
      cbn [bind] in H.
    + destruct (negb (j =? 20) || negb (bits =? 0)); discriminate H.
    + injection H as ->. destruct (decode_loop_error_at _ _ _ _ E) as (_ & Ha).
      rewrite Z.sub_0_r in Ha.
      split; intros Hc; rewrite Hc in Ha; discriminate Ha.
    + discriminate H.
  - intros k H. destruct (check_symbols_error_at _ _ _ H) as (_ & Ha).
    rewrite Z.sub_0_r in Ha.
    split; intros Hc; rewrite Hc in Ha; discriminate Ha.
Qed.

(** ** The polymod and the symbols at the end of the payload *)

(** Equalities between exclusive-ors of the same terms, bit by bit. *)
Ltac lxor_ac :=
  apply Z.bits_inj'; intros ?n _; rewrite ?Z.lxor_spec;
  repeat match goal with
  | |- context [Z.testbit ?a ?n] => destruct (Z.testbit a n)
  end; reflexivity.

(** Moving the low 25 bits up by five commutes with adding, by [.^], a
    value that lives in those bits. *)
Lemma shift_low25_lxor (chk x : Z) :
  0 <= x < 2 ^ 25 ->
  u32 (((chk .^ x) .& 0x1ffffff) << 5) = u32 ((chk .& 0x1ffffff) << 5) .^ (x << 5).
Proof.
  intros Hx. unfold u32. change 0x1ffffff with (Z.ones 25).
  apply Z.bits_inj'. intros n Hn.
  assert (Hhigh : forall k, 25 <= k -> Z.testbit x k = false).
  { intros k Hk. rewrite <- (Z.mod_small x (2 ^ 25)) by assumption.
    apply Z.mod_pow2_bits_high. lia. }
  rewrite Z.lxor_spec.
  destruct (Z.lt_ge_cases n 32) as [H32 | H32].
  - rewrite !Z.mod_pow2_bits_low by lia.
    destruct (Z.lt_ge_cases n 5) as [H5 | H5].
    + rewrite !Z.shiftl_spec_low by lia. reflexivity.
    + rewrite !Z.shiftl_spec by lia. rewrite !Z.land_spec, Z.lxor_spec.
      destruct (Z.lt_ge_cases (n - 5) 25) as [H25 | H25].
      * rewrite Z.ones_spec_low by lia. rewrite !andb_true_r. reflexivity.
      * rewrite Z.ones_spec_high by lia. rewrite !andb_false_r.
        rewrite Hhigh by lia. reflexivity.
  - rewrite !Z.mod_pow2_bits_high by lia.
    rewrite Z.shiftl_spec by lia. rewrite Hhigh by lia. reflexivity.
Qed.

Lemma shr25_lxor (chk x : Z) : 0 <= x < 2 ^ 25 -> (chk .^ x) >> 25 = chk >> 25.
Proof.
  intros Hx. rewrite Z.shiftr_lxor.
  rewrite (shr_div x 25) by lia. rewrite Z.div_small by assumption.
  apply Z.lxor_0_r.
Qed.

(** A value added to the low 25 bits of the state comes out of a round five
    bits higher, and changes nothing else. *)
Lemma polymod_step_lxor (chk x v : Z) :
  0 <= x < 2 ^ 25 ->
  polymod_step (chk .^ x) v = polymod_step chk v .^ (x << 5).
Proof.
  intros Hx. unfold polymod_step.
  rewrite shr25_lxor, shift_low25_lxor by assumption.
  set (X := u32 ((chk .& 0x1ffffff) << 5)). set (b := chk >> 25).
  destruct (negb (b .& 1 =? 0)), (negb (b .& 2 =? 0)), (negb (b .& 4 =? 0)),
    (negb (b .& 8 =? 0)), (negb (b .& 16 =? 0)); lxor_ac.
Qed.

(** The value fed to a round is added to its result. *)
Lemma polymod_step_value (chk v : Z) :
  polymod_step chk v = polymod_step chk 0 .^ v.
Proof.
  unfold polymod_step.
  set (X := u32 ((chk .& 0x1ffffff) << 5)). set (b := chk >> 25).
  rewrite Z.lxor_0_r.
  destruct (negb (b .& 1 =? 0)), (negb (b .& 2 =? 0)), (negb (b .& 4 =? 0)),
    (negb (b .& 8 =? 0)), (negb (b .& 16 =? 0)); lxor_ac.
Qed.

Lemma shl_bound (x k m : Z) :
  0 <= k -> 0 <= x < 2 ^ m -> 0 <= m -> 0 <= x << k < 2 ^ (m + k).
Proof.
  intros Hk Hx Hm. rewrite shl_mul by assumption. rewrite Z.pow_add_r by assumption.
  assert (0 < 2 ^ k) by (apply Z.pow_pos_nonneg; lia). nia.
Qed.

Lemma shl_shl (x a b : Z) : 0 <= a -> 0 <= b -> x << a << b = x << (a + b).
Proof. intros. apply Z.shiftl_shiftl. assumption. Qed.

(** The last two values before the four zero groups leave the polymod in
    bits 20 and up. *)
Lemma polymod_last_two (vals : list Z) (e d : Z) :
  0 <= e < 2 ^ 5 -> 0 <= d < 2 ^ 5 ->
  bech32Polymod (vals ++ [e; d; 0; 0; 0; 0])
  = bech32Polymod (vals ++ [0; 0; 0; 0; 0; 0]) .^ ((d .^ e << 5) << 20).
Proof.
  intros He Hd. unfold bech32Polymod. rewrite !fold_left_app.
  set (c := fold_left polymod_step vals 1). cbn [fold_left].
  pose proof (shl_bound e 5 5 ltac:(lia) He ltac:(lia)) as B5.
  pose proof (shl_bound e 10 5 ltac:(lia) He ltac:(lia)) as B10.
  pose proof (shl_bound e 15 5 ltac:(lia) He ltac:(lia)) as B15.
  pose proof (shl_bound e 20 5 ltac:(lia) He ltac:(lia)) as B20.
  pose proof (shl_bound d 5 5 ltac:(lia) Hd ltac:(lia)) as D5.
  pose proof (shl_bound d 10 5 ltac:(lia) Hd ltac:(lia)) as D10.
  pose proof (shl_bound d 15 5 ltac:(lia) Hd ltac:(lia)) as D15.
  cbn [Z.add Pos.add Pos.succ] in *.
  rewrite (polymod_step_value c e).
  rewrite (polymod_step_lxor _ e d) by lia.
  rewrite (polymod_step_value _ d).
  rewrite (polymod_step_lxor _ (e << 5) 0), (polymod_step_lxor _ d 0) by lia.
  rewrite (shl_shl e) by lia. cbn [Z.add Pos.add Pos.succ].
  rewrite (polymod_step_lxor _ (e << 10) 0), (polymod_step_lxor _ (d << 5) 0) by lia.
  rewrite (shl_shl e), (shl_shl d) by lia. cbn [Z.add Pos.add Pos.succ].
  rewrite (polymod_step_lxor _ (e << 15) 0), (polymod_step_lxor _ (d << 10) 0) by lia.
  rewrite (shl_shl e), (shl_shl d) by lia. cbn [Z.add Pos.add Pos.succ].
  rewrite (polymod_step_lxor _ (e << 20) 0), (polymod_step_lxor _ (d << 15) 0) by lia.
  rewrite (shl_shl e), (shl_shl d) by lia. cbn [Z.add Pos.add Pos.succ].
  rewrite Z.shiftl_lxor, (shl_shl e) by lia. cbn [Z.add Pos.add Pos.succ].
  rewrite Z.lxor_assoc. reflexivity.
Qed.

(** A symbol of the checksum reads five bits below bit 20. *)
Lemma checksum_symbol_low (pm hi k : Z) :
  0 <= k -> k + 5 <= 20 ->
  u8 ((pm .^ (hi << 20) .^ 1) >> k .& 31) = u8 ((pm .^ 1) >> k .& 31).
Proof.
  intros Hk Hk5. f_equal. change 31 with (Z.ones 5).
  apply Z.bits_inj'. intros n Hn. rewrite !Z.land_spec.
  destruct (Z.lt_ge_cases n 5) as [H5 | H5].
  - rewrite !Z.shiftr_spec by lia. rewrite !Z.lxor_spec.
    rewrite Z.shiftl_spec_low by lia. rewrite xorb_false_r. reflexivity.
  - rewrite Z.ones_spec_high by lia. rewrite !andb_false_r. reflexivity.
Qed.

Lemma slice_to_sep (p : gostring) (c : Z) (rest : gostring) :
  slice_to (p ++ c :: rest) (len p + 1) = p ++ [c].
Proof.
  replace (p ++ c :: rest) with ((p ++ [c]) ++ rest) by (rewrite <- app_assoc; reflexivity).
  replace (len p + 1) with (len (p ++ [c])) by (rewrite len_app; reflexivity).
  apply firstn_len_app.
Qed.

(** ** What [alphaRev] returns *)

(** Every entry of the table is [0xFF] or a symbol value. *)
Lemma alphaRev_range (c : Z) : alphaRev c = 255 \/ 0 <= alphaRev c < 2 ^ 5.
Proof.
  destruct (Z.lt_ge_cases c 0) as [Hneg | Hpos].
  - left. unfold alphaRev. destruct c; try lia. reflexivity.
  - destruct (Z.lt_ge_cases c 256) as [Hlt | Hge].
    + assert (Hall : forallb (fun n => (alphaRev (Z.of_nat n) =? 255)
                                       || ((0 <=? alphaRev (Z.of_nat n))
                                           && (alphaRev (Z.of_nat n) <? 2 ^ 5)))
                       (seq 0 256) = true) by (vm_compute; reflexivity).
      rewrite forallb_forall in Hall.
      specialize (Hall (Z.to_nat c)). rewrite Z2Nat.id in Hall by lia.
      specialize (Hall ltac:(apply in_seq; lia)).
      apply orb_true_iff in Hall. destruct Hall as [H | H].
      * left. apply Z.eqb_eq. exact H.
      * right. apply andb_true_iff in H. destruct H as [H1 H2].
        apply Z.leb_le in H1. apply Z.ltb_lt in H2. lia.
    + left. unfold alphaRev. apply nth_overflow.
      change (length alphaRev_table) with 256%nat. lia.
Qed.

(** The symbol check of [Parse] returns an error or finds every character
    accepted. *)
Lemma check_symbols_cases (s : gostring) :
  forall j,
  (check_symbols s j = Ok tt /\ Forall accepted s)
  \/ (exists k, check_symbols s j = Err (ErrInvalidBase32Pos k)).
Proof.
  induction s as [| c s IH]; intros j.
  - left. split; [reflexivity | constructor].
  - cbn [check_symbols]. destruct (Z.eqb_spec (alphaRev c) 255) as [E | N].
    + right. exists j. reflexivity.
    + destruct (IH (j + 1)) as [[Hok Hall] | Herr].
      * left. split; [exact Hok |]. constructor; [| exact Hall].
        unfold accepted. destruct (alphaRev_range c); [contradiction | assumption].
      * right. exact Herr.
Qed.

(** [unpack] returns on twenty bytes. *)
Lemma unpack_returns (b : list Z) : length b = 20%nat -> exists f, unpack b = Ok f.
Proof.
  intros H. unfold unpack.
  replace (len b =? 20) with true by (unfold len; rewrite H; reflexivity).
  cbn [negb]. eexists. reflexivity.
Qed.

(** ** Folding from an ASCII rune *)

(** The runes that fold with an ASCII rune form cycles of at most three. *)
Lemma SimpleFold_ascii_cycle (sr : Z) :
  0 <= sr < RuneSelf ->
  SimpleFold_ascii_orbit sr = sr
  \/ SimpleFold_ascii_orbit (SimpleFold_ascii_orbit sr) = sr
  \/ SimpleFold_ascii_orbit (SimpleFold_ascii_orbit (SimpleFold_ascii_orbit sr)) = sr.
Proof.
  intros Hsr. unfold RuneSelf in Hsr.
  assert (Hall : forallb (fun n =>
            let f := SimpleFold_ascii_orbit in
            let x := Z.of_nat n in
            (f x =? x) || (f (f x) =? x) || (f (f (f x)) =? x)) (seq 0 128) = true)
    by (vm_compute; reflexivity).
  rewrite forallb_forall in Hall.
  specialize (Hall (Z.to_nat sr)). rewrite Z2Nat.id in Hall by lia.
  specialize (Hall ltac:(apply in_seq; lia)). cbv zeta in Hall.
  apply orb_true_iff in Hall. destruct Hall as [Hall | H3].
  - apply orb_true_iff in Hall. destruct Hall as [H1 | H2].
    + left. apply Z.eqb_eq. exact H1.
    + right. left. apply Z.eqb_eq. exact H2.
  - right. right. apply Z.eqb_eq. exact H3.
Qed.

(** Four rounds are enough for the walk from an ASCII rune: it ends on
    [sr] again or on a rune that is not below [tr], as the loop does. *)
Lemma fold_walk_ends (sr tr : Z) :
  0 <= sr < RuneSelf ->
  fold_walk 4 (SimpleFold_ascii_orbit sr) sr tr = sr
  \/ tr <= fold_walk 4 (SimpleFold_ascii_orbit sr) sr tr.
Proof.
  intros Hsr. set (f := SimpleFold_ascii_orbit).
  assert (Hstep : forall n r, fold_walk (S n) r sr tr
                  = if negb (r =? sr) && (r <? tr) then fold_walk n (f r) sr tr else r)
    by reflexivity.
  assert (Hstop : forall n r, r = sr \/ tr <= r -> fold_walk (S n) r sr tr = r).
  { intros n r [-> | Hge]; rewrite Hstep.
    - rewrite Z.eqb_refl. reflexivity.
    - replace (r <? tr) with false by (symmetry; apply Z.ltb_ge; exact Hge).
      rewrite andb_false_r. reflexivity. }
  assert (Hcase : forall r, (r = sr \/ tr <= r) \/ (negb (r =? sr) && (r <? tr) = true)).
  { intros r. destruct (Z.eqb_spec r sr) as [E | N]; [left; left; exact E |].
    destruct (Z.ltb_spec r tr) as [L | G]; [right; reflexivity | left; right; exact G]. }
  destruct (Hcase (f sr)) as [H1 | H1].
  { rewrite Hstop by exact H1. destruct H1; [left | right]; assumption. }
  rewrite Hstep, H1.
  destruct (Hcase (f (f sr))) as [H2 | H2].
  { rewrite Hstop by exact H2. destruct H2; [left | right]; assumption. }
  rewrite Hstep, H2.
  destruct (SimpleFold_ascii_cycle sr Hsr) as [C1 | [C2 | C3]].
  - fold f in C1. rewrite C1, Z.eqb_refl in H1. discriminate H1.
  - fold f in C2. rewrite C2, Z.eqb_refl in H2. discriminate H2.
  - fold f in C3. left. rewrite Hstop by (left; exact C3). exact C3.
Qed.

(** * Further properties of the codec *)

(** ** The packer is a bijection *)

Lemma byte_hi_lo (b : Z) : 0 <= b < 2 ^ 8 ->
  (b .& 240) >> 4 = b / 2 ^ 4 /\ b .& 15 = b mod 2 ^ 4
  /\ 0 <= b / 2 ^ 4 < 2 ^ 4 /\ 0 <= b mod 2 ^ 4 < 2 ^ 4
  /\ b = b / 2 ^ 4 * 2 ^ 4 + b mod 2 ^ 4.
Proof.
  intros Hb.
  pose proof (Z.div_mod b (2 ^ 4) ltac:(lia)) as Hdm.
  pose proof (Z.mod_pos_bound b (2 ^ 4) ltac:(lia)) as Hm.
  assert (Hq : 0 <= b / 2 ^ 4 < 2 ^ 4).
  { split; [apply Z.div_pos; lia | apply Z.div_lt_upper_bound; lia]. }
  split.
  - pose proof (nibbles_hi (b / 2 ^ 4) (b mod 2 ^ 4) Hq Hm) as E.
    replace (b / 2 ^ 4 * 2 ^ 4 + b mod 2 ^ 4) with b in E by lia. exact E.
  - split; [change 15 with (2 ^ 4 - 1); apply land_mask; lia |].
    split; [exact Hq |]. split; [exact Hm | lia].
Qed.

(** What [unpack] returns on twenty bytes, as sums. *)
Lemma unpack_sums (b0 b1 b2 b3 b4 b5 b6 b7 b8 b9 b10 b11 b12 b13 b14 b15 b16 b17 b18 b19 : Z) :
  is_bytes [b0; b1; b2; b3; b4; b5; b6; b7; b8; b9; b10; b11; b12; b13; b14; b15;
            b16; b17; b18; b19] ->
  unpack [b0; b1; b2; b3; b4; b5; b6; b7; b8; b9; b10; b11; b12; b13; b14; b15;
          b16; b17; b18; b19] =
  Ok (b0 * 2 ^ 40 + (b1 * 2 ^ 32 + (b2 * 2 ^ 24 + (b3 * 2 ^ 16 + (b4 * 2 ^ 8 + b5)))),
      b6,
      b7 * 2 ^ 8 + b8,
      b9 * 2 ^ 4 + b10 / 2 ^ 4,
      b10 mod 2 ^ 4 * 2 ^ 12 + (b11 * 2 ^ 4 + b12 / 2 ^ 4),
      b12 mod 2 ^ 4 * 2 ^ 56 + (b13 * 2 ^ 48 + (b14 * 2 ^ 40 + (b15 * 2 ^ 32
        + (b16 * 2 ^ 24 + (b17 * 2 ^ 16 + (b18 * 2 ^ 8 + b19))))))).
Proof.
  intros H. unfold is_bytes in H.
  repeat match goal with
  | H : Forall _ (_ :: _) |- _ => inversion H; subst; clear H
  | H : Forall _ [] |- _ => clear H
  end.
  unfold is_u8 in *.
  rewrite unpack_20.
  destruct (byte_hi_lo b10 ltac:(assumption)) as (-> & -> & ? & ? & _).
  destruct (byte_hi_lo b12 ltac:(assumption)) as (-> & -> & ? & ? & _).
  rewrite !u64_shl by lia.
  rewrite u16_shl12 by assumption.
  rewrite !u16_shl by lia.
  lor_to_add. reflexivity.
Qed.

(** A list of twenty elements, element by element. *)
Ltac twenty b H :=
  do 20 (destruct b as [| ? b]; [discriminate H |]);
  destruct b; [clear H | discriminate H].

(** On any twenty bytes [unpack] returns fields within their widths, and
    these fields make the number the bytes write. *)
Lemma unpack_fields (b : list Z) :
  length b = 20%nat -> is_bytes b ->
  exists f, unpack b = Ok f /\ fields_in_range f /\ body_number f = value 8 b.
Proof.
  intros Hlen Hb. twenty b Hlen.
  rewrite unpack_sums by exact Hb. eexists. split; [reflexivity |].
  unfold is_bytes in Hb.
  repeat match goal with
  | H : Forall _ (_ :: _) |- _ => inversion H; subst; clear H
  | H : Forall _ [] |- _ => clear H
  end.
  unfold is_u8 in *.
  repeat match goal with
  | |- context [?x mod 2 ^ 4] =>
      lazymatch goal with
      | _ : x = x / 2 ^ 4 * 2 ^ 4 + x mod 2 ^ 4 |- _ => fail
      | _ => destruct (byte_hi_lo x ltac:(assumption)) as (_ & _ & ? & ? & ?)
      end
  end.
  split.
  - unfold fields_in_range. repeat split; lia.
  - unfold body_number. rewrite value_20. lia.
Qed.

Lemma unpack_then_pack (b : list Z) :
  length b = 20%nat -> is_bytes b ->
  exists f, unpack b = Ok f /\ fields_in_range f /\ pack_fields f = b.
Proof.
  intros Hlen Hb.
  destruct (unpack_fields b Hlen Hb) as (f & Hun & Hr & Hv).
  exists f. split; [exact Hun |]. split; [exact Hr |].
  destruct f as [[[[[ms fl] te] sq] sh] rn].
  destruct Hr as (Hms & Hfl & Hte & Hsq & Hsh & Hrn).
  apply (value_inj 8); try lia.
  - rewrite Hlen. reflexivity.
  - apply is_bytes_digits. apply pack_is_bytes. exact Hfl.
  - apply is_bytes_digits. exact Hb.
  - unfold pack_fields. rewrite pack_value by assumption.
    rewrite !Z.mod_small by assumption. exact Hv.
Qed.

(** X1. [pack] undoes [unpack]: every array of twenty bytes is the packing
    of the fields [unpack] reads from it, and these fields lie within the
    widths of the layout. *)
Theorem pack_unpack (b : list Z) :
  length b = 20%nat -> is_bytes b ->
  exists f, unpack b = Ok f /\ fields_in_range f /\ pack_fields f = b.
Proof. exact (unpack_then_pack b). Qed.

(** ** The decoder on any thirty-two characters *)

Lemma decode_loop_app (s1 s2 : gostring) :
  forall i st,
  decode_loop (s1 ++ s2) i st
  = (do st' <- decode_loop s1 i st; decode_loop s2 (i + len s1) st').
Proof.
  induction s1 as [| c s1 IH]; intros i st.
  - cbn [app decode_loop bind]. change (len []) with 0. rewrite Z.add_0_r. reflexivity.
  - cbn [app decode_loop]. destruct st as [[[acc bits] j] out].
    rewrite len_cons. replace (i + (1 + len s1)) with (i + 1 + len s1) by lia.
    destruct (alphaRev c =? 255); [reflexivity |].
    destruct (8 <=? bits + 5).
    + destruct (store out j _); cbn [bind]; [apply IH | reflexivity | reflexivity].
    + apply IH.
Qed.

(** A string is accepted throughout, or has a first character that is not. *)
Lemma first_unaccepted (s : gostring) :
  Forall accepted s
  \/ exists pre c rest,
       s = pre ++ c :: rest /\ Forall accepted pre /\ alphaRev c = 255.
Proof.
  induction s as [| c s IH]; [left; constructor |].
  destruct (alphaRev_range c) as [Hbad | Hok].
  - right. exists [], c, s. split; [reflexivity |]. split; [constructor | exact Hbad].
  - destruct IH as [Hall | (pre & c' & rest & -> & Hpre & Hbad)].
    + left. constructor; assumption.
    + right. exists (c :: pre), c', rest. split; [reflexivity |].
      split; [constructor; assumption | exact Hbad].
Qed.

Lemma at_app_here (pre : gostring) (c : Z) (rest : gostring) :
  at_ (pre ++ c :: rest) (len pre) = c.
Proof.
  unfold at_, len. rewrite Nat2Z.id. rewrite app_nth2 by lia.
  rewrite Nat.sub_diag. reflexivity.
Qed.

Lemma at_app_before (pre rest : gostring) (j : Z) :
  0 <= j < len pre -> at_ (pre ++ rest) j = at_ pre j.
Proof.
  intros Hj. unfold at_, len in *. apply app_nth1. lia.
Qed.

Lemma Forall_at (P : Z -> Prop) (s : gostring) (j : Z) :
  Forall P s -> 0 <= j < len s -> P (at_ s j).
Proof.
  intros H Hj. rewrite Forall_forall in H. apply H.
  unfold at_, len in *. apply nth_In. lia.
Qed.

(** X2. On thirty-two characters [b32decode] returns twenty bytes when
    every character is accepted, and otherwise the invalid-symbol error at
    the index of the first character that is not; it returns nothing else. *)
Theorem b32decode_cases (s : gostring) :
  length s = 32%nat ->
  (Forall accepted s
   /\ exists b, b32decode s = Ok b /\ length b = 20%nat /\ is_bytes b)
  \/ (exists i,
        0 <= i < 32 /\ alphaRev (at_ s i) = 255
        /\ (forall j, 0 <= j < i -> accepted (at_ s j))
        /\ b32decode s = Err (ErrInvalidBase32At i)).
Proof.
  intros Hlen.
  destruct (first_unaccepted s) as [Hall | (pre & c & rest & -> & Hpre & Hbad)].
  - left. split; [exact Hall |].
    destruct (b32decode_spec s Hlen Hall) as (es & Hdec & Hl & Hes & _).
    exists es. repeat split; assumption.
  - right. exists (len pre).
    assert (Hpl : len pre < 32).
    { rewrite length_app in Hlen. cbn [length] in Hlen. unfold len. lia. }
    pose proof (len_nonneg pre).
    split; [lia |]. split; [rewrite at_app_here; exact Hbad |].
    split.
    + intros j Hj. rewrite at_app_before by lia. apply Forall_at; [exact Hpre | lia].
    + unfold b32decode.
      replace (len (pre ++ c :: rest) =? 32) with true
        by (unfold len; rewrite Hlen; reflexivity).
      cbn [negb]. rewrite decode_loop_app.
      destruct (decode_loop_spec pre 0 0 0 []) as (es & bits & Hrun & _);
        try assumption; try lia.
      * constructor.
      * reflexivity.
      * change (len []) with 0. lia.
      * change (0 mod 2 ^ 32) with 0 in Hrun. change (len []) with 0 in Hrun.
        change (filled 20 []) with (repeat 0 20) in Hrun.
        rewrite Hrun. cbn [bind decode_loop]. rewrite Hbad. reflexivity.
Qed.

(** ** Decoding, then encoding *)

Lemma accepted_digits (s : gostring) : Forall accepted s -> digits 5 (map alphaRev s).
Proof. intros H. apply Forall_map. exact H. Qed.

Lemma sym_alphaRev_canonical (s : gostring) :
  Forall (fun c => In c alpha) s -> map sym (map alphaRev s) = s.
Proof.
  induction 1 as [| c s Hc _ IH]; [reflexivity |].
  cbn [map]. rewrite IH. apply (f_equal (fun x => x :: s)).
  assert (Hall : forallb (fun c => sym (alphaRev c) =? c) alpha = true)
    by (vm_compute; reflexivity).
  rewrite forallb_forall in Hall. apply Z.eqb_eq, Hall, Hc.
Qed.

(** Encoding what was decoded from accepted characters spells their
    symbols with the alphabet. *)
Lemma b32encode_decoded (s : gostring) (b : list Z) :
  length s = 32%nat -> Forall accepted s -> b32decode s = Ok b ->
  b32encode b = Ok (map sym (map alphaRev s)).
Proof.
  intros Hlen Hall Hb.
  destruct (b32decode_spec s Hlen Hall) as (es & Hdec & Hl & Hes & Hval).
  rewrite Hdec in Hb. injection Hb as <-.
  destruct (b32encode_spec es Hl Hes) as (ds & Henc & Hn & Hds & Hv).
  assert (E : ds = map alphaRev s).
  { apply (value_inj 5); [lia | rewrite length_map; lia | exact Hds
                           | apply accepted_digits; exact Hall
                           | rewrite Hv; exact Hval ]. }
  subst ds. exact Henc.
Qed.

(** X3. Decoding thirty-two accepted characters and encoding the bytes
    again gives the canonical spelling: the alphabet character of every
    symbol.  On a payload that is canonical already it gives the payload. *)
Theorem b32encode_b32decode (s : gostring) :
  length s = 32%nat -> Forall accepted s ->
  exists b,
    b32decode s = Ok b
    /\ b32encode b = Ok (map sym (map alphaRev s))
    /\ (Forall (fun c => In c alpha) s -> b32encode b = Ok s).
Proof.
  intros Hlen Hall.
  destruct (b32decode_spec s Hlen Hall) as (es & Hdec & _).
  pose proof (b32encode_decoded s es Hlen Hall Hdec) as Henc.
  exists es. split; [exact Hdec |]. split; [exact Henc |].
  intros Hcanon. rewrite Henc, sym_alphaRev_canonical by exact Hcanon. reflexivity.
Qed.

(** ** Decoding ignores case *)

Lemma alphaRev_upper1 (c : Z) : alphaRev (upper1 c) = alphaRev c.
Proof.
  unfold upper1. destruct ((chr "a" <=? c) && (c <=? chr "z")) eqn:E; [| reflexivity].
  apply andb_true_iff in E. destruct E as [Ha Hz].
  apply Z.leb_le in Ha, Hz. change (chr "a") with 97 in Ha. change (chr "z") with 122 in Hz.
  assert (Hall : forallb (fun n => alphaRev (Z.of_nat n - 32) =? alphaRev (Z.of_nat n))
                   (seq 97 26) = true) by (vm_compute; reflexivity).
  rewrite forallb_forall in Hall.
  specialize (Hall (Z.to_nat c)). rewrite Z2Nat.id in Hall by lia.
  apply Z.eqb_eq, Hall, in_seq. lia.
Qed.

Lemma decode_loop_same_symbols (s s' : gostring) :
  same_symbols s s' ->
  forall i st, decode_loop s' i st = decode_loop s i st.
Proof.
  intros H. induction H as [| c c' s s' Hc _ IH]; intros i st; [reflexivity |].
  cbn [decode_loop]. destruct st as [[[acc bits] j] out].
  rewrite Hc.
  destruct (alphaRev c =? 255); [reflexivity |].
  destruct (8 <=? bits + 5).
  - destruct (store out j _); cbn [bind]; [apply IH | reflexivity | reflexivity].
  - apply IH.
Qed.

Lemma b32decode_same_symbols (s s' : gostring) :
  same_symbols s s' ->
  b32decode s' = b32decode s.
Proof.
  intros H. unfold b32decode.
  replace (len s') with (len s) by (unfold len; rewrite (Forall2_length H); reflexivity).
  destruct (negb (len s =? 32)); [reflexivity |].
  rewrite (decode_loop_same_symbols s s' H). reflexivity.
Qed.

(** ** Splitting a string at a byte *)

Lemma in_split_first (c : Z) (s : gostring) :
  In c s -> exists p rest, s = p ++ c :: rest /\ ~ In c p.
Proof.
  induction s as [| b s IH]; intros H; [destruct H |].
  destruct (Z.eq_dec b c) as [-> | N].
  - exists [], s. split; [reflexivity | intros []].
  - destruct H as [E | H]; [contradiction |].
    destruct (IH H) as (p & rest & -> & Hp).
    exists (b :: p), rest. split; [reflexivity |].
    intros [E | Hin]; [exact (N E) | exact (Hp Hin)].
Qed.

Lemma in_split_last (c : Z) (s : gostring) :
  In c s -> exists p rest, s = p ++ c :: rest /\ ~ In c rest.
Proof.
  intros H. apply in_rev in H.
  destruct (in_split_first c (rev s) H) as (p & rest & E & Hp).
  exists (rev rest), (rev p). split.
  - rewrite <- (rev_involutive s), E, rev_app_distr. cbn [rev].
    rewrite <- app_assoc. reflexivity.
  - intros Hin. apply Hp. apply in_rev. exact Hin.
Qed.

(** Where [IndexByte] finds the byte, the string splits there. *)
Lemma IndexByte_found (s : gostring) (c : Z) :
  IndexByte s c <> -1 ->
  exists p rest, s = p ++ c :: rest /\ ~ In c p /\ IndexByte s c = len p.
Proof.
  intros H. destruct (in_dec Z.eq_dec c s) as [Hin | Hout].
  - destruct (in_split_first c s Hin) as (p & rest & -> & Hp).
    exists p, rest. split; [reflexivity |]. split; [exact Hp |].
    apply IndexByte_app. exact Hp.
  - exfalso. apply H. apply IndexByte_absent. exact Hout.
Qed.

Lemma LastIndexByte_found (s : gostring) (c : Z) :
  LastIndexByte s c <> -1 ->
  exists p rest, s = p ++ c :: rest /\ ~ In c rest /\ LastIndexByte s c = len p.
Proof.
  intros H. destruct (in_dec Z.eq_dec c s) as [Hin | Hout].
  - destruct (in_split_last c s Hin) as (p & rest & -> & Hp).
    exists p, rest. split; [reflexivity |]. split; [exact Hp |].
    apply LastIndexByte_app. exact Hp.
  - exfalso. apply H. apply LastIndexByte_absent. exact Hout.
Qed.

(** ** White space around a string *)

Lemma skip_asciiSpace_spaces (ws : gostring) (c : Z) (rest : gostring) :
  Forall (fun b => asciiSpace b = true) ws -> no_space c ->
  skip_asciiSpace (ws ++ c :: rest) = (false, c :: rest).
Proof.
  intros Hws [Hc Hs]. induction Hws as [| b ws Hb _ IH].
  - apply skip_asciiSpace_stop; assumption.
  - cbn [app skip_asciiSpace]. rewrite Hb.
    replace (RuneSelf <=? b) with false; [exact IH |].
    symmetry. apply Z.leb_gt. unfold asciiSpace in Hb. unfold RuneSelf.
    apply orb_true_iff in Hb. destruct Hb as [Hb | Hb].
    + apply andb_true_iff in Hb. destruct Hb as [_ Hb]. apply Z.leb_le in Hb. lia.
    + apply Z.eqb_eq in Hb. lia.
Qed.

(** [TrimSpace] removes the ASCII white space around a string whose first
    and last bytes are ASCII and no space, and nothing else. *)
Lemma TrimSpace_spaces (ws1 ws2 s : gostring) :
  spaces ws1 -> spaces ws2 -> trimmed s -> TrimSpace (ws1 ++ s ++ ws2) = s.
Proof.
  intros H1 H2 (Hne & Ha & Hz). unfold TrimSpace.
  destruct s as [| a mid] eqn:Es; [contradiction |]. cbn [hd] in Ha.
  cbn [app]. rewrite skip_asciiSpace_spaces by assumption.
  rewrite app_comm_cons, <- Es in *. rewrite rev_app_distr.
  rewrite (app_removelast_last 0 Hne) at 1.
  rewrite rev_app_distr. cbn [rev app].
  rewrite skip_asciiSpace_spaces; [| apply Forall_rev; exact H2 | exact Hz].
  change (last s 0 :: rev (removelast s)) with (rev [last s 0] ++ rev (removelast s)).
  rewrite <- rev_app_distr, <- app_removelast_last by exact Hne.
  apply rev_involutive.
Qed.

Lemma TrimSpace_trimmed (s : gostring) : trimmed s -> TrimSpace s = s.
Proof.
  intros H. rewrite <- (TrimSpace_spaces [] [] s) at 2; try exact H; try constructor.
  cbn [app]. rewrite app_nil_r. reflexivity.
Qed.

(** ** Accepted characters *)

(** An accepted character is an ASCII letter or digit, and its lowercase
    form has the same value. *)
Lemma accepted_plain (c : Z) :
  accepted c ->
  0 <= c < RuneSelf /\ asciiSpace c = false /\ c <> chr "-" /\ c <> chr "_"
  /\ alphaRev (lower1 c) = alphaRev c.
Proof.
  unfold accepted. intros H.
  destruct (Z.lt_ge_cases c 0) as [Hneg | Hpos].
  { exfalso. destruct c as [| q | q]; try lia.
    assert (E : alphaRev (Z.neg q) = 255) by reflexivity. rewrite E in H. lia. }
  destruct (Z.lt_ge_cases c 256) as [Hlt | Hge].
  2:{ exfalso. unfold alphaRev in H. rewrite nth_overflow in H; [lia |].
      change (length alphaRev_table) with 256%nat. lia. }
  assert (Hall : forallb (fun n =>
            let c := Z.of_nat n in
            negb ((0 <=? alphaRev c) && (alphaRev c <? 32))
            || ((c <? 128) && negb (asciiSpace c) && negb (c =? 45) && negb (c =? 95)
                && (alphaRev (lower1 c) =? alphaRev c))) (seq 0 256) = true)
    by (vm_compute; reflexivity).
  rewrite forallb_forall in Hall. specialize (Hall (Z.to_nat c)).
  rewrite Z2Nat.id in Hall by lia. cbv zeta in Hall.
  assert (Hin : In (Z.to_nat c) (seq 0 256)) by (apply in_seq; lia).
  apply Hall in Hin. clear Hall.
  replace ((0 <=? alphaRev c) && (alphaRev c <? 32)) with true in Hin
    by (symmetry; apply andb_true_iff; split; [apply Z.leb_le | apply Z.ltb_lt]; lia).
  cbn [negb orb] in Hin.
  repeat (apply andb_true_iff in Hin; destruct Hin as [Hin ?]).
  repeat match goal with
  | H : negb _ = true |- _ => apply negb_true_iff in H
  end.
  change (chr "-") with 45. change (chr "_") with 95. unfold RuneSelf.
  repeat split; try lia. assumption.
Qed.

Lemma accepted_no_space (q : gostring) : Forall accepted q -> Forall no_space q.
Proof.
  intros H. eapply Forall_impl; [| exact H].
  intros c Hc. destruct (accepted_plain c Hc) as (Ha & Hs & _). split; [lia | exact Hs].
Qed.

Lemma accepted_no_byte (q : gostring) (b : Z) :
  b = chr "-" \/ b = chr "_" -> Forall accepted q -> ~ In b q.
Proof.
  intros Hb H Hin. rewrite Forall_forall in H.
  destruct (accepted_plain b (H b Hin)) as (_ & _ & Hd & Hu & _).
  destruct Hb; contradiction.
Qed.

Lemma payloadTo5bits_accepted (q : gostring) :
  Forall accepted q -> payloadTo5bits (map lower1 q) = Ok (map alphaRev q).
Proof.
  induction 1 as [| c q Hc _ IH]; [reflexivity |].
  cbn [map payloadTo5bits].
  destruct (accepted_plain c Hc) as (_ & _ & _ & _ & El). rewrite El.
  unfold accepted in Hc.
  replace (alphaRev c =? 255) with false by (symmetry; apply Z.eqb_neq; lia).
  rewrite IH. reflexivity.
Qed.

Lemma same_symbols_accepted (q q' : gostring) :
  same_symbols q q' -> Forall accepted q -> Forall accepted q'.
Proof.
  intros H. induction H as [| c c' q q' Hc _ IH]; intros Hq; [constructor |].
  inversion Hq as [| ? ? Ha Hq']; subst. constructor.
  - unfold accepted in *. rewrite Hc. exact Ha.
  - apply IH. exact Hq'.
Qed.

Lemma same_symbols_map (q q' : gostring) :
  same_symbols q q' -> map alphaRev q' = map alphaRev q.
Proof.
  intros H. induction H as [| c c' q q' Hc _ IH]; [reflexivity |].
  cbn [map]. rewrite Hc, IH. reflexivity.
Qed.

Lemma same_symbols_canonical (q : gostring) :
  Forall accepted q -> same_symbols q (map sym (map alphaRev q)).
Proof.
  induction 1 as [| c q Hc _ IH]; [constructor |].
  cbn [map]. constructor; [| exact IH].
  apply alphaRev_sym. exact Hc.
Qed.

(** ** The checksum engine on any input *)

Lemma payloadTo5bits_cases (q : gostring) :
  (Forall accepted q /\ payloadTo5bits q = Ok (map alphaRev q))
  \/ (~ Forall accepted q /\ payloadTo5bits q = Panic PanicInvalidPayload).
Proof.
  induction q as [| c q IH]; [left; split; [constructor | reflexivity] |].
  cbn [payloadTo5bits map].
  destruct (alphaRev_range c) as [Hbad | Hok].
  - right. rewrite Hbad. split; [| reflexivity].
    intros H. inversion H as [| ? ? Hc _]; subst. unfold accepted in Hc. lia.
  - replace (alphaRev c =? 255) with false by (symmetry; apply Z.eqb_neq; lia).
    destruct IH as [[Hq E] | [Hq E]]; rewrite E; cbn [bind].
    + left. split; [constructor; assumption | reflexivity].
    + right. split; [| reflexivity].
      intros H. inversion H; subst. contradiction.
Qed.

Lemma sym_mask_in_alpha (x : Z) : In (at_ alpha (u8 (x .& 31))) alpha.
Proof.
  apply (sym_in_alpha (u8 (x .& 31))), mask31.
Qed.

(** ** The random field of [New] *)

Lemma lor_add_low (lo hi k : Z) :
  0 <= k -> 0 <= lo < 2 ^ k -> lo .| hi * 2 ^ k = lo + hi * 2 ^ k.
Proof. intros Hk Hlo. rewrite Z.lor_comm, lor_add by assumption. lia. Qed.

(** The eight bytes of entropy, the top four bits of the first cleared, read
    big-endian: the number the bytes write, modulo [2 ^ 60]. *)
Lemma random60_value (rnd : list Z) :
  length rnd = 8%nat -> is_bytes rnd ->
  BigEndian_Uint64 (upd rnd 0 (at_ rnd 0 .& 0x0F)) = value 8 rnd mod 2 ^ 60.
Proof.
  intros Hlen Hb.
  destruct rnd as [| b0 [| b1 [| b2 [| b3 [| b4 [| b5 [| b6 [| b7 [| ? ?]]]]]]]]];
    try discriminate Hlen. clear Hlen.
  unfold is_bytes in Hb.
  repeat match goal with
  | H : Forall _ (_ :: _) |- _ => inversion H; subst; clear H
  | H : Forall _ [] |- _ => clear H
  end.
  unfold is_u8 in *.
  change (BigEndian_Uint64 (upd [b0; b1; b2; b3; b4; b5; b6; b7] 0
                             (at_ [b0; b1; b2; b3; b4; b5; b6; b7] 0 .& 0x0F)))
    with (b7 .| b6 << 8 .| b5 << 16 .| b4 << 24 .| b3 << 32 .| b2 << 40 .| b1 << 48
          .| (b0 .& (2 ^ 4 - 1)) << 56).
  rewrite land_mask by lia.
  rewrite !shl_mul by lia.
  pose proof (Z.mod_pos_bound b0 (2 ^ 4) ltac:(lia)).
  repeat match goal with
  | |- context [ ?lo .| ?h * 2 ^ ?k ] =>
      lazymatch lo with
      | context [Z.lor] => fail
      | _ => rewrite (lor_add_low lo h k) by lia
      end
  end.
  unfold value. cbn [horner fold_left].
  apply (Z.mod_unique _ _ (b0 / 2 ^ 4)); [lia |].
  pose proof (Z.div_mod b0 (2 ^ 4) ltac:(lia)). lia.
Qed.

(** [pack] reads each field through its width. *)
Lemma pack_masked (ms flags tenant seq12 shard random60 : Z) :
  is_u8 flags -> is_u16 tenant -> is_u16 shard ->
  pack ms flags tenant seq12 shard random60
  = pack (ms mod 2 ^ 48) flags tenant (seq12 mod 2 ^ 12) shard (random60 mod 2 ^ 60).
Proof.
  intros Hfl Hte Hsh. apply (value_inj 8); try lia.
  - reflexivity.
  - apply is_bytes_digits, pack_is_bytes, Hfl.
  - apply is_bytes_digits, pack_is_bytes, Hfl.
  - rewrite !pack_value by assumption. rewrite !Z.mod_mod by lia. reflexivity.
Qed.

(** ** Order of strings of equal length *)

Lemma lex_compare_app_lt (a b x y : list Z) :
  length a = length b -> lex_compare a b = Lt -> lex_compare (a ++ x) (b ++ y) = Lt.
Proof.
  revert b. induction a as [| c a IH]; intros [| d b] Hlen H; try discriminate.
  cbn [app lex_compare] in *. destruct (c ?= d); try assumption.
  apply IH; [injection Hlen as Hlen; exact Hlen | exact H].
Qed.

Lemma lex_compare_app_gt (a b x y : list Z) :
  length a = length b -> lex_compare a b = Gt -> lex_compare (a ++ x) (b ++ y) = Gt.
Proof.
  revert b. induction a as [| c a IH]; intros [| d b] Hlen H; try discriminate.
  cbn [app lex_compare] in *. destruct (c ?= d); try assumption.
  apply IH; [injection Hlen as Hlen; exact Hlen | exact H].
Qed.

(** ** The clock of [New] *)

Lemma incoming_ms_plain (o : options) (now : Z) :
  bucketSeconds o <= 0 -> - 2 ^ 62 <= now < 2 ^ 62 ->
  incoming_ms o now = now - epoch2020.
Proof.
  intros Hno Hnow. unfold incoming_ms.
  replace (0 <? bucketSeconds o) with false by (symmetry; apply Z.ltb_ge; exact Hno).
  apply i64_small. unfold epoch2020. lia.
Qed.


Lemma New_flags_range (o : options) : 0 <= New_flags o < 2 ^ 8.
Proof. unfold New_flags. destruct (0 <? bucketSeconds o); cbn; lia. Qed.

Lemma New_fields_in_range (o : options) (now : Z) (rnd : list Z) (st : seq_state) :
  is_u16 (tenant o) -> is_u16 (shard o) -> fields_in_range (New_fields o now rnd st).
Proof.
  intros Hte Hsh. unfold New_fields, fields_in_range.
  pose proof (New_flags_range o).
  pose proof (sequence_step_range st (incoming_ms o now)).
  pose proof (Z.mod_pos_bound (u64 (incoming_ms o now)) (2 ^ 48) ltac:(lia)).
  pose proof (Z.mod_pos_bound (value 8 rnd) (2 ^ 60) ltac:(lia)).
  unfold is_u16 in *. repeat split; lia.
Qed.

(** A second draw in the same millisecond. *)
Lemma sequence_step_again (st : Z * Z) (ms : Z) :
  sequence_step (sequence_step st ms) ms
  = (ms, (snd (sequence_step st ms) + 1) mod 4096).
Proof.
  destruct st as [last counter]. unfold sequence_step.
  destruct (Z.eqb_spec ms last) as [-> | N].
  - rewrite Z.eqb_refl. reflexivity.
  - rewrite Z.eqb_refl. reflexivity.
Qed.

(** ** Order of identifiers that share their prefix *)

Lemma identifier_compare (p : gostring) (ds1 ds2 : list Z) (wc1 wc2 : bool)
    (cs1 cs2 : list Z) (c : comparison) :
  length ds1 = 32%nat -> length ds2 = 32%nat ->
  lex_compare (map sym ds1) (map sym ds2) = c -> c <> Eq ->
  lex_compare (identifier p ds1 wc1 cs1) (identifier p ds2 wc2 cs2) = c.
Proof.
  intros H1 H2 Hc Hne. unfold identifier, canonical_base.
  rewrite <- !app_assoc, lex_compare_app, lex_compare_app.
  destruct c; [contradiction | |].
  - apply lex_compare_app_lt; [rewrite !length_map; lia | exact Hc].
  - apply lex_compare_app_gt; [rewrite !length_map; lia | exact Hc].
Qed.

Lemma i64_zero (x : Z) : i64 x = 0 <-> x mod 2 ^ 64 = 0.
Proof.
  unfold i64. split; intros H.
  - assert (E : (x + 2 ^ 63) mod 2 ^ 64 = 2 ^ 63) by lia. clear H.
    rewrite <- (Z.mod_small (2 ^ 63) (2 ^ 64)) in E at 2 by lia.
    replace x with (x + 2 ^ 63 - 2 ^ 63) by lia.
    rewrite Zminus_mod, E, Z.sub_diag. reflexivity.
  - replace ((x + 2 ^ 63) mod 2 ^ 64) with (2 ^ 63); [lia |].
    rewrite Zplus_mod, H. reflexivity.
Qed.

(** ** Hexadecimal *)

Lemma reverseHexTable_range (c : Z) :
  0 <= hex.reverseHexTable c <= 15 \/ hex.reverseHexTable c = 255.
Proof.
  unfold hex.reverseHexTable.
  change (chr "0") with 48. change (chr "9") with 57.
  change (chr "a") with 97. change (chr "f") with 102.
  change (chr "A") with 65. change (chr "F") with 70.
  destruct (Z.leb_spec 48 c), (Z.leb_spec c 57), (Z.leb_spec 97 c), (Z.leb_spec c 102),
    (Z.leb_spec 65 c), (Z.leb_spec c 70); cbn [andb]; lia.
Qed.

Lemma is_hex_test (c : Z) : is_hex c -> (0x0f <? hex.reverseHexTable c) = false.
Proof. unfold is_hex. intros H. apply Z.ltb_ge. exact H. Qed.

Lemma not_hex_test (c : Z) : ~ is_hex c -> (0x0f <? hex.reverseHexTable c) = true.
Proof. unfold is_hex. intros H. apply Z.ltb_lt. lia. Qed.

(** Induction two elements at a time. *)
Lemma pair_induction {A : Type} (P : list A -> Prop) :
  P [] -> (forall a, P [a]) -> (forall a b l, P l -> P (a :: b :: l)) ->
  forall l, P l.
Proof.
  intros H0 H1 H2.
  assert (H : forall l, P l /\ forall a, P (a :: l)).
  { induction l as [| b l [IH IH']]; [split; [exact H0 | exact H1] |].
    split; [apply IH' |]. intros a. apply H2. exact IH. }
  intros l. apply H.
Qed.

(** The byte two hexadecimal digits write. *)
Lemma hex_byte (a b : Z) :
  0 <= a <= 15 -> 0 <= b <= 15 -> u8 (a << 4 .| b) = a * 2 ^ 4 + b.
Proof.
  intros Ha Hb. rewrite shl_mul by lia. rewrite lor_add by lia.
  apply u8_small. lia.
Qed.

(** [hex.Decode] on any string: the bytes the digits write; or the length
    error for digits in odd number; or the first byte that is no digit. *)
Lemma hex_Decode_cases (h : gostring) :
  (Forall is_hex h /\ Nat.even (length h) = true
   /\ exists rb, hex.Decode h = (rb, None) /\ is_bytes rb
                 /\ value 8 rb = value 4 (map hex.reverseHexTable h)
                 /\ (2 * length rb = length h)%nat)
  \/ (Forall is_hex h /\ Nat.even (length h) = false
      /\ exists rb, hex.Decode h = (rb, Some hex.ErrLength))
  \/ (exists pre b rest rb,
        h = pre ++ b :: rest /\ Forall is_hex pre /\ ~ is_hex b
        /\ hex.Decode h = (rb, Some (hex.InvalidByteError b))).
Proof.
  induction h as [| p | p q rest IH] using pair_induction.
  - left. split; [constructor |]. split; [reflexivity |].
    exists []. repeat split; constructor.
  - right. cbn [hex.Decode].
    destruct (Z.ltb_spec 0x0f (hex.reverseHexTable p)) as [Hbad | Hok].
    + right. exists [], p, [], []. split; [reflexivity |]. split; [constructor |].
      split; [unfold is_hex; lia | reflexivity].
    + left. split; [constructor; [exact Hok | constructor] |]. split; [reflexivity |].
      exists []. reflexivity.
  - cbn [hex.Decode].
    destruct (Z.ltb_spec 0x0f (hex.reverseHexTable p)) as [Hp | Hp].
    { right. right. exists [], p, (q :: rest), []. split; [reflexivity |].
      split; [constructor |]. split; [unfold is_hex; lia | reflexivity]. }
    destruct (Z.ltb_spec 0x0f (hex.reverseHexTable q)) as [Hq | Hq].
    { right. right. exists [p], q, rest, []. split; [reflexivity |].
      split; [constructor; [exact Hp | constructor] |].
      split; [unfold is_hex; lia | reflexivity]. }
    assert (Hpr : 0 <= hex.reverseHexTable p <= 15)
      by (destruct (reverseHexTable_range p); lia).
    assert (Hqr : 0 <= hex.reverseHexTable q <= 15)
      by (destruct (reverseHexTable_range q); lia).
    destruct IH as [(Hall & Hev & rb & E & Hb & Hv & Hl)
                   | [(Hall & Hev & rb & E) | (pre & b & rest' & rb & -> & Hpre & Hb & E)]];
      rewrite E.
    + left. split; [constructor; [exact Hp | constructor; [exact Hq | exact Hall]] |].
      split; [exact Hev |].
      eexists. split; [reflexivity |].
      rewrite hex_byte by assumption.
      split; [constructor; [unfold is_u8; lia | exact Hb] |].
      split; [| cbn [length]; lia].
      cbn [map]. rewrite !value_cons by lia. rewrite Hv.
      rewrite !len_cons, len_map.
      assert (El : len rest = 2 * len rb) by (unfold len; lia).
      rewrite El. pose proof (len_nonneg rb).
      replace (4 * (1 + 2 * len rb)) with (4 + 8 * len rb) by lia.
      replace (4 * (2 * len rb)) with (8 * len rb) by lia.
      rewrite Z.pow_add_r by lia. ring.
    + right. left. split; [constructor; [exact Hp | constructor; [exact Hq | exact Hall]] |].
      split; [exact Hev |]. eexists. reflexivity.
    + right. right. exists (p :: q :: pre), b, rest'. eexists.
      split; [reflexivity |].
      split; [constructor; [exact Hp | constructor; [exact Hq | exact Hpre]] |].
      split; [exact Hb | reflexivity].
Qed.

(** The loop that reads bytes into a [uint64] keeps the low 64 bits of the
    number they write. *)
Lemma be_uint64_value (rb : list Z) :
  is_bytes rb -> be_uint64 rb = value 8 rb mod 2 ^ 64.
Proof.
  intros Hb. unfold be_uint64, value.
  change 0 with (0 mod 2 ^ 64) at 1. generalize 0 as x.
  induction Hb as [| b rb Hb _ IH]; intros x; [reflexivity |].
  cbn [fold_left horner]. fold (horner 8 (x * 2 ^ 8 + b) rb).
  rewrite <- IH. f_equal.
  unfold u64. rewrite shl_mul by lia.
  rewrite Z.mul_mod_idemp_l by lia.
  change (2 ^ 64) with (2 ^ 56 * 2 ^ 8).
  rewrite Z.mul_mod_distr_r by lia.
  unfold is_u8 in Hb. rewrite lor_add by lia.
  pose proof (Z.mod_pos_bound x (2 ^ 56) ltac:(lia)).
  apply (Z.mod_unique _ _ (x / 2 ^ 56)); [lia |].
  pose proof (Z.div_mod x (2 ^ 56) ltac:(lia)). lia.
Qed.

Lemma mod64_mod60 (x : Z) : (x mod 2 ^ 64) mod 2 ^ 60 = x mod 2 ^ 60.
Proof.
  change (2 ^ 64) with (2 ^ 60 * 2 ^ 4). rewrite Z.rem_mul_r by lia.
  rewrite (Z.mul_comm (2 ^ 60)), Z.mod_add by lia. apply Z.mod_mod. lia.
Qed.

(** ** Equality and search on strings *)

Lemma string_eq_true (a b : gostring) : string_eq a b = true <-> a = b.
Proof.
  revert b. induction a as [| x a IH]; intros [| y b]; cbn [string_eq];
    try (split; [discriminate | discriminate]); [split; reflexivity |].
  rewrite andb_true_iff, Z.eqb_eq, IH. split.
  - intros [-> ->]. reflexivity.
  - intros E. injection E as -> ->. split; reflexivity.
Qed.

Lemma string_eq_refl (a : gostring) : string_eq a a = true.
Proof. apply string_eq_true. reflexivity. Qed.

Lemma string_eq_false (a b : gostring) : a <> b -> string_eq a b = false.
Proof.
  intros H. destruct (string_eq a b) eqn:E; [| reflexivity].
  apply string_eq_true in E. contradiction.
Qed.

Lemma HasPrefix_nil (s : gostring) : HasPrefix s [] = true.
Proof. destruct s; reflexivity. Qed.

(** [Contains] with a substring of one byte: whether the byte occurs. *)
Lemma Contains_byte (s : gostring) (c : Z) : Contains s [c] = true <-> In c s.
Proof.
  induction s as [| d s IH]; cbn [Contains HasPrefix In].
  - split; [discriminate | intros []].
  - rewrite orb_true_iff, IH. rewrite HasPrefix_nil, andb_true_r, Z.eqb_eq. reflexivity.
Qed.

(** An identifier holds a dash exactly when it has a checksum. *)
Lemma identifier_dash (p : gostring) (ds : list Z) (wc : bool) (cs : list Z) :
  prefixRe_MatchString p = true -> digits 5 ds ->
  Contains (identifier p ds wc cs) (str "-") = wc.
Proof.
  intros Hp Hds.
  pose proof (word_no_dash _ (canonical_base_word p ds Hp Hds)) as Hnd.
  unfold identifier. destruct wc.
  - apply (Contains_byte _ (chr "-")). apply in_or_app. right. left. reflexivity.
  - rewrite app_nil_r. destruct (Contains _ _) eqn:E; [| reflexivity].
    apply (Contains_byte _ (chr "-")) in E. contradiction.
Qed.

(** The time read back is the time written exactly for a time in range. *)
Lemma time_read_kept (t : Z) : (time_read t =? t) = time_in_range t.
Proof.
  unfold time_read, time_in_range.
  destruct (Z.ltb_spec t epoch2020) as [Hlt | Hge].
  - replace (epoch2020 <=? t) with false by (symmetry; apply Z.leb_gt; lia).
    apply Z.eqb_neq. lia.
  - replace (epoch2020 <=? t) with true by (symmetry; apply Z.leb_le; lia).
    cbn [andb].
    pose proof (Z.mod_pos_bound (t - epoch2020) (2 ^ 48) ltac:(lia)) as Hm.
    destruct (Z.ltb_spec t (epoch2020 + 2 ^ 48)) as [Hin | Hout].
    + apply Z.eqb_eq. rewrite Z.mod_small by lia. lia.
    + apply Z.eqb_neq. lia.
Qed.

(** The two [hexTo60] on what [hex.DecodeString] accepts. *)
Lemma conformance_hexTo60_value (h : gostring) (rb : list Z) :
  hex.DecodeString h = (rb, None) -> is_bytes rb ->
  conformance.hexTo60 h = inr (value 8 rb mod 2 ^ 60).
Proof.
  intros E Hb. unfold conformance.hexTo60. rewrite E.
  rewrite mask60, be_uint64_value, mod64_mod60 by assumption. reflexivity.
Qed.

Lemma test_hexTo60_value (h : gostring) (rb : list Z) :
  hex.DecodeString h = (rb, None) -> is_bytes rb -> (2 * length rb = length h)%nat ->
  spec_vectors_test.hexTo60 h
  = if len h =? 0 then inl spec_vectors_test.EmptyRandomHex
    else inr (value 8 rb mod 2 ^ 60).
Proof.
  intros E Hb Hl. unfold spec_vectors_test.hexTo60. rewrite E.
  replace (len rb =? 0) with (len h =? 0).
  2:{ unfold len. destruct (Z.eqb_spec (Z.of_nat (length h)) 0);
        symmetry; [apply Z.eqb_eq | apply Z.eqb_neq]; lia. }
  rewrite mask60, be_uint64_value, mod64_mod60 by assumption. reflexivity.
Qed.

(** ** Tampering with the last character *)

Lemma slice_to_last (x : gostring) (l : Z) : slice_to (x ++ [l]) (len (x ++ [l]) - 1) = x.
Proof.
  rewrite len_app. change (len [l]) with 1.
  replace (len x + 1 - 1) with (len x) by lia. apply firstn_len_app.
Qed.

Lemma at_last (x : gostring) (l : Z) : at_ (x ++ [l]) (len (x ++ [l]) - 1) = l.
Proof.
  rewrite len_app. change (len [l]) with 1.
  replace (len x + 1 - 1) with (len x) by lia. apply at_app_here.
Qed.

Lemma tamper_last (x : gostring) (l : Z) :
  cli.tamper (x ++ [l]) = x ++ [if l =? chr "0" then chr "1" else chr "0"].
Proof. unfold cli.tamper. rewrite slice_to_last, at_last. reflexivity. Qed.

Lemma tamper_zero_last (x : gostring) (l : Z) : tamper_zero (x ++ [l]) = x ++ [chr "0"].
Proof. unfold tamper_zero. rewrite slice_to_last. reflexivity. Qed.

(** The symbol whose character is ['0'] is 0. *)
Lemma sym_is_zero (d : Z) : 0 <= d < 2 ^ 5 -> (sym d =? chr "0") = (d =? 0).
Proof.
  intros Hd. destruct (Z.eqb_spec d 0) as [-> | N]; [reflexivity |].
  apply Z.eqb_neq. intros E. apply N.
  rewrite <- (alphaRev_sym d Hd), E. reflexivity.
Qed.

(** Splitting off the last of four. *)
Lemma four_last (cs : list Z) :
  length cs = 4%nat -> exists a b c d, cs = [a; b; c; d].
Proof.
  intros H. destruct cs as [| a [| b [| c [| d [| ? ?]]]]]; try discriminate H.
  exists a, b, c, d. reflexivity.
Qed.

(** ** The checksum engine is linear *)

Lemma land_pow2_test (b m : Z) :
  0 <= m -> (b .& 2 ^ m =? 0) = negb (Z.testbit b m).
Proof.
  intros Hm. destruct (Z.testbit b m) eqn:T; cbn [negb].
  - apply Z.eqb_neq. intros E.
    assert (H : Z.testbit (b .& 2 ^ m) m = false) by (rewrite E; apply Z.bits_0).
    rewrite Z.land_spec, T, Z.pow2_bits_true in H by lia. discriminate H.
  - apply Z.eqb_eq. apply Z.bits_inj'. intros n Hn.
    rewrite Z.land_spec, Z.bits_0.
    destruct (Z.eq_dec n m) as [-> | N]; [rewrite T; reflexivity |].
    rewrite Z.pow2_bits_false by lia. apply andb_false_r.
Qed.


Lemma gen_if (b m c G : Z) :
  0 <= m ->
  (if negb (b .& 2 ^ m =? 0) then c .^ G else c) = c .^ gen b m G.
Proof.
  intros Hm. rewrite land_pow2_test by exact Hm. unfold gen.
  destruct (Z.testbit b m); cbn [negb]; [reflexivity | symmetry; apply Z.lxor_0_r].
Qed.

Lemma gen_lxor (a x m G : Z) : gen (a .^ x) m G = gen a m G .^ gen x m G.
Proof.
  unfold gen. rewrite Z.lxor_spec.
  destruct (Z.testbit a m), (Z.testbit x m); cbn [xorb];
    rewrite ?Z.lxor_0_r, ?Z.lxor_0_l, ?Z.lxor_nilpotent; reflexivity.
Qed.


Lemma low25_up_lxor (a x : Z) : low25_up (a .^ x) = low25_up a .^ low25_up x.
Proof.
  unfold low25_up, u32. change (2 ^ 32) with (2 ^ 32).
  rewrite <- !Z.land_ones by lia.
  apply Z.bits_inj'. intros n Hn.
  rewrite ?Z.lxor_spec, ?Z.land_spec.
  destruct (Z.lt_ge_cases n 5) as [H5 | H5].
  - rewrite !Z.shiftl_spec_low by lia. reflexivity.
  - rewrite !Z.shiftl_spec by lia. rewrite !Z.land_spec, Z.lxor_spec.
    destruct (Z.testbit a (n - 5)), (Z.testbit x (n - 5)),
      (Z.testbit 0x1ffffff (n - 5)), (Z.testbit (Z.ones 32) n); reflexivity.
Qed.

(** A round, written as a sum. *)
Lemma polymod_step_sum (chk v : Z) :
  polymod_step chk v
  = low25_up chk .^ v
    .^ gen (chk >> 25) 0 0x3b6a57b2 .^ gen (chk >> 25) 1 0x26508e6d
    .^ gen (chk >> 25) 2 0x1ea119fa .^ gen (chk >> 25) 3 0x3d4233dd
    .^ gen (chk >> 25) 4 0x2a1462b3.
Proof.
  unfold polymod_step. cbv zeta. fold (low25_up chk).
  set (b := chk >> 25).
  rewrite <- (gen_if b 4 _ 0x2a1462b3), <- (gen_if b 3 _ 0x3d4233dd),
    <- (gen_if b 2 _ 0x1ea119fa), <- (gen_if b 1 _ 0x26508e6d),
    <- (gen_if b 0 _ 0x3b6a57b2) by lia.
  reflexivity.
Qed.

Lemma lxor_pair (p q g h : Z) : (p .^ q) .^ (g .^ h) = (p .^ g) .^ (q .^ h).
Proof. lxor_ac. Qed.

Lemma lxor_pairs (p q a0 x0 a1 x1 a2 x2 a3 x3 a4 x4 : Z) :
  (p .^ q) .^ (a0 .^ x0) .^ (a1 .^ x1) .^ (a2 .^ x2) .^ (a3 .^ x3) .^ (a4 .^ x4)
  = (p .^ a0 .^ a1 .^ a2 .^ a3 .^ a4) .^ (q .^ x0 .^ x1 .^ x2 .^ x3 .^ x4).
Proof.
  rewrite (lxor_pair p q a0 x0).
  rewrite (lxor_pair (p .^ a0) (q .^ x0) a1 x1).
  rewrite (lxor_pair (p .^ a0 .^ a1) (q .^ x0 .^ x1) a2 x2).
  rewrite (lxor_pair (p .^ a0 .^ a1 .^ a2) (q .^ x0 .^ x1 .^ x2) a3 x3).
  rewrite (lxor_pair (p .^ a0 .^ a1 .^ a2 .^ a3) (q .^ x0 .^ x1 .^ x2 .^ x3) a4 x4).
  reflexivity.
Qed.


(** A round is linear: a difference between two states goes through a round
    of its own. *)
Lemma polymod_step_linear (a x v : Z) :
  polymod_step (a .^ x) v = polymod_step a v .^ polymod_shift x.
Proof.
  unfold polymod_shift. rewrite !polymod_step_sum.
  rewrite Z.shiftr_lxor, low25_up_lxor, !gen_lxor.
  set (A := low25_up a). set (X := low25_up x).
  assert (E0 : A .^ X .^ v = (A .^ v) .^ (X .^ 0)) by (rewrite Z.lxor_0_r; lxor_ac).
  rewrite E0. apply lxor_pairs.
Qed.


Lemma fold_polymod_linear (vals : list Z) :
  forall c x,
  fold_left polymod_step vals (c .^ x)
  = fold_left polymod_step vals c .^ polymod_shifts (length vals) x.
Proof.
  induction vals as [| v vals IH]; intros c x; [reflexivity |].
  cbn [fold_left length polymod_shifts].
  rewrite polymod_step_linear. apply IH.
Qed.

(** One value replaced by another: the engine's result changes by the
    difference of the two, taken through the rounds that follow. *)
Lemma polymod_substitute (pre post : list Z) (d d' : Z) :
  bech32Polymod (pre ++ d' :: post)
  = bech32Polymod (pre ++ d :: post) .^ polymod_shifts (length post) (d .^ d').
Proof.
  unfold bech32Polymod. rewrite !fold_left_app. cbn [fold_left].
  rewrite <- fold_polymod_linear. f_equal.
  rewrite (polymod_step_value _ d), (polymod_step_value _ d').
  lxor_ac.
Qed.

(** After six to thirty-five rounds a difference of five bits shows in the
    low twenty bits of the state. *)
Lemma polymod_shifts_low20 (n : nat) (x : Z) :
  (6 <= n <= 35)%nat -> 1 <= x < 2 ^ 5 ->
  polymod_shifts n x .& (2 ^ 20 - 1) <> 0.
Proof.
  intros Hn Hx.
  assert (Hall : forallb (fun n => forallb (fun x =>
            negb (polymod_shifts n (Z.of_nat x) .& (2 ^ 20 - 1) =? 0))
            (seq 1 31)) (seq 6 30) = true) by (vm_compute; reflexivity).
  rewrite forallb_forall in Hall.
  specialize (Hall n ltac:(apply in_seq; lia)).
  rewrite forallb_forall in Hall.
  specialize (Hall (Z.to_nat x) ltac:(apply in_seq; lia)).
  rewrite Z2Nat.id in Hall by lia.
  apply negb_true_iff, Z.eqb_neq in Hall. exact Hall.
Qed.

(** Two different symbols differ by a value of five bits that is not 0. *)
Lemma symbol_difference (d d' : Z) :
  0 <= d < 2 ^ 5 -> 0 <= d' < 2 ^ 5 -> d <> d' -> 1 <= d .^ d' < 2 ^ 5.
Proof.
  intros Hd Hd' Hne.
  assert (Hall : forallb (fun a => forallb (fun b =>
            (Nat.eqb a b)
            || ((1 <=? Z.of_nat a .^ Z.of_nat b) && (Z.of_nat a .^ Z.of_nat b <? 2 ^ 5)))
            (seq 0 32)) (seq 0 32) = true) by (vm_compute; reflexivity).
  rewrite forallb_forall in Hall.
  specialize (Hall (Z.to_nat d) ltac:(apply in_seq; lia)).
  rewrite forallb_forall in Hall.
  specialize (Hall (Z.to_nat d') ltac:(apply in_seq; lia)).
  rewrite !Z2Nat.id in Hall by lia.
  apply orb_true_iff in Hall. destruct Hall as [E | H].
  - apply Nat.eqb_eq in E. lia.
  - apply andb_true_iff in H. destruct H as [H1 H2].
    apply Z.leb_le in H1. apply Z.ltb_lt in H2. lia.
Qed.

(** Four groups of five bits make the low twenty bits. *)
Lemma groups_low20 (X Y : Z) :
  X >> 15 .& 31 = Y >> 15 .& 31 -> X >> 10 .& 31 = Y >> 10 .& 31 ->
  X >> 5 .& 31 = Y >> 5 .& 31 -> X >> 0 .& 31 = Y >> 0 .& 31 ->
  X .& (2 ^ 20 - 1) = Y .& (2 ^ 20 - 1).
Proof.
  intros H15 H10 H5 H0.
  assert (Hbit : forall k j, 0 <= k -> 0 <= j < 5 ->
            X >> k .& 31 = Y >> k .& 31 -> Z.testbit X (j + k) = Z.testbit Y (j + k)).
  { intros k j Hk Hj H.
    apply (f_equal (fun z => Z.testbit z j)) in H.
    change 31 with (Z.ones 5) in H.
    rewrite !Z.land_spec, !Z.ones_spec_low, !andb_true_r in H by lia.
    rewrite !Z.shiftr_spec in H by lia. exact H. }
  change (2 ^ 20 - 1) with (Z.ones 20).
  apply Z.bits_inj'. intros n Hn. rewrite !Z.land_spec.
  destruct (Z.lt_ge_cases n 20) as [Hlt | Hge].
  - rewrite Z.ones_spec_low, !andb_true_r by lia.
    destruct (Z.lt_ge_cases n 5); [| destruct (Z.lt_ge_cases n 10);
      [| destruct (Z.lt_ge_cases n 15)]].
    + replace n with (n + 0) by lia. apply Hbit; [lia | lia | exact H0].
    + replace n with (n - 5 + 5) by lia. apply Hbit; [lia | lia | exact H5].
    + replace n with (n - 10 + 10) by lia. apply Hbit; [lia | lia | exact H10].
    + replace n with (n - 15 + 15) by lia. apply Hbit; [lia | lia | exact H15].
  - rewrite Z.ones_spec_high, !andb_false_r by lia. reflexivity.
Qed.

(** A difference that shows in the low twenty bits changes them. *)
Lemma low20_changed (X D : Z) :
  D .& (2 ^ 20 - 1) <> 0 -> (X .^ D) .& (2 ^ 20 - 1) <> X .& (2 ^ 20 - 1).
Proof.
  intros HD E. apply HD. apply Z.bits_inj'. intros n Hn.
  apply (f_equal (fun z => Z.testbit z n)) in E.
  rewrite !Z.land_spec, Z.lxor_spec in E. rewrite Z.land_spec, Z.bits_0.
  destruct (Z.testbit X n), (Z.testbit D n), (Z.testbit (2 ^ 20 - 1) n);
    try reflexivity; discriminate E.
Qed.

(** The four checksum characters of two states are the same only if the
    states agree in their low twenty bits. *)
Lemma checksum_symbols_inj (X Y : Z) :
  map (fun i => sym (u8 (X >> (5 * (3 - i)) .& 31))) [0; 1; 2; 3]
  = map (fun i => sym (u8 (Y >> (5 * (3 - i)) .& 31))) [0; 1; 2; 3] ->
  X .& (2 ^ 20 - 1) = Y .& (2 ^ 20 - 1).
Proof.
  cbn [map]. intros H. injection H as H15 H10 H5 H0.
  assert (Hinj : forall k, sym (u8 (X >> k .& 31)) = sym (u8 (Y >> k .& 31)) ->
            X >> k .& 31 = Y >> k .& 31).
  { intros k E. pose proof (mask31 (X >> k)) as HX. pose proof (mask31 (Y >> k)) as HY.
    apply (f_equal alphaRev) in E. rewrite !alphaRev_sym in E by assumption.
    change 31 with (2 ^ 5 - 1) in *. rewrite !land_mask in * by lia.
    rewrite !u8_small in E; [exact E | |];
      match goal with |- 0 <= ?a mod ?b < _ =>
        pose proof (Z.mod_pos_bound a b ltac:(lia)); lia end. }
  apply groups_low20; apply Hinj; assumption.
Qed.

Section CodecProperties.

Variable lowerUnicode : gostring -> gostring.
Variable foldUnicode : Z -> Z -> bool.

Local Abbreviation ToLower := (ToLower lowerUnicode).
Local Abbreviation EqualFold := (EqualFold foldUnicode).
Local Abbreviation checksum4Base := (checksum4Base lowerUnicode).
Local Abbreviation split_checksum := (split_checksum lowerUnicode foldUnicode).
Local Abbreviation Parse := (Parse lowerUnicode foldUnicode).
Local Abbreviation NewFromParts := (NewFromParts lowerUnicode).
Local Abbreviation New := (New lowerUnicode).
Local Abbreviation assemble := (assemble lowerUnicode).

(** ** Checksum of a canonical base string *)

Lemma ToLower_word (s : gostring) : Forall (fun c => is_word c = true) s -> ToLower s = s.
Proof.
  intros H. unfold ToLower.
  replace (forallb (fun c => c <? RuneSelf) s) with true.
  - induction H as [| c s Hc _ IH]; [reflexivity |].
    cbn [map]. rewrite IH. f_equal. unfold lower1.
    destruct (is_word_plain c Hc) as (_ & _ & Hup & _). rewrite Hup. reflexivity.
  - symmetry. apply forallb_forall. intros c Hin.
    rewrite Forall_forall in H. destruct (is_word_plain c (H c Hin)) as (Hc & _).
    apply Z.ltb_lt. exact Hc.
Qed.

(** [checksum4Base] returns four symbols on every canonical base string. *)
Lemma checksum4Base_canonical (p : gostring) (ds : list Z) :
  prefixRe_MatchString p = true -> digits 5 ds ->
  exists cs,
    checksum4Base (canonical_base p ds) = Ok (map sym cs)
    /\ length cs = 4%nat /\ digits 5 cs.
Proof.
  intros Hp Hds. destruct (prefix_chars p Hp) as (_ & Hchars & Hlen).
  unfold checksum4Base, canonical_base.
  rewrite IndexByte_canonical by assumption.
  replace (len p <=? 0) with false by (symmetry; apply Z.leb_gt; lia).
  change (str "_" ++ map sym ds) with (chr "_" :: map sym ds).
  rewrite skipn_len_app.
  rewrite ToLower_word.
  2:{ apply Forall_map. eapply Forall_impl; [| exact Hds].
      intros d Hd. apply lower_or_digit_word, sym_is_word. exact Hd. }
  rewrite payloadTo5bits_sym by assumption. cbn [bind map].
  eexists [_; _; _; _]. split; [reflexivity |]. split; [reflexivity |].
  repeat (apply Forall_cons; [apply mask31 |]). apply Forall_nil.
Qed.

(** The checksum of a canonical base string, written out. *)
Lemma checksum4Base_canonical_value (p : gostring) (ds : list Z) :
  prefixRe_MatchString p = true -> digits 5 ds ->
  checksum4Base (canonical_base p ds)
  = Ok (map (fun i =>
              sym (u8 ((bech32Polymod ((hrpExpand (p ++ str "_") ++ ds) ++ [0; 0; 0; 0]) .^ 1)
                       >> (5 * (3 - i)) .& 31)))
          [0; 1; 2; 3]).
Proof.
  intros Hp Hds. destruct (prefix_chars p Hp) as (_ & Hchars & Hlen).
  unfold checksum4Base, canonical_base.
  rewrite IndexByte_canonical by assumption.
  replace (len p <=? 0) with false by (symmetry; apply Z.leb_gt; lia).
  change (str "_" ++ map sym ds) with (chr "_" :: map sym ds).
  rewrite skipn_len_app, slice_to_sep.
  rewrite (ToLower_word (map sym ds)) by (apply symbols_word; exact Hds).
  rewrite (ToLower_word (p ++ [chr "_"])).
  2:{ apply Forall_app. split.
      - eapply Forall_impl; [| exact Hchars]. intros c. apply lower_or_digit_word.
      - constructor; [reflexivity | constructor]. }
  rewrite payloadTo5bits_sym by assumption. reflexivity.
Qed.

(** The last two characters of the payload never reach the checksum. *)
Lemma checksum4Base_blind_to_last_two (p : gostring) (ds : list Z) (e d e' d' : Z) :
  prefixRe_MatchString p = true -> digits 5 ds ->
  0 <= e < 2 ^ 5 -> 0 <= d < 2 ^ 5 -> 0 <= e' < 2 ^ 5 -> 0 <= d' < 2 ^ 5 ->
  checksum4Base (canonical_base p (ds ++ [e; d]))
  = checksum4Base (canonical_base p (ds ++ [e'; d'])).
Proof.
  intros Hp Hds He Hd He' Hd'.
  assert (Hzero : forall x y, 0 <= x < 2 ^ 5 -> 0 <= y < 2 ^ 5 ->
            checksum4Base (canonical_base p (ds ++ [x; y]))
            = checksum4Base (canonical_base p (ds ++ [0; 0]))).
  { intros x y Hx Hy.
    rewrite !checksum4Base_canonical_value; try assumption;
      try (apply Forall_app; split; [assumption |];
           repeat (apply Forall_cons; [lia |]); apply Forall_nil).
    rewrite <- !app_assoc. cbn [app].
    rewrite !(app_assoc (hrpExpand (p ++ str "_")) ds).
    rewrite (polymod_last_two _ x y) by assumption.
    cbn [map].
    change (5 * (3 - 0)) with 15. change (5 * (3 - 1)) with 10.
    change (5 * (3 - 2)) with 5. change (5 * (3 - 3)) with 0.
    rewrite !checksum_symbol_low by lia. reflexivity. }
  rewrite (Hzero e d), (Hzero e' d') by assumption. reflexivity.
Qed.

(** ** Case-insensitive comparison *)

Lemma EqualFold_refl_ascii (s : gostring) :
  Forall (fun c => 0 <= c < RuneSelf) s -> EqualFold s s = true.
Proof.
  intros H. induction H as [| c s Hc _ IH]; [reflexivity |].
  cbn [EqualFold]. rewrite Z.lor_diag.
  replace (RuneSelf <=? c) with false by (symmetry; apply Z.leb_gt; lia).
  rewrite Z.eqb_refl. exact IH.
Qed.

(** ** The checksum block of [Parse] *)

Lemma split_checksum_plain (s : gostring) :
  Forall (fun c => is_word c = true) s -> split_checksum s = Ok s.
Proof.
  intros H. unfold split_checksum.
  rewrite LastIndexByte_absent by (apply word_no_dash; exact H). reflexivity.
Qed.

Lemma split_checksum_suffix (p : gostring) (ds cs : list Z) :
  prefixRe_MatchString p = true -> digits 5 ds ->
  checksum4Base (canonical_base p ds) = Ok (map sym cs) ->
  length cs = 4%nat -> digits 5 cs ->
  split_checksum (canonical_base p ds ++ str "-" ++ map sym cs)
  = Ok (canonical_base p ds).
Proof.
  intros Hp Hds Hsum Hlen Hcs. unfold split_checksum.
  change (str "-" ++ map sym cs) with (chr "-" :: map sym cs).
  assert (Hnd : ~ In (chr "-") (map sym cs)).
  { apply word_no_dash. apply Forall_map. eapply Forall_impl; [| exact Hcs].
    intros d Hd. apply lower_or_digit_word, sym_is_word. exact Hd. }
  rewrite LastIndexByte_app by exact Hnd.
  pose proof (len_nonneg (canonical_base p ds)).
  replace (0 <=? len (canonical_base p ds)) with true by (symmetry; apply Z.leb_le; lia).
  rewrite firstn_len_app, skipn_len_app.
  replace (len (map sym cs) =? 4) with true
    by (unfold len; rewrite length_map, Hlen; reflexivity).
  cbn [negb]. rewrite Hsum. cbn [bind].
  rewrite EqualFold_refl_ascii; [reflexivity |].
  apply Forall_map. eapply Forall_impl; [| exact Hcs].
  intros d Hd. apply sym_ascii. exact Hd.
Qed.

(** ** Parsing what the generators assemble *)

(** [Parse] from the point where the base string is known. *)
Lemma Parse_canonical_base (s : gostring) (p : gostring) (ds body : list Z) :
  prefixRe_MatchString p = true ->
  length ds = 32%nat -> digits 5 ds ->
  b32decode (map sym ds) = Ok body ->
  TrimSpace s = s ->
  split_checksum s = Ok (canonical_base p ds) ->
  Parse s = (do f <- unpack body; Ok (parsed_of p f)).
Proof.
  intros Hp Hlen Hds Hdec Htrim Hsplit.
  destruct (prefix_chars p Hp) as (_ & _ & Hplen).
  unfold Parse. rewrite Htrim, Hsplit. cbn [bind].
  unfold canonical_base. rewrite IndexByte_canonical by assumption.
  replace (len p <=? 0) with false by (symmetry; apply Z.leb_gt; lia).
  change (str "_" ++ map sym ds) with (chr "_" :: map sym ds).
  rewrite firstn_len_app, skipn_len_app, Hp. cbn [negb].
  replace (len (map sym ds) =? 32) with true
    by (unfold len; rewrite length_map, Hlen; reflexivity).
  cbn [negb]. rewrite check_symbols_accepted by (apply symbols_accepted; exact Hds).
  cbn [bind]. rewrite Hdec. cbn [bind].
  destruct (unpack body) as [[[[[[ms fl] te] sq] sh] rn] | e | pn]; reflexivity.
Qed.

(** Every string the generators assemble from a valid prefix and a body of
    twenty bytes parses, to the fields [unpack] reads from that body. *)
Lemma Parse_assemble (p : gostring) (body : list Z) (wc : bool) :
  prefixRe_MatchString p = true -> length body = 20%nat -> is_bytes body ->
  exists payload s,
    b32encode body = Ok payload
    /\ assemble p payload wc = Ok s
    /\ Parse s = (do f <- unpack body; Ok (parsed_of p f)).
Proof.
  intros Hp Hl Hb.
  destruct (b32encode_spec body Hl Hb) as (ds & Henc & Hlen & Hds & _).
  pose proof (b32decode_encoded body ds Hl Hb Henc) as Hdec.
  pose proof (canonical_base_word p ds Hp Hds) as Hword.
  assert (Hne : canonical_base p ds <> []).
  { unfold canonical_base. destruct p; [discriminate Hp | discriminate]. }
  exists (map sym ds). unfold assemble. fold (canonical_base p ds).
  destruct wc.
  - destruct (checksum4Base_canonical p ds Hp Hds) as (cs & Hsum & Hcl & Hcs).
    rewrite Hsum. cbn [bind].
    exists (canonical_base p ds ++ str "-" ++ map sym cs).
    split; [exact Henc |]. split; [reflexivity |].
    apply (Parse_canonical_base _ p ds body); try assumption.
    + apply TrimSpace_id.
      * destruct (canonical_base p ds); [contradiction | discriminate].
      * apply Forall_app. split; [apply word_no_space; exact Hword |].
        apply Forall_app. split.
        -- constructor; [split; reflexivity | constructor].
        -- apply word_no_space, symbols_word. exact Hcs.
    + apply split_checksum_suffix; assumption.
  - exists (canonical_base p ds).
    split; [exact Henc |]. split; [reflexivity |].
    apply (Parse_canonical_base _ p ds body); try assumption.
    + apply TrimSpace_id; [exact Hne | apply word_no_space; exact Hword].
    + apply split_checksum_plain. exact Hword.
Qed.

(** ** Round trip through the two public operations *)

(** C1. For a prefix matching the pattern, a time at or after the epoch
    that fits 48 bits once shifted, and any flags, tenant, seq, shard and
    random, [Parse (NewFromParts c withChecksum)] succeeds, with or without
    checksum, and returns the prefix, time, flags, tenant and shard of [c],
    its seq modulo 4096 and its random modulo [2 ^ 60]. *)
Theorem Parse_NewFromParts (c : Components) (withChecksum : bool) :
  prefixRe_MatchString (c_Prefix c) = true ->
  epoch2020 <= c_TimeMs c < epoch2020 + 2 ^ 48 ->
  is_u8 (c_Flags c) -> is_u16 (c_Tenant c) -> is_u16 (c_Seq c) ->
  is_u16 (c_Shard c) -> is_u64 (c_Random60 c) ->
  exists s,
    NewFromParts c withChecksum = Ok s
    /\ Parse s = Ok {| Prefix := c_Prefix c;
                       TimeMs := c_TimeMs c;
                       Flags := c_Flags c;
                       Tenant := c_Tenant c;
                       Seq := c_Seq c mod 4096;
                       Shard := c_Shard c;
                       Random := c_Random60 c mod 2 ^ 60 |}.
Proof.
  intros Hp Ht Hfl Hte Hsq Hsh Hrn. unfold epoch2020 in Ht.
  unfold NewFromParts, validatePrefix. rewrite Hp. cbn [negb bind].
  replace (epoch2020 <=? c_TimeMs c) with true
    by (symmetry; apply Z.leb_le; unfold epoch2020; lia).
  rewrite i64_small by (unfold epoch2020; lia).
  rewrite u64_small by (unfold epoch2020; lia).
  rewrite mask12, mask60.
  set (body := pack _ _ _ _ _ _).
  destruct (Parse_assemble (c_Prefix c) body withChecksum Hp)
    as (payload & s & Henc & Hasm & Hparse).
  { reflexivity. }
  { apply pack_is_bytes. exact Hfl. }
  rewrite Henc. cbn [bind]. exists s. split; [exact Hasm |].
  rewrite Hparse. unfold body. rewrite unpack_pack_masked by assumption.
  cbn [bind parsed_of]. rewrite !Z.mod_mod by lia.
  rewrite (Z.mod_small (c_TimeMs c - epoch2020)) by (unfold epoch2020; lia).
  rewrite (i64_small (c_TimeMs c - epoch2020)) by (unfold epoch2020; lia).
  rewrite i64_small by (unfold epoch2020; lia).
  repeat f_equal. lia.
Qed.

(** ** Order of identifiers *)

(** What [NewFromParts] returns without checksum for components in range:
    the prefix, the separator, and the encoding of the packed fields. *)
Lemma NewFromParts_plain (c : Components) :
  prefixRe_MatchString (c_Prefix c) = true -> components_in_range c ->
  exists payload,
    b32encode (pack_fields (fields_of c)) = Ok payload
    /\ NewFromParts c false = Ok (c_Prefix c ++ str "_" ++ payload).
Proof.
  intros Hp (Ht & Hfl & Hte & Hsq & Hsh & Hrn). unfold epoch2020 in Ht.
  unfold NewFromParts, validatePrefix. rewrite Hp. cbn [negb bind].
  replace (epoch2020 <=? c_TimeMs c) with true
    by (symmetry; apply Z.leb_le; unfold epoch2020; lia).
  rewrite i64_small by (unfold epoch2020; lia).
  rewrite u64_small by (unfold epoch2020; lia).
  rewrite mask12, mask60. unfold pack_fields, fields_of.
  set (body := pack _ _ _ _ _ _).
  destruct (b32encode_spec body) as (ds & Henc & _).
  { reflexivity. }
  { apply pack_is_bytes. exact Hfl. }
  exists (map sym ds). rewrite Henc. split; reflexivity.
Qed.

(** C4, as the code has it.  Comparing two packed bodies byte by byte is
    comparing the tuples [(time, flags, tenant, seq, shard, random)]; so is
    comparing two identifiers without checksum that share their prefix.
    Hence the earlier of two in-range times sorts strictly first, and
    identifiers equal in time, flags and tenant sort by seq, then shard,
    then random. *)
Theorem ksortable (c1 c2 : Components) :
  prefixRe_MatchString (c_Prefix c1) = true -> c_Prefix c1 = c_Prefix c2 ->
  components_in_range c1 -> components_in_range c2 ->
  exists s1 s2,
    NewFromParts c1 false = Ok s1 /\ NewFromParts c2 false = Ok s2
    /\ lex_compare (pack_fields (fields_of c1)) (pack_fields (fields_of c2))
       = fields_compare (fields_of c1) (fields_of c2)
    /\ lex_compare s1 s2 = fields_compare (fields_of c1) (fields_of c2)
    /\ (c_TimeMs c1 < c_TimeMs c2 -> lex_compare s1 s2 = Lt)
    /\ (c_TimeMs c1 = c_TimeMs c2 -> c_Flags c1 = c_Flags c2 ->
        c_Tenant c1 = c_Tenant c2 ->
        lex_compare s1 s2 =
        then_compare (c_Seq c1 mod 2 ^ 12 ?= c_Seq c2 mod 2 ^ 12)
          (then_compare (c_Shard c1 ?= c_Shard c2)
             (c_Random60 c1 mod 2 ^ 60 ?= c_Random60 c2 mod 2 ^ 60))).
Proof.
  intros Hp1 Hpp Hr1 Hr2.
  assert (Hp2 : prefixRe_MatchString (c_Prefix c2) = true) by (rewrite <- Hpp; exact Hp1).
  destruct (NewFromParts_plain c1 Hp1 Hr1) as (pl1 & Henc1 & Hnew1).
  destruct (NewFromParts_plain c2 Hp2 Hr2) as (pl2 & Henc2 & Hnew2).
  pose proof (fields_of_in_range c1 Hr1) as Hf1.
  pose proof (fields_of_in_range c2 Hr2) as Hf2.
  pose proof (pack_compare _ _ Hf1 Hf2) as Hbody.
  assert (Hstr : lex_compare (c_Prefix c1 ++ str "_" ++ pl1) (c_Prefix c2 ++ str "_" ++ pl2)
                 = fields_compare (fields_of c1) (fields_of c2)).
  { rewrite <- Hpp, !app_assoc, lex_compare_app, <- Hbody.
    destruct Hr1 as (_ & Hfl1 & _). destruct Hr2 as (_ & Hfl2 & _).
    apply b32encode_compare; try assumption; try reflexivity;
      apply pack_is_bytes; assumption. }
  exists (c_Prefix c1 ++ str "_" ++ pl1), (c_Prefix c2 ++ str "_" ++ pl2).
  split; [exact Hnew1 |]. split; [exact Hnew2 |]. split; [exact Hbody |].
  split; [exact Hstr |]. rewrite Hstr. unfold fields_compare, fields_of. split.
  - intros Hlt.
    replace (c_TimeMs c1 - epoch2020 ?= c_TimeMs c2 - epoch2020) with Lt
      by (symmetry; apply Z.compare_lt_iff; lia).
    reflexivity.
  - intros -> -> ->. rewrite !Z.compare_refl. reflexivity.
Qed.

(** ** The known vector *)



(** ** Failures of the checksum and of error reporting *)

(** C6.  The checksum does not change when the last character of the
    payload does: [checksum4Base] keeps the low 20 bits of the polymod,
    which the last two payload symbols never reach.  [Parse] accepts the
    altered identifier under the checksum of the original, and returns
    another random field. *)
Theorem checksum_ignores_last_payload_character :
  checksum4Base (str "order_00myngy59c0003000dfk59mg3e36j3rr") = Ok (str "9xgg")
  /\ checksum4Base (str "order_00myngy59c0003000dfk59mg3e36j3r0") = Ok (str "9xgg")
  /\ checksum4Base (str "order_00myngy59c0003000dfk59mg3e36j300") = Ok (str "9xgg")
  /\ alphaRev (chr "r") = 24 /\ alphaRev (chr "0") = 0
  /\ Parse (str "order_00myngy59c0003000dfk59mg3e36j3rr-9xgg")
     = Ok (mkParsed (str "order") 1757869157707 0 12 0 13811 190998482103373592)
  /\ Parse (str "order_00myngy59c0003000dfk59mg3e36j3r0-9xgg")
     = Ok (mkParsed (str "order") 1757869157707 0 12 0 13811 190998482103373568).
Proof. vm_compute. repeat split. Qed.

(** C7.  [Parse] does not turn every malformed input into an error: when a
    suffix of four characters follows the last ['-'], the checksum is
    computed before the base string is validated, and [checksum4Base]
    panics on a base string without separator or with a character that is
    no symbol.  Without the suffix the same base strings are rejected with
    an error. *)
Theorem Parse_panics_on_malformed_base :
  Parse (str "x-0000") = Panic PanicBadBase
  /\ Parse (str "order_!-0000") = Panic PanicInvalidPayload
  /\ Parse (str "x") = Err ErrMissingSeparator
  /\ Parse (str "order_!") = Err ErrPayloadLength.
Proof. vm_compute. repeat split. Qed.

(** C8.  [New] does not clamp a clock before the epoch: one millisecond
    before 2020 the time field of the body is [2 ^ 48 - 1], all ones, where
    [NewFromParts] packs [0] for the same instant. *)
Theorem New_wraps_before_epoch :
  New (str "order") [] (epoch2020 - 1) (Some [0; 0; 0; 0; 0; 0; 0; 0]) (0, 0)
  = (Ok (str "order_zzzzzzzzzw0000000000000000000000"), (-1, 0))
  /\ (do body <- b32decode (str "zzzzzzzzzw0000000000000000000000"); unpack body)
     = Ok (2 ^ 48 - 1, 0, 0, 0, 0, 0)
  /\ NewFromParts (mkComponents (str "order") (epoch2020 - 1) 0 0 0 0 0) false
     = Ok (str "order_00000000000000000000000000000000")
  /\ (do body <- b32decode (str "00000000000000000000000000000000"); unpack body)
     = Ok (0, 0, 0, 0, 0, 0).
Proof. vm_compute. repeat split. Qed.

(** ** Sequence generator *)

(** One call of [New]: the state moves by [sequence_step], and the
    identifier carries the counter of the new state. *)
Lemma New_step (prefix : gostring) (opts : list Option) (now : Z) (rnd : list Z)
    (st : seq_state) :
  New_ready prefix opts rnd ->
  exists id p,
    New prefix opts now (Some rnd) st
    = (Ok id, sequence_step st (incoming_ms (resolve_options opts) now))
    /\ Parse id = Ok p
    /\ Seq p = snd (sequence_step st (incoming_ms (resolve_options opts) now)).
Proof.
  intros (Hp & Hte & Hsh & Hbs & Hlen & Hrnd).
  unfold New. rewrite Hp. cbn [negb].
  change (fold_left (fun o fn => fn o) opts (mkOptions 0 0 false 0))
    with (resolve_options opts).
  set (o := resolve_options opts) in *.
  replace ((0 <? bucketSeconds o) && (i64 (bucketSeconds o * 1000) =? 0)) with false.
  2:{ symmetry. destruct (Z.ltb_spec 0 (bucketSeconds o)) as [H | H]; [| reflexivity].
      apply Z.eqb_neq, Hbs, H. }
  change (i64 ((if 0 <? bucketSeconds o
                then i64 (i64 (now ÷ i64 (bucketSeconds o * 1000))
                          * i64 (bucketSeconds o * 1000))
                else now) - epoch2020))
    with (incoming_ms o now).
  set (ms := incoming_ms o now).
  rewrite seq_step_spec.
  set (st' := sequence_step st ms).
  set (flags := if 0 <? bucketSeconds o then 0 .| privacyBitMask else 0).
  assert (Hfl : is_u8 flags).
  { unfold flags, is_u8. destruct (0 <? bucketSeconds o); cbn; lia. }
  set (body := pack _ _ _ _ _ _).
  destruct (Parse_assemble prefix body (withChecksum o) Hp)
    as (payload & s & Henc & Hasm & Hparse).
  { reflexivity. }
  { apply pack_is_bytes. exact Hfl. }
  rewrite Henc. cbn [bind].
  change (if withChecksum o
          then do cs <- checksum4Base (prefix ++ str "_" ++ payload);
               Ok ((prefix ++ str "_" ++ payload) ++ str "-" ++ cs)
          else Ok (prefix ++ str "_" ++ payload))
    with (assemble prefix payload (withChecksum o)).
  rewrite Hasm.
  unfold body in Hparse. rewrite unpack_pack_masked in Hparse by assumption.
  cbn [bind] in Hparse.
  eexists s, _. split; [reflexivity |]. split; [exact Hparse |].
  cbn [parsed_of Seq]. apply Z.mod_small. apply sequence_step_range.
Qed.

(** C9.  Every call of [New] moves the state [(last_ms, counter)] as the
    specification says: when the incoming millisecond is [last_ms] the
    counter becomes [(counter + 1) mod 4096], otherwise the state becomes
    [(incoming ms, 0)]; the identifier carries the counter of the new
    state.  So of two calls in a row with the same incoming millisecond,
    the second carries the seq of the first plus one, modulo 4096. *)
Theorem sequence_generator
    (prefix1 prefix2 : gostring) (opts1 opts2 : list Option)
    (now1 now2 : Z) (rnd1 rnd2 : list Z) (st : seq_state) :
  New_ready prefix1 opts1 rnd1 -> New_ready prefix2 opts2 rnd2 ->
  exists id1 id2 p1 p2 st1 st2,
    New prefix1 opts1 now1 (Some rnd1) st = (Ok id1, st1)
    /\ st1 = sequence_step st (incoming_ms (resolve_options opts1) now1)
    /\ Parse id1 = Ok p1 /\ Seq p1 = snd st1
    /\ New prefix2 opts2 now2 (Some rnd2) st1 = (Ok id2, st2)
    /\ st2 = sequence_step st1 (incoming_ms (resolve_options opts2) now2)
    /\ Parse id2 = Ok p2 /\ Seq p2 = snd st2
    /\ (incoming_ms (resolve_options opts1) now1
        = incoming_ms (resolve_options opts2) now2 ->
        Seq p2 = (Seq p1 + 1) mod 4096).
Proof.
  intros H1 H2.
  destruct (New_step prefix1 opts1 now1 rnd1 st H1) as (id1 & p1 & Hn1 & Hp1 & Hs1).
  set (st1 := sequence_step st (incoming_ms (resolve_options opts1) now1)) in *.
  destruct (New_step prefix2 opts2 now2 rnd2 st1 H2) as (id2 & p2 & Hn2 & Hp2 & Hs2).
  exists id1, id2, p1, p2, st1,
    (sequence_step st1 (incoming_ms (resolve_options opts2) now2)).
  repeat (split; [ first [ eassumption | reflexivity ] | ]).
  intros Hms. rewrite Hs2, Hs1, <- Hms. unfold st1.
  destruct st as [lastMs counter]. unfold sequence_step.
  destruct (incoming_ms (resolve_options opts1) now1 =? lastMs) eqn:E;
    cbn [snd]; rewrite ?Z.eqb_refl; [rewrite E |]; reflexivity.
Qed.

(** ** Where [Parse] does return a record or an error *)

(** On input without ['-'], whatever its bytes, [Parse] returns a record or
    an error: every panic of [Parse] lies behind a checksum suffix. *)
Lemma Parse_without_dash (s : gostring) :
  ~ In (chr "-") (TrimSpace s) ->
  (exists r, Parse s = Ok r) \/ (exists e, Parse s = Err e).
Proof.
  intros Hdash. unfold Parse, split_checksum.
  rewrite LastIndexByte_absent by exact Hdash. cbn [Z.leb Z.compare bind].
  set (base := TrimSpace s).
  destruct (IndexByte base (chr "_") <=? 0); [right; eexists; reflexivity |].
  destruct (negb (prefixRe_MatchString _)); [right; eexists; reflexivity |].
  set (payload := slice_from base _).
  destruct (Z.eqb_spec (len payload) 32) as [Hlen | Hlen]; cbn [negb];
    [| right; eexists; reflexivity].
  destruct (check_symbols_cases payload 0) as [[Hok Hall] | [k Herr]].
  - rewrite Hok. cbn [bind].
    destruct (b32decode_spec payload) as (es & Hdec & Hl & _); [unfold len in Hlen; lia | exact Hall |].
    rewrite Hdec. cbn [bind].
    destruct (unpack_returns es Hl) as ([[[[[ms fl] te] sq] sh] rn] & Hun).
    rewrite Hun. cbn [bind]. left. eexists. reflexivity.
  - rewrite Herr. right. eexists. reflexivity.
Qed.

(** ** The time field before the epoch *)

(** [NewFromParts] clamps: for a time before the epoch the identifier
    carries time field [0], and parses to the epoch itself. *)
Lemma NewFromParts_before_epoch (c : Components) (wc : bool) :
  prefixRe_MatchString (c_Prefix c) = true ->
  c_TimeMs c < epoch2020 ->
  is_u8 (c_Flags c) -> is_u16 (c_Tenant c) -> is_u16 (c_Shard c) ->
  exists s p,
    NewFromParts c wc = Ok s /\ Parse s = Ok p /\ TimeMs p = epoch2020.
Proof.
  intros Hp Ht Hfl Hte Hsh.
  unfold NewFromParts, validatePrefix. rewrite Hp. cbn [negb bind].
  replace (epoch2020 <=? c_TimeMs c) with false by (symmetry; apply Z.leb_gt; exact Ht).
  set (body := pack _ _ _ _ _ _).
  destruct (Parse_assemble (c_Prefix c) body wc Hp)
    as (payload & s & Henc & Hasm & Hparse).
  { reflexivity. }
  { apply pack_is_bytes. exact Hfl. }
  rewrite Henc. cbn [bind].
  unfold body in Hparse. rewrite unpack_pack_masked in Hparse by assumption.
  cbn [bind] in Hparse.
  eexists s, _. split; [exact Hasm |]. split; [exact Hparse |]. reflexivity.
Qed.

(** [New] does not: without bucketing, a clock less than [2 ^ 48]
    milliseconds before the epoch gives an identifier whose time field is
    the wrapped difference, so that it parses to a time [2 ^ 48]
    milliseconds after the clock. *)
Lemma New_before_epoch (prefix : gostring) (opts : list Option) (now : Z)
    (rnd : list Z) (st : seq_state) :
  New_ready prefix opts rnd ->
  bucketSeconds (resolve_options opts) <= 0 ->
  epoch2020 - 2 ^ 48 <= now < epoch2020 ->
  exists id p st',
    New prefix opts now (Some rnd) st = (Ok id, st')
    /\ Parse id = Ok p /\ TimeMs p = now + 2 ^ 48.
Proof.
  intros (Hp & Hte & Hsh & Hbs & Hlen & Hrnd) Hno Hnow. unfold epoch2020 in Hnow.
  unfold New. rewrite Hp. cbn [negb].
  change (fold_left (fun o fn => fn o) opts (mkOptions 0 0 false 0))
    with (resolve_options opts).
  set (o := resolve_options opts) in *.
  replace (0 <? bucketSeconds o) with false by (symmetry; apply Z.ltb_ge; exact Hno).
  cbn [andb]. rewrite seq_step_spec.
  set (st' := sequence_step st _).
  set (body := pack _ _ _ _ _ _).
  destruct (Parse_assemble prefix body (withChecksum o) Hp)
    as (payload & s & Henc & Hasm & Hparse).
  { reflexivity. }
  { apply pack_is_bytes. unfold is_u8. lia. }
  rewrite Henc. cbn [bind].
  change (if withChecksum o
          then do cs <- checksum4Base (prefix ++ str "_" ++ payload);
               Ok ((prefix ++ str "_" ++ payload) ++ str "-" ++ cs)
          else Ok (prefix ++ str "_" ++ payload))
    with (assemble prefix payload (withChecksum o)).
  rewrite Hasm.
  unfold body in Hparse. rewrite unpack_pack_masked in Hparse by (unfold is_u8; assumption || lia).
  cbn [bind] in Hparse.
  eexists s, _, st'. split; [reflexivity |]. split; [exact Hparse |].
  cbn [parsed_of TimeMs].
  rewrite (i64_small (now - epoch2020)) by (unfold epoch2020; lia).
  assert (E : u64 (now - epoch2020) mod 2 ^ 48 = now - epoch2020 + 2 ^ 48).
  { unfold u64. change (2 ^ 64) with (2 ^ 48 * 2 ^ 16).
    rewrite Z.rem_mul_r by lia.
    rewrite (Z.mul_comm (2 ^ 48)), Z.mod_add by lia. rewrite Z.mod_mod by lia.
    unfold epoch2020.
    symmetry. apply (Z.mod_unique _ _ (-1)); lia. }
  rewrite E. rewrite (i64_small (now - epoch2020 + 2 ^ 48)) by (unfold epoch2020; lia).
  rewrite i64_small by (unfold epoch2020; lia). lia.
Qed.

(** ** What a successful [Parse] has read *)

(** A successful [Parse] has split its trimmed argument (less the checked
    suffix) at the first separator into a prefix that matches the pattern
    and thirty-two accepted characters; the record holds the fields of the
    twenty bytes these decode to. *)
Lemma Parse_Ok_inv (s : gostring) (r : Parsed) :
  Parse s = Ok r ->
  exists p payload body f,
    split_checksum (TrimSpace s) = Ok (p ++ str "_" ++ payload)
    /\ prefixRe_MatchString p = true
    /\ length payload = 32%nat /\ Forall accepted payload
    /\ b32decode payload = Ok body
    /\ length body = 20%nat /\ is_bytes body
    /\ unpack body = Ok f /\ fields_in_range f /\ pack_fields f = body
    /\ r = parsed_of p f.
Proof.
  unfold Parse. intros H.
  destruct (split_checksum (TrimSpace s)) as [base | e | pn] eqn:Hsplit;
    cbn [bind] in H; try discriminate H.
  destruct (Z.leb_spec (IndexByte base (chr "_")) 0) as [Hi | Hi]; [discriminate H |].
  destruct (IndexByte_found base (chr "_")) as (p & payload & -> & Hp & Ei); [lia |].
  rewrite Ei in H. rewrite firstn_len_app, skipn_len_app in H.
  destruct (prefixRe_MatchString p) eqn:Hre; cbn [negb] in H; [| discriminate H].
  destruct (Z.eqb_spec (len payload) 32) as [Hl | Hl]; cbn [negb] in H; [| discriminate H].
  assert (Hlen : length payload = 32%nat) by (unfold len in Hl; lia).
  destruct (check_symbols_cases payload 0) as [[Hc Hacc] | [k Hc]];
    rewrite Hc in H; cbn [bind] in H; [| discriminate H].
  destruct (b32decode_spec payload Hlen Hacc) as (body & Hdec & Hbl & Hb & _).
  rewrite Hdec in H. cbn [bind] in H.
  assert (Hbytes : is_bytes body) by exact Hb.
  destruct (unpack_then_pack body Hbl Hbytes) as (f & Hun & Hr & Hpk).
  rewrite Hun in H. cbn [bind] in H.
  exists p, payload, body, f.
  split; [reflexivity |].
  repeat (split; [assumption |]).
  destruct f as [[[[[ms fl] te] sq] sh] rn]. injection H as <-. reflexivity.
Qed.

(** X4. Whatever [Parse] returns without error lies within the layout: the
    prefix matches the pattern, the time is at or after the epoch and less
    than [2 ^ 48] milliseconds past it, seq is below 4096, random below
    [2 ^ 60], and flags, tenant and shard have their Go types. *)
Theorem Parse_in_range (s : gostring) (r : Parsed) :
  Parse s = Ok r ->
  prefixRe_MatchString (Prefix r) = true
  /\ epoch2020 <= TimeMs r < epoch2020 + 2 ^ 48
  /\ is_u8 (Flags r) /\ is_u16 (Tenant r) /\ 0 <= Seq r < 2 ^ 12
  /\ is_u16 (Shard r) /\ 0 <= Random r < 2 ^ 60.
Proof.
  intros H.
  destruct (Parse_Ok_inv s r H)
    as (p & payload & body & f & _ & Hp & _ & _ & _ & _ & _ & _ & Hr & _ & ->).
  destruct f as [[[[[ms fl] te] sq] sh] rn].
  destruct Hr as (Hms & Hfl & Hte & Hsq & Hsh & Hrn).
  cbn [parsed_of Prefix TimeMs Flags Tenant Seq Shard Random].
  rewrite (i64_small ms) by lia.
  rewrite i64_small by (unfold epoch2020; lia).
  unfold is_u8, is_u16. repeat split; try assumption; try lia.
Qed.

(** ** Regenerating a parsed identifier *)

(** [NewFromParts] on fields within the layout, the time counted from the
    epoch: the string it returns parses to these fields. *)
Lemma NewFromParts_of_fields (p : gostring) (wc : bool)
    (ms fl te sq sh rn : Z) :
  prefixRe_MatchString p = true -> fields_in_range (ms, fl, te, sq, sh, rn) ->
  exists s,
    NewFromParts (mkComponents p (ms + epoch2020) fl te sq sh rn) wc = Ok s
    /\ Parse s = Ok (parsed_of p (ms, fl, te, sq, sh, rn)).
Proof.
  intros Hp (Hms & Hfl & Hte & Hsq & Hsh & Hrn).
  unfold NewFromParts, validatePrefix.
  cbn [c_Prefix c_TimeMs c_Flags c_Tenant c_Seq c_Shard c_Random60].
  rewrite Hp. cbn [negb bind].
  replace (epoch2020 <=? ms + epoch2020) with true by (symmetry; apply Z.leb_le; lia).
  replace (ms + epoch2020 - epoch2020) with ms by lia.
  rewrite i64_small by lia. rewrite u64_small by lia.
  rewrite mask12, mask60. rewrite (Z.mod_small sq), (Z.mod_small rn) by lia.
  set (body := pack _ _ _ _ _ _).
  destruct (Parse_assemble p body wc Hp) as (payload & s & Henc & Hasm & Hparse).
  { reflexivity. }
  { apply pack_is_bytes. exact Hfl. }
  rewrite Henc. cbn [bind]. exists s. split; [exact Hasm |].
  rewrite Hparse. unfold body. rewrite unpack_pack_masked by assumption.
  rewrite !Z.mod_small by lia. reflexivity.
Qed.

(** X5. An identifier that parses can be generated again from what was
    read: [NewFromParts] accepts the parsed components, with or without
    checksum, and the string it returns parses to the same record. *)
Theorem Parse_regenerate (s : gostring) (r : Parsed) (wc : bool) :
  Parse s = Ok r ->
  exists s', NewFromParts (components_of r) wc = Ok s' /\ Parse s' = Ok r.
Proof.
  intros H.
  destruct (Parse_Ok_inv s r H)
    as (p & payload & body & f & _ & Hp & _ & _ & _ & _ & _ & _ & Hr & _ & ->).
  destruct f as [[[[[ms fl] te] sq] sh] rn].
  pose proof Hr as (Hms & _).
  unfold components_of. cbn [parsed_of Prefix TimeMs Flags Tenant Seq Shard Random].
  rewrite (i64_small ms) by lia.
  rewrite i64_small by (unfold epoch2020; lia).
  destruct (NewFromParts_of_fields p wc ms fl te sq sh rn Hp Hr) as (s' & Hnew & Hparse).
  exists s'. split; [exact Hnew |]. rewrite Hparse.
  cbn [parsed_of]. rewrite (i64_small ms) by lia.
  rewrite i64_small by (unfold epoch2020; lia). reflexivity.
Qed.

(** ** White space around an identifier *)

(** X6. [Parse] ignores ASCII white space around its argument: for a string
    that begins and ends with an ASCII byte that is no space, padding on
    either side changes nothing, whether the string parses or not. *)
Theorem Parse_ignores_padding (ws1 ws2 s : gostring) :
  spaces ws1 -> spaces ws2 -> trimmed s ->
  Parse (ws1 ++ s ++ ws2) = Parse s.
Proof.
  intros H1 H2 Hs. unfold Parse.
  rewrite TrimSpace_spaces by assumption.
  rewrite TrimSpace_trimmed by assumption. reflexivity.
Qed.

(** ** Identifiers in any accepted spelling *)

Lemma ToLower_ascii (s : gostring) :
  Forall (fun c => c < RuneSelf) s -> ToLower s = map lower1 s.
Proof.
  intros H. unfold ToLower.
  replace (forallb (fun c => c <? RuneSelf) s) with true; [reflexivity |].
  symmetry. apply forallb_forall. intros c Hin.
  rewrite Forall_forall in H. apply Z.ltb_lt, H, Hin.
Qed.

(** The checksum reads the payload through the decoding table: it is the
    checksum of the canonical spelling. *)
Lemma checksum4Base_spelling (p q : gostring) :
  prefixRe_MatchString p = true -> Forall accepted q ->
  checksum4Base (p ++ str "_" ++ q)
  = checksum4Base (canonical_base p (map alphaRev q)).
Proof.
  intros Hp Hq. destruct (prefix_chars p Hp) as (_ & Hchars & Hlen).
  rewrite checksum4Base_canonical_value by (try assumption; apply accepted_digits; exact Hq).
  unfold checksum4Base.
  rewrite IndexByte_canonical by assumption.
  replace (len p <=? 0) with false by (symmetry; apply Z.leb_gt; lia).
  change (str "_" ++ q) with (chr "_" :: q).
  rewrite skipn_len_app, slice_to_sep.
  rewrite (ToLower_ascii q).
  2:{ eapply Forall_impl; [| exact Hq]. intros c Hc.
      destruct (accepted_plain c Hc) as (Ha & _). lia. }
  rewrite (ToLower_word (p ++ [chr "_"])).
  2:{ apply Forall_app. split.
      - eapply Forall_impl; [| exact Hchars]. intros c. apply lower_or_digit_word.
      - constructor; [reflexivity | constructor]. }
  rewrite payloadTo5bits_accepted by assumption. reflexivity.
Qed.

Lemma prefix_plain (p : gostring) :
  prefixRe_MatchString p = true ->
  p <> [] /\ Forall no_space p /\ ~ In (chr "-") p /\ ~ In (chr "_") p.
Proof.
  intros Hp. destruct (prefix_chars p Hp) as (Hne & Hchars & _).
  assert (Hw : Forall (fun c => is_word c = true) p).
  { eapply Forall_impl; [| exact Hchars]. intros c. apply lower_or_digit_word. }
  split; [exact Hne |]. split; [apply word_no_space; exact Hw |].
  split; [apply word_no_dash; exact Hw | apply prefix_no_sep; exact Hp].
Qed.

Lemma TrimSpace_spelled (p q : gostring) :
  prefixRe_MatchString p = true -> Forall accepted q ->
  TrimSpace (p ++ str "_" ++ q) = p ++ str "_" ++ q.
Proof.
  intros Hp Hq. destruct (prefix_plain p Hp) as (Hne & Hsp & _).
  apply TrimSpace_id.
  - destruct p; [contradiction | discriminate].
  - apply Forall_app. split; [exact Hsp |]. constructor; [split; reflexivity |].
    apply accepted_no_space. exact Hq.
Qed.

Lemma split_checksum_spelled (p q : gostring) :
  prefixRe_MatchString p = true -> Forall accepted q ->
  split_checksum (p ++ str "_" ++ q) = Ok (p ++ str "_" ++ q).
Proof.
  intros Hp Hq. destruct (prefix_plain p Hp) as (_ & _ & Hnd & _).
  unfold split_checksum. rewrite LastIndexByte_absent; [reflexivity |].
  intros Hin. apply in_app_or in Hin. destruct Hin as [Hin | [Hin | Hin]].
  - exact (Hnd Hin).
  - discriminate Hin.
  - revert Hin. apply accepted_no_byte; [left; reflexivity | exact Hq].
Qed.

(** [Parse] on a valid prefix, the separator and thirty-two accepted
    characters. *)
Lemma Parse_spelled (p q : gostring) :
  prefixRe_MatchString p = true -> length q = 32%nat -> Forall accepted q ->
  Parse (p ++ str "_" ++ q) = decode_fields p q.
Proof.
  intros Hp Hl Hq. destruct (prefix_chars p Hp) as (_ & _ & Hplen).
  unfold Parse. rewrite TrimSpace_spelled, split_checksum_spelled by assumption.
  cbn [bind].
  rewrite IndexByte_canonical by assumption.
  replace (len p <=? 0) with false by (symmetry; apply Z.leb_gt; lia).
  change (str "_" ++ q) with (chr "_" :: q).
  rewrite firstn_len_app, skipn_len_app, Hp. cbn [negb].
  replace (len q =? 32) with true by (unfold len; rewrite Hl; reflexivity).
  cbn [negb]. rewrite check_symbols_accepted by exact Hq. cbn [bind].
  unfold decode_fields.
  destruct (b32decode q) as [body | e | pn]; cbn [bind]; try reflexivity.
  destruct (unpack body) as [[[[[[ms fl] te] sq] sh] rn] | e | pn]; reflexivity.
Qed.

(** The same with a suffix of ASCII bytes, none a space or a dash. *)
Lemma Parse_spelled_suffix (p q cs : gostring) :
  prefixRe_MatchString p = true -> length q = 32%nat -> Forall accepted q ->
  Forall no_space cs -> ~ In (chr "-") cs ->
  Parse (p ++ str "_" ++ q ++ str "-" ++ cs)
  = if negb (len cs =? 4) then Err ErrChecksumLength else
    do expected <- checksum4Base (canonical_base p (map alphaRev q));
    if negb (EqualFold cs expected) then Err ErrChecksumMismatch
    else decode_fields p q.
Proof.
  intros Hp Hl Hq Hcs Hnd'. destruct (prefix_plain p Hp) as (Hne & Hsp & Hnd & Hns).
  unfold Parse. rewrite TrimSpace_id.
  2:{ destruct p; [contradiction | discriminate]. }
  2:{ apply Forall_app. split; [exact Hsp |]. constructor; [split; reflexivity |].
      apply Forall_app. split; [apply accepted_no_space; exact Hq |].
      constructor; [split; reflexivity | exact Hcs]. }
  unfold split_checksum at 1.
  replace (p ++ str "_" ++ q ++ str "-" ++ cs)
    with ((p ++ str "_" ++ q) ++ chr "-" :: cs)
    by (rewrite <- !app_assoc; reflexivity).
  rewrite LastIndexByte_app by exact Hnd'.
  pose proof (len_nonneg (p ++ str "_" ++ q)).
  replace (0 <=? len (p ++ str "_" ++ q)) with true by (symmetry; apply Z.leb_le; lia).
  rewrite firstn_len_app, skipn_len_app.
  destruct (negb (len cs =? 4)); [reflexivity |].
  rewrite checksum4Base_spelling by assumption.
  destruct (checksum4Base _) as [expected | e | pn]; cbn [bind]; try reflexivity.
  destruct (negb (EqualFold cs expected)); [reflexivity |].
  rewrite <- (Parse_spelled p q Hp Hl Hq). unfold Parse.
  rewrite TrimSpace_spelled, split_checksum_spelled by assumption. reflexivity.
Qed.

(** X7. [Parse] reads a payload by the values of its characters alone.
    Two payloads that spell the same symbols (capitals for small letters,
    [i] or [l] for [1], [o] for [0], [u] for [v]) give the same result, be
    it a record or an error, without a checksum suffix and with one. *)
Theorem Parse_same_symbols (p q q' cs : gostring) :
  prefixRe_MatchString p = true -> length q = 32%nat -> Forall accepted q ->
  same_symbols q q' -> Forall no_space cs -> ~ In (chr "-") cs ->
  Parse (p ++ str "_" ++ q') = Parse (p ++ str "_" ++ q)
  /\ Parse (p ++ str "_" ++ q' ++ str "-" ++ cs)
     = Parse (p ++ str "_" ++ q ++ str "-" ++ cs).
Proof.
  intros Hp Hl Hq Hsame Hcs Hnd.
  pose proof (same_symbols_accepted q q' Hsame Hq) as Hq'.
  assert (Hl' : length q' = 32%nat) by (rewrite <- (Forall2_length Hsame); exact Hl).
  assert (Hdec : decode_fields p q' = decode_fields p q).
  { unfold decode_fields. rewrite (b32decode_same_symbols q q' Hsame). reflexivity. }
  split.
  - rewrite !Parse_spelled by assumption. exact Hdec.
  - rewrite !Parse_spelled_suffix by assumption.
    rewrite (same_symbols_map q q' Hsame), Hdec. reflexivity.
Qed.

(** X8. Parsing an identifier in any accepted spelling and generating it
    again without checksum gives the canonical spelling: the prefix, the
    separator, and for every payload character the alphabet character of its
    value. *)
Theorem regenerate_canonical (p q : gostring) :
  prefixRe_MatchString p = true -> length q = 32%nat -> Forall accepted q ->
  exists r,
    Parse (p ++ str "_" ++ q) = Ok r
    /\ NewFromParts (components_of r) false
       = Ok (p ++ str "_" ++ map sym (map alphaRev q)).
Proof.
  intros Hp Hl Hq.
  destruct (b32decode_spec q Hl Hq) as (body & Hdec & Hbl & Hb & _).
  destruct (unpack_then_pack body Hbl Hb) as (f & Hun & Hr & Hpk).
  exists (parsed_of p f). split.
  - rewrite Parse_spelled by assumption. unfold decode_fields.
    rewrite Hdec. cbn [bind]. rewrite Hun. reflexivity.
  - destruct f as [[[[[ms fl] te] sq] sh] rn].
    destruct Hr as (Hms & Hfl & Hte & Hsq & Hsh & Hrn).
    unfold components_of, NewFromParts, validatePrefix.
    cbn [parsed_of Prefix TimeMs Flags Tenant Seq Shard Random
         c_Prefix c_TimeMs c_Flags c_Tenant c_Seq c_Shard c_Random60].
    rewrite Hp. cbn [negb bind].
    rewrite (i64_small ms) by lia.
    rewrite (i64_small (ms + epoch2020)) by (unfold epoch2020; lia).
    replace (epoch2020 <=? ms + epoch2020) with true by (symmetry; apply Z.leb_le; lia).
    replace (ms + epoch2020 - epoch2020) with ms by lia.
    rewrite i64_small by lia. rewrite u64_small by lia.
    rewrite mask12, mask60. rewrite (Z.mod_small sq), (Z.mod_small rn) by lia.
    cbn [pack_fields] in Hpk. rewrite Hpk.
    rewrite (b32encode_decoded q body Hl Hq Hdec). reflexivity.
Qed.

(** ** Where the codec panics *)

(** X9. [checksum4Base] on any string: it panics for a string with no
    separator past its first byte, and for a payload that, put in lower
    case, holds a character that is not accepted; in every other case it
    returns four characters of the alphabet. *)
Theorem checksum4Base_cases (base : gostring) :
  let idx := IndexByte base (chr "_") in
  let payload := ToLower (slice_from base (idx + 1)) in
  (idx <= 0 /\ checksum4Base base = Panic PanicBadBase)
  \/ (0 < idx /\ ~ Forall accepted payload
      /\ checksum4Base base = Panic PanicInvalidPayload)
  \/ (0 < idx /\ Forall accepted payload
      /\ exists cs, checksum4Base base = Ok cs
                    /\ length cs = 4%nat /\ Forall (fun c => In c alpha) cs).
Proof.
  cbv zeta. unfold checksum4Base.
  destruct (Z.leb_spec (IndexByte base (chr "_")) 0) as [Hi | Hi].
  { left. split; [exact Hi | reflexivity]. }
  right.
  destruct (payloadTo5bits_cases (ToLower (slice_from base (IndexByte base (chr "_") + 1))))
    as [[Hq E] | [Hq E]]; rewrite E; cbn [bind].
  - right. split; [exact Hi |]. split; [exact Hq |].
    eexists. split; [reflexivity |]. split; [reflexivity |].
    cbn [map]. repeat (apply Forall_cons; [apply sym_mask_in_alpha |]). apply Forall_nil.
  - left. split; [exact Hi |]. split; [exact Hq | reflexivity].
Qed.

(** The suffix block of [Parse] on any string. *)
Lemma split_checksum_cases (t : gostring) :
  (~ In (chr "-") t /\ split_checksum t = Ok t)
  \/ (exists base cs,
        t = base ++ chr "-" :: cs /\ ~ In (chr "-") cs
        /\ split_checksum t
           = if negb (len cs =? 4) then Err ErrChecksumLength else
             do expected <- checksum4Base base;
             if negb (EqualFold cs expected) then Err ErrChecksumMismatch
             else Ok base).
Proof.
  destruct (in_dec Z.eq_dec (chr "-") t) as [Hin | Hout].
  - right. destruct (in_split_last _ _ Hin) as (base & cs & -> & Hcs).
    exists base, cs. split; [reflexivity |]. split; [exact Hcs |].
    unfold split_checksum. rewrite LastIndexByte_app by exact Hcs.
    pose proof (len_nonneg base).
    replace (0 <=? len base) with true by (symmetry; apply Z.leb_le; lia).
    rewrite firstn_len_app, skipn_len_app. reflexivity.
  - left. split; [exact Hout |]. unfold split_checksum.
    rewrite LastIndexByte_absent by exact Hout. reflexivity.
Qed.

(** Past the suffix block [Parse] returns a record or an error. *)
Lemma Parse_after_split (s base : gostring) :
  split_checksum (TrimSpace s) = Ok base ->
  (exists r, Parse s = Ok r) \/ (exists e, Parse s = Err e).
Proof.
  intros Hsplit. unfold Parse. rewrite Hsplit. cbn [bind].
  destruct (IndexByte base (chr "_") <=? 0); [right; eexists; reflexivity |].
  destruct (negb (prefixRe_MatchString _)); [right; eexists; reflexivity |].
  set (payload := slice_from base _).
  destruct (Z.eqb_spec (len payload) 32) as [Hlen | Hlen]; cbn [negb];
    [| right; eexists; reflexivity].
  destruct (check_symbols_cases payload 0) as [[Hok Hall] | [k Herr]].
  - rewrite Hok. cbn [bind].
    destruct (b32decode_spec payload) as (es & Hdec & Hl & _);
      [unfold len in Hlen; lia | exact Hall |].
    rewrite Hdec. cbn [bind].
    destruct (unpack_returns es Hl) as ([[[[[ms fl] te] sq] sh] rn] & Hun).
    rewrite Hun. cbn [bind]. left. eexists. reflexivity.
  - rewrite Herr. right. eexists. reflexivity.
Qed.

(** X10. [Parse] panics in one situation only: the trimmed argument ends
    in a dash and four bytes, and [checksum4Base] panics on what stands
    before that dash.  It then panics the same way. *)
Theorem Parse_panics_iff (s : gostring) (pn : panic) :
  Parse s = Panic pn
  <-> exists base cs,
        TrimSpace s = base ++ chr "-" :: cs /\ ~ In (chr "-") cs
        /\ length cs = 4%nat /\ checksum4Base base = Panic pn.
Proof.
  destruct (split_checksum_cases (TrimSpace s))
    as [[Hout Hsplit] | (base & cs & Et & Hcs & Hsplit)].
  - split.
    + intros H. destruct (Parse_after_split s _ Hsplit) as [[r E] | [e E]];
        rewrite E in H; discriminate H.
    + intros (base & cs & Et & _). exfalso. apply Hout. rewrite Et.
      apply in_or_app. right. left. reflexivity.
  - split.
    + intros H. exists base, cs. split; [exact Et |]. split; [exact Hcs |].
      destruct (Z.eqb_spec (len cs) 4) as [Hl | Hl]; cbn [negb] in Hsplit.
      * split; [unfold len in Hl; lia |].
        destruct (checksum4Base base) as [expected | e | pn'] eqn:Esum;
          cbn [bind] in Hsplit.
        -- exfalso. destruct (negb (EqualFold cs expected)).
           ++ unfold Parse in H. rewrite Hsplit in H. discriminate H.
           ++ destruct (Parse_after_split s _ Hsplit) as [[r E] | [e E]];
                rewrite E in H; discriminate H.
        -- exfalso. unfold Parse in H. rewrite Hsplit in H. discriminate H.
        -- unfold Parse in H. rewrite Hsplit in H. cbn [bind] in H.
           injection H as ->. reflexivity.
      * exfalso. unfold Parse in H. rewrite Hsplit in H. discriminate H.
    + intros (base' & cs' & Et' & Hcs' & Hl' & Hsum).
      assert (E : base' = base /\ cs' = cs).
      { rewrite Et in Et'. clear - Et' Hcs Hcs'.
        assert (Hlen : len base = len base').
        { rewrite <- (LastIndexByte_app base (chr "-") cs Hcs).
          rewrite <- (LastIndexByte_app base' (chr "-") cs' Hcs').
          rewrite Et'. reflexivity. }
        assert (Eb : base' = base).
        { rewrite <- (firstn_len_app base' (chr "-" :: cs')), <- Et', <- Hlen.
          apply firstn_len_app. }
        subst base'. apply app_inv_head in Et'. injection Et' as ->.
        split; reflexivity. }
      destruct E as [-> ->].
      unfold Parse. rewrite Hsplit.
      replace (len cs =? 4) with true by (unfold len; rewrite Hl'; reflexivity).
      cbn [negb]. rewrite Hsum. reflexivity.
Qed.

(** ** What the generators return *)

(** The string assembled from a valid prefix and a body of twenty bytes:
    its shape, and what it parses to. *)
Lemma assemble_shape (p : gostring) (body : list Z) (wc : bool) :
  prefixRe_MatchString p = true -> length body = 20%nat -> is_bytes body ->
  exists ds cs,
    length ds = 32%nat /\ digits 5 ds /\ length cs = 4%nat /\ digits 5 cs
    /\ b32encode body = Ok (map sym ds)
    /\ checksum4Base (canonical_base p ds) = Ok (map sym cs)
    /\ assemble p (map sym ds) wc = Ok (identifier p ds wc cs)
    /\ Parse (identifier p ds wc cs) = (do f <- unpack body; Ok (parsed_of p f)).
Proof.
  intros Hp Hl Hb.
  destruct (b32encode_spec body Hl Hb) as (ds & Henc & Hlen & Hds & _).
  pose proof (b32decode_encoded body ds Hl Hb Henc) as Hdec.
  pose proof (canonical_base_word p ds Hp Hds) as Hword.
  assert (Hne : canonical_base p ds <> []).
  { unfold canonical_base. destruct p; [discriminate Hp | discriminate]. }
  destruct (checksum4Base_canonical p ds Hp Hds) as (cs & Hsum & Hcl & Hcs).
  exists ds, cs. repeat (split; [assumption |]).
  unfold assemble, identifier. fold (canonical_base p ds).
  destruct wc.
  - rewrite Hsum. cbn [bind]. split; [reflexivity |].
    apply (Parse_canonical_base _ p ds body); try assumption.
    + apply TrimSpace_id.
      * destruct (canonical_base p ds); [contradiction | discriminate].
      * apply Forall_app. split; [apply word_no_space; exact Hword |].
        apply Forall_app. split.
        -- constructor; [split; reflexivity | constructor].
        -- apply word_no_space, symbols_word. exact Hcs.
    + apply split_checksum_suffix; assumption.
  - rewrite app_nil_r. split; [reflexivity |].
    apply (Parse_canonical_base _ p ds body); try assumption.
    + apply TrimSpace_id; [exact Hne | apply word_no_space; exact Hword].
    + apply split_checksum_plain. exact Hword.
Qed.

Lemma New_flags_u8 (o : options) : is_u8 (New_flags o).
Proof. exact (New_flags_range o). Qed.

(** [New] with entropy at hand: the identifier, the state it leaves, and
    what the identifier parses to. *)
Lemma New_returns (prefix : gostring) (opts : list Option) (now : Z) (rnd : list Z)
    (st : seq_state) :
  New_ready prefix opts rnd ->
  exists ds cs,
    length ds = 32%nat /\ digits 5 ds /\ length cs = 4%nat /\ digits 5 cs
    /\ b32encode (pack_fields (New_fields (resolve_options opts) now rnd st))
       = Ok (map sym ds)
    /\ checksum4Base (canonical_base prefix ds) = Ok (map sym cs)
    /\ New prefix opts now (Some rnd) st
       = (Ok (identifier prefix ds (withChecksum (resolve_options opts)) cs),
          sequence_step st (incoming_ms (resolve_options opts) now))
    /\ Parse (identifier prefix ds (withChecksum (resolve_options opts)) cs)
       = Ok (parsed_of prefix (New_fields (resolve_options opts) now rnd st)).
Proof.
  intros (Hp & Hte & Hsh & Hbs & Hlen & Hrnd).
  unfold New. rewrite Hp. cbn [negb].
  change (fold_left (fun o fn => fn o) opts (mkOptions 0 0 false 0))
    with (resolve_options opts).
  set (o := resolve_options opts) in *.
  replace ((0 <? bucketSeconds o) && (i64 (bucketSeconds o * 1000) =? 0)) with false.
  2:{ symmetry. destruct (Z.ltb_spec 0 (bucketSeconds o)) as [H | H]; [| reflexivity].
      apply Z.eqb_neq, Hbs, H. }
  change (i64 ((if 0 <? bucketSeconds o
                then i64 (i64 (now ÷ i64 (bucketSeconds o * 1000))
                          * i64 (bucketSeconds o * 1000))
                else now) - epoch2020))
    with (incoming_ms o now).
  set (ms := incoming_ms o now).
  rewrite seq_step_spec.
  set (st' := sequence_step st ms).
  change (if 0 <? bucketSeconds o then 0 .| privacyBitMask else 0) with (New_flags o).
  pose proof (New_flags_u8 o) as Hfl.
  rewrite random60_value by assumption.
  rewrite (pack_masked (u64 ms)) by assumption.
  rewrite (Z.mod_small (snd st')) by apply sequence_step_range.
  rewrite Z.mod_mod by lia.
  change (pack (u64 ms mod 2 ^ 48) (New_flags o) (tenant o) (snd st') (shard o)
            (value 8 rnd mod 2 ^ 60))
    with (pack_fields (New_fields o now rnd st)).
  set (body := pack_fields _).
  destruct (assemble_shape prefix body (withChecksum o) Hp)
    as (ds & cs & Hdl & Hds & Hcl & Hcs & Henc & Hsum & Hasm & Hparse).
  { reflexivity. }
  { apply pack_is_bytes. exact Hfl. }
  exists ds, cs. repeat (split; [assumption |]).
  rewrite Henc. cbn [bind].
  change (if withChecksum o
          then do cs <- checksum4Base (prefix ++ str "_" ++ map sym ds);
               Ok ((prefix ++ str "_" ++ map sym ds) ++ str "-" ++ cs)
          else Ok (prefix ++ str "_" ++ map sym ds))
    with (assemble prefix (map sym ds) (withChecksum o)).
  rewrite Hasm. split; [reflexivity |].
  rewrite Hparse. unfold body, New_fields, pack_fields.
  rewrite unpack_pack_masked by assumption.
  rewrite !Z.mod_mod by lia.
  rewrite (Z.mod_small (snd st')) by apply sequence_step_range.
  reflexivity.
Qed.

(** X11. [New] and [Parse], round trip.  With a valid prefix, no bucketing
    and the clock between the epoch and [2 ^ 48] milliseconds past it,
    [New] returns an identifier that parses to the prefix, the clock's
    millisecond, flags 0, the tenant and shard of the options, the sequence
    number drawn from the state, and the entropy's low sixty bits. *)
Theorem Parse_New (prefix : gostring) (opts : list Option) (now : Z) (rnd : list Z)
    (st : seq_state) :
  New_ready prefix opts rnd ->
  bucketSeconds (resolve_options opts) <= 0 ->
  epoch2020 <= now < epoch2020 + 2 ^ 48 ->
  exists id,
    New prefix opts now (Some rnd) st = (Ok id, sequence_step st (now - epoch2020))
    /\ Parse id = Ok {| Prefix := prefix;
                        TimeMs := now;
                        Flags := 0;
                        Tenant := tenant (resolve_options opts);
                        Seq := snd (sequence_step st (now - epoch2020));
                        Shard := shard (resolve_options opts);
                        Random := value 8 rnd mod 2 ^ 60 |}.
Proof.
  intros Hready Hno Hnow. unfold epoch2020 in Hnow.
  destruct (New_returns prefix opts now rnd st Hready)
    as (ds & cs & _ & _ & _ & _ & _ & _ & Hnew & Hparse).
  set (o := resolve_options opts) in *.
  assert (Hms : incoming_ms o now = now - epoch2020)
    by (apply incoming_ms_plain; [exact Hno | lia]).
  rewrite Hms in Hnew. eexists. split; [exact Hnew |].
  rewrite Hparse. unfold New_fields, New_flags. rewrite Hms.
  replace (0 <? bucketSeconds o) with false by (symmetry; apply Z.ltb_ge; exact Hno).
  cbn [parsed_of].
  rewrite u64_small by (unfold epoch2020; lia).
  rewrite Z.mod_small by (unfold epoch2020; lia).
  rewrite (i64_small (now - epoch2020)) by (unfold epoch2020; lia).
  replace (now - epoch2020 + epoch2020) with now by lia.
  rewrite i64_small by lia. reflexivity.
Qed.


(** X13. The shape of what [New] returns: the prefix, an underscore and
    thirty-two characters of the alphabet; with [WithChecksum true], a dash
    and the four characters [checksum4Base] computes for what stands before
    it.  So the length is that of the prefix plus 33, or plus 38. *)
Theorem New_shape (prefix : gostring) (opts : list Option) (now : Z) (rnd : list Z)
    (st : seq_state) :
  New_ready prefix opts rnd ->
  exists payload cs,
    length payload = 32%nat /\ Forall (fun c => In c alpha) payload
    /\ length cs = 4%nat /\ Forall (fun c => In c alpha) cs
    /\ checksum4Base (prefix ++ str "_" ++ payload) = Ok cs
    /\ fst (New prefix opts now (Some rnd) st)
       = Ok (if withChecksum (resolve_options opts)
             then prefix ++ str "_" ++ payload ++ str "-" ++ cs
             else prefix ++ str "_" ++ payload)
    /\ (forall id, fst (New prefix opts now (Some rnd) st) = Ok id ->
        len id = len prefix + (if withChecksum (resolve_options opts) then 38 else 33)).
Proof.
  intros Hready.
  destruct (New_returns prefix opts now rnd st Hready)
    as (ds & cs & Hdl & Hds & Hcl & Hcs & _ & Hsum & Hnew & _).
  assert (Halpha : forall l, digits 5 l -> Forall (fun c => In c alpha) (map sym l)).
  { intros l Hl. apply Forall_map. eapply Forall_impl; [| exact Hl].
    intros d Hd. apply sym_in_alpha. exact Hd. }
  exists (map sym ds), (map sym cs).
  split; [rewrite length_map; exact Hdl |]. split; [apply Halpha; exact Hds |].
  split; [rewrite length_map; exact Hcl |]. split; [apply Halpha; exact Hcs |].
  split; [exact Hsum |].
  rewrite Hnew. cbn [fst]. unfold identifier, canonical_base.
  assert (E : forall wc : bool,
            (prefix ++ str "_" ++ map sym ds) ++ (if wc then str "-" ++ map sym cs else [])
            = if wc then prefix ++ str "_" ++ map sym ds ++ str "-" ++ map sym cs
              else prefix ++ str "_" ++ map sym ds).
  { intros [|]; [rewrite <- !app_assoc; reflexivity | apply app_nil_r]. }
  rewrite E. split; [reflexivity |].
  intros id Hid. injection Hid as <-.
  destruct (withChecksum (resolve_options opts));
    unfold len; rewrite length_app; cbn [length]; rewrite ?length_app; cbn [length];
    rewrite ?length_map, ?Hdl, ?Hcl; lia.
Qed.

(** Two identifiers of [New] with the same prefix compare as their fields
    do, when these differ. *)
Lemma New_compare (prefix : gostring) (opts1 opts2 : list Option) (now1 now2 : Z)
    (rnd1 rnd2 : list Z) (st1 st2 : seq_state) (c : comparison) :
  New_ready prefix opts1 rnd1 -> New_ready prefix opts2 rnd2 ->
  fields_compare (New_fields (resolve_options opts1) now1 rnd1 st1)
                 (New_fields (resolve_options opts2) now2 rnd2 st2) = c ->
  c <> Eq ->
  exists id1 id2,
    fst (New prefix opts1 now1 (Some rnd1) st1) = Ok id1
    /\ fst (New prefix opts2 now2 (Some rnd2) st2) = Ok id2
    /\ lex_compare id1 id2 = c.
Proof.
  intros Hr1 Hr2 Hc Hne.
  destruct (New_returns prefix opts1 now1 rnd1 st1 Hr1)
    as (ds1 & cs1 & Hdl1 & _ & _ & _ & Henc1 & _ & Hnew1 & _).
  destruct (New_returns prefix opts2 now2 rnd2 st2 Hr2)
    as (ds2 & cs2 & Hdl2 & _ & _ & _ & Henc2 & _ & Hnew2 & _).
  destruct Hr1 as (_ & Hte1 & Hsh1 & _). destruct Hr2 as (_ & Hte2 & Hsh2 & _).
  pose proof (New_fields_in_range _ now1 rnd1 st1 Hte1 Hsh1) as Hf1.
  pose proof (New_fields_in_range _ now2 rnd2 st2 Hte2 Hsh2) as Hf2.
  rewrite Hnew1, Hnew2. eexists _, _. split; [reflexivity |]. split; [reflexivity |].
  apply identifier_compare; try assumption.
  rewrite <- Hc, <- (pack_compare _ _ Hf1 Hf2).
  apply b32encode_compare; try assumption; try reflexivity.
  - destruct (New_fields _ now1 rnd1 st1) as [[[[[? ?] ?] ?] ?] ?].
    apply pack_is_bytes. apply Hf1.
  - destruct (New_fields _ now2 rnd2 st2) as [[[[[? ?] ?] ?] ?] ?].
    apply pack_is_bytes. apply Hf2.
Qed.

(** X14. Identifiers of [New] sort by time.  Of two identifiers with the
    same prefix made without bucketing at two milliseconds between the
    epoch and [2 ^ 48] past it, the one made at the earlier millisecond is
    the smaller string, whatever the options, the entropy and the state of
    the sequence generator at either call. *)
Theorem New_sorts_by_time (prefix : gostring) (opts1 opts2 : list Option)
    (now1 now2 : Z) (rnd1 rnd2 : list Z) (st1 st2 : seq_state) :
  New_ready prefix opts1 rnd1 -> New_ready prefix opts2 rnd2 ->
  bucketSeconds (resolve_options opts1) <= 0 ->
  bucketSeconds (resolve_options opts2) <= 0 ->
  epoch2020 <= now1 -> now1 < now2 -> now2 < epoch2020 + 2 ^ 48 ->
  exists id1 id2,
    fst (New prefix opts1 now1 (Some rnd1) st1) = Ok id1
    /\ fst (New prefix opts2 now2 (Some rnd2) st2) = Ok id2
    /\ lex_compare id1 id2 = Lt.
Proof.
  intros Hr1 Hr2 Hno1 Hno2 H1 H12 H2. unfold epoch2020 in *.
  apply New_compare; try assumption; [| discriminate].
  unfold New_fields, fields_compare.
  rewrite !incoming_ms_plain by (try assumption; lia).
  rewrite !u64_small by (unfold epoch2020; lia).
  rewrite !Z.mod_small by (unfold epoch2020; lia).
  replace (now1 - epoch2020 ?= now2 - epoch2020) with Lt
    by (symmetry; apply Z.compare_lt_iff; lia).
  reflexivity.
Qed.

(** X15. Within one millisecond.  Two calls of [New] in a row at the same
    millisecond, with the same prefix and tenant and no bucketing: the
    second identifier is the greater string as long as the sequence number
    of the first is below 4095.  At 4095 the sequence wraps to 0 and the
    second identifier is the smaller one. *)
Theorem New_sorts_within_ms (prefix : gostring) (opts1 opts2 : list Option)
    (now : Z) (rnd1 rnd2 : list Z) (st : seq_state) :
  New_ready prefix opts1 rnd1 -> New_ready prefix opts2 rnd2 ->
  bucketSeconds (resolve_options opts1) <= 0 ->
  bucketSeconds (resolve_options opts2) <= 0 ->
  tenant (resolve_options opts1) = tenant (resolve_options opts2) ->
  epoch2020 <= now < epoch2020 + 2 ^ 48 ->
  exists id1 id2 st1,
    New prefix opts1 now (Some rnd1) st = (Ok id1, st1)
    /\ fst (New prefix opts2 now (Some rnd2) st1) = Ok id2
    /\ lex_compare id1 id2 = if snd st1 <? 4095 then Lt else Gt.
Proof.
  intros Hr1 Hr2 Hno1 Hno2 Hten Hnow. unfold epoch2020 in Hnow.
  set (ms := now - epoch2020).
  set (st1 := sequence_step st ms).
  pose proof (sequence_step_range st ms) as Hseq. fold st1 in Hseq.
  destruct (New_compare prefix opts1 opts2 now now rnd1 rnd2 st st1
              (if snd st1 <? 4095 then Lt else Gt) Hr1 Hr2)
    as (id1 & id2 & Hn1 & Hn2 & Hcmp).
  - unfold New_fields, fields_compare, New_flags.
    rewrite !incoming_ms_plain by (try assumption; lia).
    replace (0 <? bucketSeconds (resolve_options opts1)) with false
      by (symmetry; apply Z.ltb_ge; exact Hno1).
    replace (0 <? bucketSeconds (resolve_options opts2)) with false
      by (symmetry; apply Z.ltb_ge; exact Hno2).
    rewrite Hten, !Z.compare_refl. cbn [then_compare].
    fold ms. fold st1.
    pose proof (sequence_step_again st ms) as Hag.
    change (sequence_step st ms) with st1 in Hag. rewrite Hag. cbn [snd].
    destruct (Z.ltb_spec (snd st1) 4095) as [Hlt | Hge].
    + rewrite Z.mod_small by lia.
      replace (snd st1 ?= snd st1 + 1) with Lt
        by (symmetry; apply Z.compare_lt_iff; lia).
      reflexivity.
    + replace (snd st1) with 4095 by lia. reflexivity.
  - destruct (snd st1 <? 4095); discriminate.
  - exists id1, id2, st1. split; [| split; assumption].
    destruct (New_returns prefix opts1 now rnd1 st Hr1)
      as (ds & cs & _ & _ & _ & _ & _ & _ & Hnew & _).
    rewrite incoming_ms_plain in Hnew by (try assumption; lia).
    rewrite Hnew in Hn1 |- *. cbn [fst] in Hn1. injection Hn1 as ->. reflexivity.
Qed.

(** X16. How [New] fails.  It never returns an error value.  It panics on
    a prefix that does not match the pattern, and on a positive bucket
    length whose milliseconds are a multiple of [2 ^ 64], where the
    division is by zero; in both cases the sequence generator is untouched.
    When the entropy source fails it panics after the sequence generator
    has moved, so the number drawn is lost.  Otherwise it returns an
    identifier. *)
Theorem New_outcomes (prefix : gostring) (opts : list Option) (now : Z)
    (entropy : option (list Z)) (st : seq_state) :
  is_u16 (tenant (resolve_options opts)) -> is_u16 (shard (resolve_options opts)) ->
  (forall rnd, entropy = Some rnd -> length rnd = 8%nat /\ is_bytes rnd) ->
  let sec := bucketSeconds (resolve_options opts) in
  let st' := sequence_step st (incoming_ms (resolve_options opts) now) in
  (prefixRe_MatchString prefix = false
   /\ New prefix opts now entropy st = (Panic PanicInvalidPrefix, st))
  \/ (prefixRe_MatchString prefix = true /\ 0 < sec /\ (sec * 1000) mod 2 ^ 64 = 0
      /\ New prefix opts now entropy st = (Panic PanicDivideByZero, st))
  \/ (prefixRe_MatchString prefix = true /\ ~ (0 < sec /\ (sec * 1000) mod 2 ^ 64 = 0)
      /\ entropy = None
      /\ New prefix opts now entropy st = (Panic PanicEntropy, st'))
  \/ (prefixRe_MatchString prefix = true /\ ~ (0 < sec /\ (sec * 1000) mod 2 ^ 64 = 0)
      /\ exists rnd id,
           entropy = Some rnd /\ New prefix opts now entropy st = (Ok id, st')).
Proof.
  intros Hte Hsh Hrnd sec st'.
  destruct (prefixRe_MatchString prefix) eqn:Hp.
  2:{ left. split; [reflexivity |]. unfold New. rewrite Hp. reflexivity. }
  right.
  destruct (Z.ltb_spec 0 sec) as [Hsec | Hsec].
  - destruct (Z.eqb_spec (i64 (sec * 1000)) 0) as [Hz | Hz].
    + left. split; [reflexivity |]. split; [exact Hsec |].
      split; [apply i64_zero; exact Hz |].
      unfold New. rewrite Hp. cbn [negb].
      change (fold_left (fun o fn => fn o) opts (mkOptions 0 0 false 0))
        with (resolve_options opts).
      fold sec. replace (0 <? sec) with true by (symmetry; apply Z.ltb_lt; exact Hsec).
      rewrite Hz. reflexivity.
    + right. assert (Hnz : ~ (0 < sec /\ (sec * 1000) mod 2 ^ 64 = 0)).
      { intros [_ H]. apply Hz, i64_zero, H. }
      destruct entropy as [rnd |].
      * right. split; [reflexivity |]. split; [exact Hnz |].
        destruct (Hrnd rnd eq_refl) as [Hl Hb].
        destruct (New_returns prefix opts now rnd st) as (ds & cs & H).
        { split; [exact Hp |]. split; [exact Hte |]. split; [exact Hsh |].
          split; [intros _; exact Hz |]. split; assumption. }
        destruct H as (_ & _ & _ & _ & _ & _ & Hnew & _).
        eexists rnd, _. split; [reflexivity | exact Hnew].
      * left. split; [reflexivity |]. split; [exact Hnz |]. split; [reflexivity |].
        unfold New. rewrite Hp. cbn [negb].
        change (fold_left (fun o fn => fn o) opts (mkOptions 0 0 false 0))
          with (resolve_options opts).
        fold sec. replace (0 <? sec) with true by (symmetry; apply Z.ltb_lt; exact Hsec).
        replace (i64 (sec * 1000) =? 0) with false by (symmetry; apply Z.eqb_neq; exact Hz).
        cbn [andb]. rewrite seq_step_spec. unfold st', incoming_ms. fold sec.
        replace (0 <? sec) with true by (symmetry; apply Z.ltb_lt; exact Hsec).
        reflexivity.
  - right. assert (Hnz : ~ (0 < sec /\ (sec * 1000) mod 2 ^ 64 = 0)) by lia.
    destruct entropy as [rnd |].
    * right. split; [reflexivity |]. split; [exact Hnz |].
      destruct (Hrnd rnd eq_refl) as [Hl Hb].
      destruct (New_returns prefix opts now rnd st) as (ds & cs & H).
      { split; [exact Hp |]. split; [exact Hte |]. split; [exact Hsh |].
        split; [fold sec; intros H; lia |]. split; assumption. }
      destruct H as (_ & _ & _ & _ & _ & _ & Hnew & _).
      eexists rnd, _. split; [reflexivity | exact Hnew].
    * left. split; [reflexivity |]. split; [exact Hnz |]. split; [reflexivity |].
      unfold New. rewrite Hp. cbn [negb].
      change (fold_left (fun o fn => fn o) opts (mkOptions 0 0 false 0))
        with (resolve_options opts).
      fold sec. replace (0 <? sec) with false by (symmetry; apply Z.ltb_ge; exact Hsec).
      cbn [andb]. rewrite seq_step_spec. unfold st', incoming_ms. fold sec.
      replace (0 <? sec) with false by (symmetry; apply Z.ltb_ge; exact Hsec).
      reflexivity.
Qed.

(** ** [NewFromParts] on any time *)

(** The time [NewFromParts] writes, read back. *)
Lemma time_read_back (t : Z) :
  - 2 ^ 63 <= t < 2 ^ 63 ->
  (if epoch2020 <=? t then u64 (i64 (t - epoch2020)) else 0) mod 2 ^ 48 + epoch2020
  = if t <? epoch2020 then epoch2020 else epoch2020 + (t - epoch2020) mod 2 ^ 48.
Proof.
  intros Ht. destruct (Z.leb_spec epoch2020 t) as [Hge | Hlt].
  - replace (t <? epoch2020) with false by (symmetry; apply Z.ltb_ge; lia).
    rewrite i64_small by (unfold epoch2020 in *; lia).
    rewrite u64_small by (unfold epoch2020 in *; lia). lia.
  - replace (t <? epoch2020) with true by (symmetry; apply Z.ltb_lt; lia).
    reflexivity.
Qed.

(** What [NewFromParts] returns for a valid prefix and fields of Go's
    types: the shape of the identifier and what it parses to. *)
Lemma NewFromParts_returns (c : Components) (wc : bool) :
  prefixRe_MatchString (c_Prefix c) = true ->
  - 2 ^ 63 <= c_TimeMs c < 2 ^ 63 ->
  is_u8 (c_Flags c) -> is_u16 (c_Tenant c) -> is_u16 (c_Shard c) ->
  exists ds cs,
    length ds = 32%nat /\ digits 5 ds /\ length cs = 4%nat /\ digits 5 cs
    /\ checksum4Base (canonical_base (c_Prefix c) ds) = Ok (map sym cs)
    /\ NewFromParts c wc = Ok (identifier (c_Prefix c) ds wc cs)
    /\ Parse (identifier (c_Prefix c) ds wc cs)
       = Ok {| Prefix := c_Prefix c;
               TimeMs := if c_TimeMs c <? epoch2020 then epoch2020
                         else epoch2020 + (c_TimeMs c - epoch2020) mod 2 ^ 48;
               Flags := c_Flags c;
               Tenant := c_Tenant c;
               Seq := c_Seq c mod 4096;
               Shard := c_Shard c;
               Random := c_Random60 c mod 2 ^ 60 |}.
Proof.
  intros Hp Ht Hfl Hte Hsh.
  unfold NewFromParts, validatePrefix. rewrite Hp. cbn [negb bind].
  rewrite mask12, mask60.
  set (ms := if epoch2020 <=? c_TimeMs c then u64 (i64 (c_TimeMs c - epoch2020)) else 0).
  set (body := pack _ _ _ _ _ _).
  destruct (assemble_shape (c_Prefix c) body wc Hp)
    as (ds & cs & Hdl & Hds & Hcl & Hcs & Henc & Hsum & Hasm & Hparse).
  { reflexivity. }
  { apply pack_is_bytes. exact Hfl. }
  exists ds, cs. repeat (split; [assumption |]).
  rewrite Henc. cbn [bind].
  change (if wc
          then do cs <- checksum4Base (c_Prefix c ++ str "_" ++ map sym ds);
               Ok ((c_Prefix c ++ str "_" ++ map sym ds) ++ str "-" ++ cs)
          else Ok (c_Prefix c ++ str "_" ++ map sym ds))
    with (assemble (c_Prefix c) (map sym ds) wc).
  split; [exact Hasm |].
  rewrite Hparse. unfold body. rewrite unpack_pack_masked by assumption.
  cbn [bind parsed_of]. rewrite !Z.mod_mod by lia.
  pose proof (Z.mod_pos_bound ms (2 ^ 48) ltac:(lia)) as Hm.
  rewrite (i64_small (ms mod 2 ^ 48)) by lia.
  rewrite i64_small by (unfold epoch2020; lia).
  unfold ms. rewrite time_read_back by exact Ht. reflexivity.
Qed.

(** X17. [NewFromParts] takes every time an [int64] holds.  For a valid
    prefix it returns an identifier that parses; the time read back is the
    epoch for a time before the epoch, and otherwise the epoch plus the
    distance to it modulo [2 ^ 48]: a time [2 ^ 48] milliseconds or more
    past the epoch wraps around silently. *)
Theorem NewFromParts_any_time (c : Components) (wc : bool) :
  prefixRe_MatchString (c_Prefix c) = true ->
  - 2 ^ 63 <= c_TimeMs c < 2 ^ 63 ->
  is_u8 (c_Flags c) -> is_u16 (c_Tenant c) -> is_u16 (c_Shard c) ->
  exists s,
    NewFromParts c wc = Ok s
    /\ Parse s = Ok {| Prefix := c_Prefix c;
                       TimeMs := if c_TimeMs c <? epoch2020 then epoch2020
                                 else epoch2020 + (c_TimeMs c - epoch2020) mod 2 ^ 48;
                       Flags := c_Flags c;
                       Tenant := c_Tenant c;
                       Seq := c_Seq c mod 4096;
                       Shard := c_Shard c;
                       Random := c_Random60 c mod 2 ^ 60 |}.
Proof.
  intros Hp Ht Hfl Hte Hsh.
  destruct (NewFromParts_returns c wc Hp Ht Hfl Hte Hsh)
    as (ds & cs & _ & _ & _ & _ & _ & Hnew & Hparse).
  exists (identifier (c_Prefix c) ds wc cs). split; assumption.
Qed.

(** ** The random in hexadecimal *)

Local Abbreviation NewFromPartsHex := (NewFromPartsHex lowerUnicode).

(** X18. [NewFromPartsHex] reads its hexadecimal string as a number: for
    an even number of hexadecimal digits of either case, none included, it
    is [NewFromParts] with the random set to the number the digits write,
    modulo [2 ^ 60].  The random the components came with is ignored, and
    of a long string only the last fifteen digits count. *)
Theorem NewFromPartsHex_value (c : Components) (h : gostring) (wc : bool) :
  Forall is_hex h -> Nat.even (length h) = true ->
  NewFromPartsHex c h wc
  = FromParts
      (NewFromParts (with_random c (value 4 (map hex.reverseHexTable h) mod 2 ^ 60)) wc).
Proof.
  intros Hall Hev. unfold NewFromPartsHex, hex.DecodeString.
  destruct (hex_Decode_cases h)
    as [(_ & _ & rb & E & Hb & Hv & _)
       | [(_ & Hodd & _) | (pre & b & rest & rb & -> & _ & Hb & _)]].
  - rewrite E. rewrite mask60, be_uint64_value, mod64_mod60, Hv by assumption.
    reflexivity.
  - rewrite Hev in Hodd. discriminate Hodd.
  - exfalso. apply Hb. rewrite Forall_forall in Hall. apply Hall.
    apply in_or_app. right. left. reflexivity.
Qed.

(** X19. What [NewFromPartsHex] rejects before it looks at the components:
    a string with a byte that is no hexadecimal digit, reporting the first
    such byte, and a string of digits in odd number, reporting the length.
    Every other string goes on to [NewFromParts]. *)
Theorem NewFromPartsHex_cases (c : Components) (h : gostring) (wc : bool) :
  (exists pre b rest,
     h = pre ++ b :: rest /\ Forall is_hex pre /\ ~ is_hex b
     /\ NewFromPartsHex c h wc = RandomHexError (hex.InvalidByteError b))
  \/ (Forall is_hex h /\ Nat.even (length h) = false
      /\ NewFromPartsHex c h wc = RandomHexError hex.ErrLength)
  \/ (Forall is_hex h /\ Nat.even (length h) = true
      /\ exists r, NewFromPartsHex c h wc = FromParts r).
Proof.
  unfold NewFromPartsHex, hex.DecodeString.
  destruct (hex_Decode_cases h)
    as [(Hall & Hev & rb & E & _)
       | [(Hall & Hodd & rb & E) | (pre & b & rest & rb & Eh & Hpre & Hb & E)]];
    rewrite E.
  - right. right. split; [exact Hall |]. split; [exact Hev |]. eexists. reflexivity.
  - right. left. split; [exact Hall |]. split; [exact Hodd | reflexivity].
  - left. exists pre, b, rest. repeat split; assumption.
Qed.

(** ** The test vectors *)

Local Abbreviation buildID := (spec_vectors_test.buildID lowerUnicode).
Local Abbreviation isInvalid := (spec_vectors_test.isInvalid lowerUnicode).
Local Abbreviation encode_check := (spec_vectors_test.encode_check lowerUnicode).
Local Abbreviation parse_check := (spec_vectors_test.parse_check lowerUnicode foldUnicode).

(** An identifier [NewFromPartsHex] has made from a vector: it holds a dash
    exactly with checksum, the hexadecimal string was decoded, and the
    identifier parses to the vector's fields, the time as [time_read] has
    it. *)
Lemma vector_generated (v : vector) (wc : bool) (got : gostring) :
  vector_typed v ->
  NewFromPartsHex (vector_components v) (v_RandomHex v) wc = FromParts (Ok got) ->
  Contains got (str "-") = wc
  /\ exists rb,
       hex.DecodeString (v_RandomHex v) = (rb, None) /\ is_bytes rb
       /\ (2 * length rb = length (v_RandomHex v))%nat
       /\ Parse got = Ok {| Prefix := v_Prefix v;
                            TimeMs := time_read (v_TimeMs v);
                            Flags := v_Flags v;
                            Tenant := v_Tenant v;
                            Seq := v_Seq v mod 4096;
                            Shard := v_Shard v;
                            Random := value 8 rb mod 2 ^ 60 |}.
Proof.
  intros (Ht & Hfl & Hte & Hsq & Hsh) Hgot.
  unfold NewFromPartsHex in Hgot. unfold hex.DecodeString in *.
  destruct (hex_Decode_cases (v_RandomHex v))
    as [(_ & _ & rb & E & Hb & _ & Hl)
       | [(_ & _ & rb & E) | (pre & b & rest & rb & _ & _ & _ & E)]];
    rewrite E in Hgot; try discriminate Hgot.
  injection Hgot as Hgot.
  set (c := mkComponents _ _ _ _ _ _ _) in Hgot.
  destruct (prefixRe_MatchString (v_Prefix v)) eqn:Hp.
  2:{ unfold NewFromParts, validatePrefix in Hgot. cbn [c c_Prefix] in Hgot.
      rewrite Hp in Hgot. discriminate Hgot. }
  destruct (NewFromParts_returns c wc Hp Ht Hfl Hte Hsh)
    as (ds & cs & _ & Hds & _ & _ & _ & Hnew & Hparse).
  rewrite Hnew in Hgot. injection Hgot as <-.
  split; [apply identifier_dash; assumption |].
  exists rb. split; [exact E |]. split; [exact Hb |]. split; [exact Hl |].
  subst c. cbn [c_Prefix c_TimeMs c_Flags c_Tenant c_Seq c_Shard c_Random60] in Hparse.
  rewrite Hparse. unfold time_read.
  change 1152921504606846975 with (2 ^ 60 - 1).
  rewrite land_mask, Z.mod_mod, be_uint64_value, mod64_mod60 by (assumption || lia).
  reflexivity.
Qed.

(** X20. The two tests over the spec vectors.  For a vector that is not
    marked as an error, whose description does not say [invalid] and whose
    numbers have their Go types: if the encode test passes on it, the parse
    test passes on it too, with two exceptions.  A time outside the range
    of the layout is reported as a time mismatch, since the identifier holds
    another time; and an empty [random_hex], which [NewFromPartsHex] takes
    for zero, is refused by the test's own [hexTo60]. *)
Theorem encode_check_then_parse_check (vec : vector) :
  vector_typed vec -> v_ExpectError vec = false -> isInvalid vec = false ->
  encode_check vec = spec_vectors_test.Pass ->
  parse_check vec
  = if negb (time_in_range (v_TimeMs vec))
    then spec_vectors_test.Fatalf spec_vectors_test.TimeMismatch
    else if len (v_RandomHex vec) =? 0
    then spec_vectors_test.Fatalf spec_vectors_test.RandomDecode
    else spec_vectors_test.Pass.
Proof.
  intros Hty Hee Hinv Henc.
  unfold spec_vectors_test.encode_check in Henc. rewrite Hinv in Henc.
  unfold spec_vectors_test.buildID in Henc.
  destruct (NewFromPartsHex _ _ _) as [err | [got | e | pn]] eqn:Hgot;
    try discriminate Henc.
  destruct (string_eq got (v_ID vec)) eqn:Eid; [| discriminate Henc].
  apply string_eq_true in Eid. subst got.
  destruct (vector_generated vec _ _ Hty Hgot) as (_ & rb & E & Hb & Hl & Hparse).
  unfold spec_vectors_test.parse_check. rewrite Hparse, Hee, Hinv.
  cbn [Prefix TimeMs Flags Tenant Seq Shard Random].
  rewrite string_eq_refl, !Z.eqb_refl, time_read_kept. cbn [negb].
  destruct (time_in_range (v_TimeMs vec)); cbn [negb]; [| reflexivity].
  rewrite mask12, Z.eqb_refl. cbn [negb].
  rewrite (test_hexTo60_value _ rb E Hb Hl).
  destruct (len (v_RandomHex vec) =? 0); [reflexivity |].
  rewrite Z.eqb_refl. reflexivity.
Qed.

(** ** The tools *)

Local Abbreviation golden_round := (goldenize.vector_round lowerUnicode).
Local Abbreviation golden_rounds := (goldenize.rounds lowerUnicode).
Local Abbreviation golden_main := (goldenize.main lowerUnicode).
Local Abbreviation conformance_round := (conformance.vector_round lowerUnicode foldUnicode).

(** What a round of [goldenize] leaves of a vector it does not skip. *)
Lemma golden_round_inv (vec vec' : vector) (ch : bool) :
  golden_round vec = goldenize.Done (vec', ch) -> v_ExpectError vec = false ->
  exists got,
    NewFromPartsHex (vector_components vec) (v_RandomHex vec)
      (Contains (v_ID vec) (str "-")) = FromParts (Ok got)
    /\ vec' = goldenize.set_ID vec got
    /\ (ch = false -> vec' = vec).
Proof.
  unfold goldenize.vector_round. intros H Hee. rewrite Hee in H.
  destruct (NewFromPartsHex _ _ _) as [err | [got | e | pn]]; try discriminate H.
  exists got. split; [reflexivity |].
  destruct (string_eq (v_ID vec) got) eqn:Eid; cbn [negb] in H;
    injection H as <- <-.
  - apply string_eq_true in Eid. subst got.
    split; [destruct vec; reflexivity | reflexivity].
  - split; [reflexivity | discriminate].
Qed.

(** X21. A vector that [goldenize] has gone over passes [conformance]:
    the encode check always, and the parse check when its time lies in the
    range of the layout.  For a time outside, [goldenize] writes an
    identifier that [conformance] counts as a parse failure. *)
Theorem goldenized_vector_conforms (verbose failFast : bool) (vec vec' : vector)
    (ch : bool) (k : conformance.counts) :
  vector_typed vec -> v_ExpectError vec = false ->
  golden_round vec = goldenize.Done (vec', ch) ->
  conformance_round verbose failFast vec' k
  = conformance.Next
      ((if time_in_range (v_TimeMs vec)
        then conformance.add_parseOK else conformance.add_parseFail)
         (conformance.add_encOK k)).
Proof.
  intros Hty Hee Hround.
  destruct (golden_round_inv vec vec' ch Hround Hee) as (got & Hgot & -> & _).
  destruct (vector_generated vec _ _ Hty Hgot) as (Hdash & rb & E & Hb & Hl & Hparse).
  unfold conformance.vector_round, conformance.encode_round, conformance.parse_round.
  cbn [goldenize.set_ID v_ExpectError v_ID v_RandomHex v_Prefix v_TimeMs v_Flags
       v_Tenant v_Seq v_Shard].
  rewrite Hee. cbn [negb].
  change (vector_components (goldenize.set_ID vec got)) with (vector_components vec).
  rewrite Hdash, Hgot, string_eq_refl. cbn [negb].
  rewrite Hparse. cbn [Prefix TimeMs Flags Tenant Seq Shard Random].
  rewrite string_eq_refl, !Z.eqb_refl, time_read_kept. cbn [negb].
  destruct (time_in_range (v_TimeMs vec)); cbn [negb]; [| reflexivity].
  rewrite mask12, Z.eqb_refl. cbn [negb].
  rewrite (conformance_hexTo60_value _ rb E Hb).
  rewrite Z.eqb_refl. reflexivity.
Qed.

Lemma set_ID_typed (vec : vector) (id : gostring) :
  vector_typed vec -> vector_typed (goldenize.set_ID vec id).
Proof. intros H. exact H. Qed.

(** A second round of [goldenize] changes nothing. *)
Lemma golden_round_again (vec vec' : vector) (ch : bool) :
  vector_typed vec -> golden_round vec = goldenize.Done (vec', ch) ->
  golden_round vec' = goldenize.Done (vec', false).
Proof.
  intros Hty Hround. destruct (v_ExpectError vec) eqn:Hee.
  - unfold goldenize.vector_round in Hround. rewrite Hee in Hround.
    injection Hround as <- <-. unfold goldenize.vector_round. rewrite Hee. reflexivity.
  - destruct (golden_round_inv vec vec' ch Hround Hee) as (got & Hgot & -> & _).
    destruct (vector_generated vec _ _ Hty Hgot) as (Hdash & _).
    unfold goldenize.vector_round.
    cbn [goldenize.set_ID v_ExpectError v_ID v_RandomHex].
    rewrite Hee.
    change (vector_components (goldenize.set_ID vec got)) with (vector_components vec).
    rewrite Hdash, Hgot, string_eq_refl. reflexivity.
Qed.

Lemma golden_rounds_again (vs : list vector) :
  Forall vector_typed vs ->
  forall vs' c c' c0,
  golden_rounds vs c = goldenize.Done (vs', c') ->
  golden_rounds vs' c0 = goldenize.Done (vs', c0).
Proof.
  induction 1 as [| vec vs Hty _ IH]; intros vs' c c' c0 H.
  - cbn [goldenize.rounds] in H. injection H as <- <-. reflexivity.
  - cbn [goldenize.rounds] in H.
    destruct (golden_round vec) as [[vec' ch] | e | pn] eqn:Hround; try discriminate H.
    destruct (golden_rounds vs (c || ch)) as [[rest' c1] | e | pn] eqn:Hrest;
      try discriminate H.
    injection H as <- <-.
    cbn [goldenize.rounds].
    rewrite (golden_round_again vec vec' ch Hty Hround).
    rewrite (IH rest' (c || ch) c1 (c0 || false) Hrest).
    rewrite orb_false_r. reflexivity.
Qed.

Lemma golden_rounds_unchanged (vs : list vector) :
  forall vs' c,
  golden_rounds vs c = goldenize.Done (vs', false) -> vs' = vs /\ c = false.
Proof.
  induction vs as [| vec vs IH]; intros vs' c H.
  - cbn [goldenize.rounds] in H. injection H as <- ->. split; reflexivity.
  - cbn [goldenize.rounds] in H.
    destruct (golden_round vec) as [[vec' ch] | e | pn] eqn:Hround; try discriminate H.
    destruct (golden_rounds vs (c || ch)) as [[rest' c1] | e | pn] eqn:Hrest;
      try discriminate H.
    injection H as <- ->.
    destruct (IH rest' (c || ch) Hrest) as [-> Hc].
    apply orb_false_iff in Hc. destruct Hc as [-> ->].
    split; [| reflexivity]. f_equal.
    destruct (v_ExpectError vec) eqn:Hee.
    + unfold goldenize.vector_round in Hround. rewrite Hee in Hround.
      injection Hround as <-. reflexivity.
    + destruct (golden_round_inv vec vec' false Hround Hee) as (_ & _ & _ & Hsame).
      apply Hsame. reflexivity.
Qed.

(** X22. [goldenize] is idempotent: run on the vectors it has left, it
    leaves them as they are.  Whether an identifier gets a checksum is read
    off the identifier it replaces, and the one written has a dash exactly
    when it was made with checksum. *)
Theorem goldenize_idempotent (vs vs' : list vector) :
  Forall vector_typed vs ->
  golden_main vs = goldenize.Done vs' ->
  golden_main vs' = goldenize.Done vs'.
Proof.
  intros Hty H. unfold goldenize.main in *.
  destruct (golden_rounds vs false) as [[out changed] | e | pn] eqn:Hrounds;
    try discriminate H.
  injection H as <-.
  assert (E : (if changed then out else vs) = out).
  { destruct changed; [reflexivity |].
    destruct (golden_rounds_unchanged vs out false Hrounds) as [-> _]. reflexivity. }
  rewrite E.
  rewrite (golden_rounds_again vs Hty out false changed false Hrounds). reflexivity.
Qed.

(** ** Tampering with an identifier *)

(** On characters of the alphabet [EqualFold] is equality. *)
Lemma EqualFold_symbols (a : list Z) :
  forall b, digits 5 a -> digits 5 b ->
  EqualFold (map sym a) (map sym b) = true -> a = b.
Proof.
  assert (Hall : forallb (fun x => forallb (fun y =>
            let sr := sym (Z.of_nat x) in
            let tr := sym (Z.of_nat y) in
            negb (RuneSelf <=? sr .| tr)
            && (Nat.eqb x y
                || (negb (tr =? sr)
                    && negb (let '(sr, tr) := if tr <? sr then (tr, sr) else (sr, tr) in
                             is_upper sr && (tr =? sr + 32)))))
            (seq 0 32)) (seq 0 32) = true) by (vm_compute; reflexivity).
  induction a as [| x a IH]; intros [| y b] Ha Hb H; try discriminate H; [reflexivity |].
  inversion Ha as [| ? ? Hx Ha']; subst. inversion Hb as [| ? ? Hy Hb']; subst.
  cbn [map EqualFold] in H.
  rewrite forallb_forall in Hall.
  specialize (Hall (Z.to_nat x) ltac:(apply in_seq; lia)).
  rewrite forallb_forall in Hall.
  specialize (Hall (Z.to_nat y) ltac:(apply in_seq; lia)).
  rewrite !Z2Nat.id in Hall by lia. cbv zeta in Hall.
  apply andb_true_iff in Hall. destruct Hall as [Hascii Hcase].
  apply negb_true_iff in Hascii. rewrite Hascii in H.
  apply orb_true_iff in Hcase. destruct Hcase as [Heq | Hne].
  - apply Nat.eqb_eq in Heq. assert (x = y) by lia. subst y.
    rewrite Z.eqb_refl in H. f_equal. apply IH; assumption.
  - apply andb_true_iff in Hne. destruct Hne as [Hne Hup].
    apply negb_true_iff in Hne, Hup. rewrite Hne in H.
    destruct (if sym y <? sym x then (sym y, sym x) else (sym x, sym y)) as [sr tr].
    rewrite Hup in H. discriminate H.
Qed.

(** [Parse] on a canonical identifier with any four symbols for checksum:
    it checks them against the checksum of the base. *)
Lemma Parse_identifier_suffix (p : gostring) (ds cs given : list Z) :
  prefixRe_MatchString p = true -> length ds = 32%nat -> digits 5 ds ->
  checksum4Base (canonical_base p ds) = Ok (map sym cs) ->
  digits 5 cs -> length given = 4%nat -> digits 5 given ->
  Parse (canonical_base p ds ++ str "-" ++ map sym given)
  = if list_eq_dec Z.eq_dec given cs then Parse (canonical_base p ds)
    else Err ErrChecksumMismatch.
Proof.
  intros Hp Hl Hds Hsum Hcs Hgl Hgiven.
  pose proof (symbols_accepted ds Hds) as Hacc.
  assert (Hql : length (map sym ds) = 32%nat) by (rewrite length_map; exact Hl).
  unfold canonical_base at 1. rewrite <- !app_assoc.
  rewrite (Parse_spelled_suffix p (map sym ds) (map sym given) Hp Hql Hacc).
  2:{ apply word_no_space, symbols_word. exact Hgiven. }
  2:{ apply word_no_dash, symbols_word. exact Hgiven. }
  replace (len (map sym given) =? 4) with true
    by (unfold len; rewrite length_map, Hgl; reflexivity).
  cbn [negb]. rewrite map_alphaRev_sym by exact Hds. rewrite Hsum. cbn [bind].
  destruct (list_eq_dec Z.eq_dec given cs) as [-> | Hne].
  - rewrite EqualFold_refl_ascii.
    2:{ apply Forall_map. eapply Forall_impl; [| exact Hcs].
        intros d Hd. apply sym_ascii. exact Hd. }
    cbn [negb]. unfold canonical_base.
    rewrite (Parse_spelled p (map sym ds) Hp Hql Hacc). reflexivity.
  - destruct (EqualFold (map sym given) (map sym cs)) eqn:E; [| reflexivity].
    exfalso. apply Hne. apply EqualFold_symbols; assumption.
Qed.

(** A canonical identifier with checksum, its last character set apart. *)
Lemma identifier_last (p : gostring) (ds : list Z) (a b c d : Z) :
  identifier p ds true [a; b; c; d]
  = (canonical_base p ds ++ str "-" ++ map sym [a; b; c]) ++ [sym d].
Proof. unfold identifier. rewrite <- !app_assoc. reflexivity. Qed.

Lemma identifier_last_back (p : gostring) (ds : list Z) (a b c d : Z) :
  (canonical_base p ds ++ str "-" ++ map sym [a; b; c]) ++ [sym d]
  = canonical_base p ds ++ str "-" ++ map sym [a; b; c; d].
Proof. rewrite <- !app_assoc. reflexivity. Qed.

(** X23. The tamper demo of the command-line tool.  On a canonical
    identifier with its checksum, replacing the last character as the demo
    does always makes [Parse] fail with a checksum mismatch.  On an
    identifier without checksum the demo changes the last payload
    character, and [Parse] accepts the result. *)
Theorem tamper_demo (p : gostring) (ds cs : list Z) :
  prefixRe_MatchString p = true -> length ds = 32%nat -> digits 5 ds ->
  length cs = 4%nat -> digits 5 cs ->
  checksum4Base (canonical_base p ds) = Ok (map sym cs) ->
  Parse (cli.tamper (identifier p ds true cs)) = Err ErrChecksumMismatch
  /\ exists r, Parse (cli.tamper (identifier p ds false cs)) = Ok r.
Proof.
  intros Hp Hl Hds Hcl Hcs Hsum. split.
  - destruct (four_last cs Hcl) as (a & b & c & d & ->).
    assert (Hd : 0 <= d < 2 ^ 5).
    { inversion Hcs as [| ? ? _ H1]; subst. inversion H1 as [| ? ? _ H2]; subst.
      inversion H2 as [| ? ? _ H3]; subst. inversion H3; subst. assumption. }
    rewrite identifier_last, tamper_last, sym_is_zero by exact Hd.
    set (d' := if d =? 0 then 1 else 0).
    assert (Hd' : 0 <= d' < 2 ^ 5 /\ d' <> d).
    { unfold d'. destruct (Z.eqb_spec d 0); lia. }
    replace (if d =? 0 then chr "1" else chr "0") with (sym d')
      by (unfold d'; destruct (d =? 0); reflexivity).
    rewrite identifier_last_back.
    rewrite (Parse_identifier_suffix p ds [a; b; c; d] [a; b; c; d']); try assumption.
    + destruct (list_eq_dec Z.eq_dec [a; b; c; d'] [a; b; c; d]) as [E | _];
        [| reflexivity].
      exfalso. injection E as E. lia.
    + inversion Hcs as [| ? ? Ha H1]; subst. inversion H1 as [| ? ? Hb H2]; subst.
      inversion H2 as [| ? ? Hc H3]; subst.
      repeat (apply Forall_cons; [assumption || lia |]). apply Forall_nil.
  - unfold identifier. rewrite app_nil_r.
    assert (Hne : ds <> []) by (intros ->; discriminate Hl).
    rewrite (app_removelast_last 0 Hne) in Hl, Hds |- *.
    set (ds' := removelast ds) in *. set (e := last ds 0) in *.
    apply Forall_app in Hds. destruct Hds as [Hds' He].
    inversion He as [| ? ? He' _]; subst.
    unfold canonical_base. rewrite map_app. cbn [map].
    rewrite !app_assoc, tamper_last, sym_is_zero by exact He'.
    set (e' := if e =? 0 then 1 else 0).
    assert (He'' : 0 <= e' < 2 ^ 5) by (unfold e'; destruct (e =? 0); lia).
    replace (if e =? 0 then chr "1" else chr "0") with (sym e')
      by (unfold e'; destruct (e =? 0); reflexivity).
    rewrite <- !app_assoc.
    change (map sym ds' ++ [sym e']) with (map sym ds' ++ map sym [e']).
    rewrite <- map_app.
    assert (Hds2 : digits 5 (ds' ++ [e'])).
    { apply Forall_app. split; [exact Hds' |]. constructor; [exact He'' | constructor]. }
    assert (Hl2 : length (map sym (ds' ++ [e'])) = 32%nat).
    { rewrite length_map, length_app in *. cbn [length] in *. exact Hl. }
    rewrite Parse_spelled; [| exact Hp | exact Hl2 | apply symbols_accepted; exact Hds2].
    unfold decode_fields.
    destruct (b32decode_spec _ Hl2 (symbols_accepted _ Hds2)) as (body & Hdec & Hbl & _).
    rewrite Hdec. cbn [bind].
    destruct (unpack_returns body Hbl) as (f & Hun). rewrite Hun. cbn [bind].
    eexists. reflexivity.
Qed.

(** X24. The last check of [TestChecksumRoundTrip].  The test sets the last
    character of an identifier with checksum to ['0'] and expects [Parse] to
    fail.  [Parse] fails with a checksum mismatch unless the identifier
    ended in ['0'] already; then the string is unchanged and parses, so the
    test fails on such an identifier. *)
Theorem tamper_zero_New (prefix : gostring) (opts : list Option) (now : Z)
    (rnd : list Z) (st : seq_state) :
  New_ready prefix opts rnd -> withChecksum (resolve_options opts) = true ->
  exists id r,
    fst (New prefix opts now (Some rnd) st) = Ok id
    /\ Parse id = Ok r
    /\ Parse (tamper_zero id)
       = if at_ id (len id - 1) =? chr "0" then Ok r else Err ErrChecksumMismatch.
Proof.
  intros Hready Hwc. pose proof Hready as (Hp & _).
  destruct (New_returns prefix opts now rnd st Hready)
    as (ds & cs & Hdl & Hds & Hcl & Hcs & _ & Hsum & Hnew & Hparse).
  rewrite Hwc in *. rewrite Hnew. cbn [fst]. eexists _, _.
  split; [reflexivity |]. split; [exact Hparse |].
  destruct (four_last cs Hcl) as (a & b & c & d & ->).
  assert (Hd : 0 <= d < 2 ^ 5).
  { inversion Hcs as [| ? ? _ H1]; subst. inversion H1 as [| ? ? _ H2]; subst.
    inversion H2 as [| ? ? _ H3]; subst. inversion H3; subst. assumption. }
  rewrite identifier_last in *. rewrite tamper_zero_last, at_last, sym_is_zero by exact Hd.
  change (chr "0") with (sym 0). rewrite identifier_last_back.
  rewrite (Parse_identifier_suffix prefix ds [a; b; c; d] [a; b; c; 0]); try assumption.
  - destruct (Z.eqb_spec d 0) as [-> | N].
    + destruct (list_eq_dec Z.eq_dec [a; b; c; 0] [a; b; c; 0]) as [_ | N];
        [| contradiction].
      rewrite identifier_last_back in Hparse.
      rewrite (Parse_identifier_suffix prefix ds [a; b; c; 0] [a; b; c; 0]) in Hparse;
        try assumption.
      destruct (list_eq_dec Z.eq_dec [a; b; c; 0] [a; b; c; 0]) as [_ | N];
        [exact Hparse | contradiction].
    + destruct (list_eq_dec Z.eq_dec [a; b; c; 0] [a; b; c; d]) as [E | _];
        [| reflexivity].
      exfalso. injection E as E. lia.
  - inversion Hcs as [| ? ? Ha H1]; subst. inversion H1 as [| ? ? Hb H2]; subst.
    inversion H2 as [| ? ? Hc H3]; subst.
    repeat (apply Forall_cons; [assumption || lia |]). apply Forall_nil.
Qed.
(** ** What the checksum detects *)

(** The checksum of a canonical base, and of the same base with one symbol
    replaced. *)
Lemma checksum4Base_substituted (p : gostring) (pre post : list Z) (d d' : Z) :
  prefixRe_MatchString p = true -> digits 5 pre -> digits 5 post ->
  0 <= d < 2 ^ 5 -> 0 <= d' < 2 ^ 5 -> d <> d' ->
  (2 <= length post <= 31)%nat ->
  checksum4Base (canonical_base p (pre ++ d' :: post))
  <> checksum4Base (canonical_base p (pre ++ d :: post)).
Proof.
  intros Hp Hpre Hpost Hd Hd' Hne Hlen.
  assert (Hds : forall e, 0 <= e < 2 ^ 5 -> digits 5 (pre ++ e :: post)).
  { intros e He. apply Forall_app. split; [exact Hpre |]. constructor; assumption. }
  rewrite !checksum4Base_canonical_value by (try assumption; apply Hds; assumption).
  intros E.
  apply (f_equal (fun o => match o with Ok l => l | _ => [] end)) in E.
  cbv beta iota in E.
  set (h := hrpExpand (p ++ str "_")) in *.
  assert (Eshape : forall e,
            (h ++ pre ++ e :: post) ++ [0; 0; 0; 0]
            = (h ++ pre) ++ e :: (post ++ [0; 0; 0; 0])).
  { intros e. rewrite <- !app_assoc. reflexivity. }
  rewrite !Eshape in *.
  rewrite (polymod_substitute (h ++ pre) (post ++ [0; 0; 0; 0]) d d') in *.
  set (pm := bech32Polymod ((h ++ pre) ++ d :: post ++ [0; 0; 0; 0])) in *.
  set (D := polymod_shifts (length (post ++ [0; 0; 0; 0])) (d .^ d')) in *.
  assert (HD : D .& (2 ^ 20 - 1) <> 0).
  { unfold D. apply polymod_shifts_low20.
    - rewrite length_app. cbn [length]. lia.
    - apply symbol_difference; assumption. }
  apply (low20_changed (pm .^ 1) D HD).
  replace ((pm .^ 1) .^ D) with ((pm .^ D) .^ 1) by lxor_ac.
  apply checksum_symbols_inj. exact E.
Qed.

(** X25. What the checksum catches in the payload.  In a canonical
    identifier with its checksum, replace one of the first thirty payload
    characters by another character of the alphabet: the checksum of the
    new base is another one, and [Parse] fails with a checksum mismatch.
    (The last two payload characters are out of the checksum's reach.) *)
Theorem checksum_detects_substitution (p : gostring) (pre post cs : list Z) (d d' : Z) :
  prefixRe_MatchString p = true -> digits 5 pre -> digits 5 post ->
  0 <= d < 2 ^ 5 -> 0 <= d' < 2 ^ 5 -> d <> d' ->
  length (pre ++ d :: post) = 32%nat -> (2 <= length post)%nat ->
  length cs = 4%nat -> digits 5 cs ->
  checksum4Base (canonical_base p (pre ++ d :: post)) = Ok (map sym cs) ->
  checksum4Base (canonical_base p (pre ++ d' :: post)) <> Ok (map sym cs)
  /\ Parse (canonical_base p (pre ++ d' :: post) ++ str "-" ++ map sym cs)
     = Err ErrChecksumMismatch.
Proof.
  intros Hp Hpre Hpost Hd Hd' Hne Hl Hpl Hcl Hcs Hsum.
  assert (Hlen : (2 <= length post <= 31)%nat).
  { rewrite length_app in Hl. cbn [length] in Hl. lia. }
  pose proof (checksum4Base_substituted p pre post d d' Hp Hpre Hpost Hd Hd' Hne Hlen)
    as Hdiff.
  rewrite Hsum in Hdiff. split; [exact Hdiff |].
  assert (Hds' : digits 5 (pre ++ d' :: post)).
  { apply Forall_app. split; [exact Hpre |]. constructor; assumption. }
  assert (Hl' : length (pre ++ d' :: post) = 32%nat).
  { rewrite length_app in *. cbn [length] in *. exact Hl. }
  destruct (checksum4Base_canonical p _ Hp Hds') as (cs' & Hsum' & Hcl' & Hcs').
  rewrite (Parse_identifier_suffix p _ cs' cs); try assumption.
  destruct (list_eq_dec Z.eq_dec cs cs') as [-> | _]; [| reflexivity].
  exfalso. apply Hdiff. exact Hsum'.
Qed.

End CodecProperties.

(** * Instances on concrete identifiers *)

Lemma unpack_pack_witness :
  unpack (pack 180032357707 0 12 0 13811 190998482103373592) =
  Ok (180032357707, 0, 12, 0, 13811, 190998482103373592).
Proof. apply unpack_pack; lia. Defined.

Lemma b32_roundtrip_witness :
  exists s,
    b32encode (pack 180032357707 0 12 0 13811 190998482103373592) = Ok s
    /\ length s = 32%nat
    /\ Forall (fun c => In c alpha) s
    /\ b32decode s = Ok (pack 180032357707 0 12 0 13811 190998482103373592).
Proof.
  apply b32_roundtrip; [reflexivity |].
  apply pack_is_bytes. unfold is_u8. lia.
Defined.

Lemma Parse_NewFromParts_witness :
  exists s,
    NewFromParts lowerUnicode_unused
      (mkComponents (str "order") 1757869157707 0 12 0 13811 190998482103373592) true
    = Ok s
    /\ Parse lowerUnicode_unused foldUnicode_unused s
       = Ok {| Prefix := str "order";
               TimeMs := 1757869157707;
               Flags := 0;
               Tenant := 12;
               Seq := 0 mod 4096;
               Shard := 13811;
               Random := 190998482103373592 mod 2 ^ 60 |}.
Proof.
  apply (Parse_NewFromParts lowerUnicode_unused foldUnicode_unused
           (mkComponents (str "order") 1757869157707 0 12 0 13811 190998482103373592) true);
    cbn; unfold is_u8, is_u16, is_u64, epoch2020; first [reflexivity | lia].
Defined.

Lemma ksortable_witness :
  exists s1 s2,
    NewFromParts lowerUnicode_unused
      (mkComponents (str "order") 1757869157707 0 12 7 34 5) false = Ok s1
    /\ NewFromParts lowerUnicode_unused
         (mkComponents (str "order") 1757869157708 0 12 0 34 1) false = Ok s2
    /\ lex_compare
         (pack_fields (fields_of (mkComponents (str "order") 1757869157707 0 12 7 34 5)))
         (pack_fields (fields_of (mkComponents (str "order") 1757869157708 0 12 0 34 1)))
       = fields_compare
           (fields_of (mkComponents (str "order") 1757869157707 0 12 7 34 5))
           (fields_of (mkComponents (str "order") 1757869157708 0 12 0 34 1))
    /\ lex_compare s1 s2
       = fields_compare
           (fields_of (mkComponents (str "order") 1757869157707 0 12 7 34 5))
           (fields_of (mkComponents (str "order") 1757869157708 0 12 0 34 1))
    /\ (1757869157707 < 1757869157708 -> lex_compare s1 s2 = Lt)
    /\ (1757869157707 = 1757869157708 -> 0 = 0 -> 12 = 12 ->
        lex_compare s1 s2 =
        then_compare (7 mod 2 ^ 12 ?= 0 mod 2 ^ 12)
          (then_compare (34 ?= 34) (5 mod 2 ^ 60 ?= 1 mod 2 ^ 60))).
Proof.
  apply (ksortable lowerUnicode_unused
           (mkComponents (str "order") 1757869157707 0 12 7 34 5)
           (mkComponents (str "order") 1757869157708 0 12 0 34 1));
    try reflexivity;
    unfold components_in_range, is_u8, is_u16, is_u64, epoch2020; cbn; lia.
Defined.

(** C4, as stated, fails where the shards differ: these two identifiers
    agree in time, flags, tenant and seq, the first has the smaller random,
    and it sorts after the second. *)
Lemma seq_then_random_counterexample :
  NewFromParts lowerUnicode_unused
    (mkComponents (str "order") epoch2020 0 0 0 1 0) false
  = Ok (str "order_00000000000000000001000000000000")
  /\ NewFromParts lowerUnicode_unused
       (mkComponents (str "order") epoch2020 0 0 0 0 1) false
     = Ok (str "order_00000000000000000000000000000001")
  /\ then_compare (0 ?= 0) (0 ?= 1) = Lt
  /\ lex_compare (str "order_00000000000000000001000000000000")
       (str "order_00000000000000000000000000000001") = Gt.
Proof. vm_compute. repeat split. Qed.



Lemma u_decodes_as_v_witness :
  alphaRev (chr "u") = alphaRev (chr "v")
  /\ alphaRev (chr "U") = alphaRev (chr "v")
  /\ alphaRev (chr "v") = 27
  /\ b32decode (str "00myngy59c0003000dfk5uUvvvvvvvvv")
     = b32decode (str "00myngy59c0003000dfk5vvvvvvvvvvv")
  /\ check_symbols (str "00myngy59c0003000dfk5uUvvvvvvvvv") 0
     = check_symbols (str "00myngy59c0003000dfk5vvvvvvvvvvv") 0
  /\ (forall k,
      b32decode (str "00myngy59c0003000dfk5uUvvvvvvvvv") = Err (ErrInvalidBase32At k) ->
      at_ (str "00myngy59c0003000dfk5uUvvvvvvvvv") k <> chr "u"
      /\ at_ (str "00myngy59c0003000dfk5uUvvvvvvvvv") k <> chr "U")
  /\ (forall k,
      check_symbols (str "00myngy59c0003000dfk5uUvvvvvvvvv") 0 = Err (ErrInvalidBase32Pos k) ->
      at_ (str "00myngy59c0003000dfk5uUvvvvvvvvv") k <> chr "u"
      /\ at_ (str "00myngy59c0003000dfk5uUvvvvvvvvv") k <> chr "U").
Proof.
  apply (u_decodes_as_v (str "00myngy59c0003000dfk5vvvvvvvvvvv")
           (str "00myngy59c0003000dfk5uUvvvvvvvvv")).
  - reflexivity.
  - repeat first
      [ apply Forall2_nil
      | apply Forall2_cons;
        [ first [ left; reflexivity
                | right; split; [reflexivity | left; reflexivity]
                | right; split; [reflexivity | right; reflexivity] ] | ] ].
Defined.

(** C10, as stated, gives the shared value as 31; it is 27, and 31 is the
    value of [z]. *)
Lemma u_value_counterexample :
  alphaRev (chr "u") = 27 /\ alphaRev (chr "U") = 27 /\ alphaRev (chr "v") = 27
  /\ alphaRev (chr "z") = 31 /\ (alphaRev (chr "v") =? 31) = false.
Proof. vm_compute. repeat split. Qed.

Lemma sequence_generator_witness :
  exists id1 id2 p1 p2 st1 st2,
    New lowerUnicode_unused (str "order") [WithTenant 12; WithShard 34]
      1757869157707 (Some [255; 1; 2; 3; 4; 5; 6; 7]) (0, 0) = (Ok id1, st1)
    /\ st1 = sequence_step (0, 0)
               (incoming_ms (resolve_options [WithTenant 12; WithShard 34]) 1757869157707)
    /\ Parse lowerUnicode_unused foldUnicode_unused id1 = Ok p1 /\ Seq p1 = snd st1
    /\ New lowerUnicode_unused (str "user") [WithChecksum true]
         1757869157707 (Some [9; 8; 7; 6; 5; 4; 3; 2]) st1 = (Ok id2, st2)
    /\ st2 = sequence_step st1
               (incoming_ms (resolve_options [WithChecksum true]) 1757869157707)
    /\ Parse lowerUnicode_unused foldUnicode_unused id2 = Ok p2 /\ Seq p2 = snd st2
    /\ (incoming_ms (resolve_options [WithTenant 12; WithShard 34]) 1757869157707
        = incoming_ms (resolve_options [WithChecksum true]) 1757869157707 ->
        Seq p2 = (Seq p1 + 1) mod 4096).
Proof.
  apply (sequence_generator lowerUnicode_unused foldUnicode_unused
           (str "order") (str "user") [WithTenant 12; WithShard 34] [WithChecksum true]
           1757869157707 1757869157707
           [255; 1; 2; 3; 4; 5; 6; 7] [9; 8; 7; 6; 5; 4; 3; 2] (0, 0)).
  - unfold New_ready, is_u16, is_bytes, is_u8. cbn.
    repeat split; try lia; try reflexivity.
    repeat (apply Forall_cons; [lia |]). apply Forall_nil.
  - unfold New_ready, is_u16, is_bytes, is_u8. cbn.
    repeat split; try lia; try reflexivity.
    repeat (apply Forall_cons; [lia |]). apply Forall_nil.
Defined.

(** * Instances of the further properties *)

Ltac all_accepted :=
  repeat (apply Forall_cons;
          [unfold accepted; split; [apply Z.leb_le | apply Z.ltb_lt]; vm_compute; reflexivity |]);
  apply Forall_nil.

Ltac all_bytes :=
  repeat (apply Forall_cons; [unfold is_u8; lia |]); apply Forall_nil.

Ltac all_no_space :=
  repeat (apply Forall_cons; [split; reflexivity |]); apply Forall_nil.

Ltac ready :=
  unfold New_ready, is_u16, is_bytes, is_u8; cbn;
  repeat split; try lia; try reflexivity;
  repeat (apply Forall_cons; [lia |]); apply Forall_nil.

Lemma pack_unpack_witness :
  exists f,
    unpack [0; 41; 234; 195; 196; 203; 0; 0; 12; 0; 3; 95; 50; 166; 144; 55; 12; 217; 31; 24]
    = Ok f
    /\ fields_in_range f
    /\ pack_fields f
       = [0; 41; 234; 195; 196; 203; 0; 0; 12; 0; 3; 95; 50; 166; 144; 55; 12; 217; 31; 24].
Proof. apply pack_unpack; [reflexivity | all_bytes]. Defined.

Lemma b32decode_cases_witness :
  (Forall accepted (str "00myngy59c0003000dfk59mg3e3!j3rr")
   /\ exists b, b32decode (str "00myngy59c0003000dfk59mg3e3!j3rr") = Ok b
                /\ length b = 20%nat /\ is_bytes b)
  \/ (exists i,
        0 <= i < 32 /\ alphaRev (at_ (str "00myngy59c0003000dfk59mg3e3!j3rr") i) = 255
        /\ (forall j, 0 <= j < i -> accepted (at_ (str "00myngy59c0003000dfk59mg3e3!j3rr") j))
        /\ b32decode (str "00myngy59c0003000dfk59mg3e3!j3rr") = Err (ErrInvalidBase32At i)).
Proof. apply b32decode_cases. reflexivity. Defined.

Lemma b32encode_b32decode_witness :
  exists b,
    b32decode (str "O0MYNGY59C0003000DFK59MG3E36J3RR") = Ok b
    /\ b32encode b
       = Ok (map sym (map alphaRev (str "O0MYNGY59C0003000DFK59MG3E36J3RR")))
    /\ (Forall (fun c => In c alpha) (str "O0MYNGY59C0003000DFK59MG3E36J3RR") ->
        b32encode b = Ok (str "O0MYNGY59C0003000DFK59MG3E36J3RR")).
Proof. apply b32encode_b32decode; [reflexivity | all_accepted]. Defined.

Lemma Parse_in_range_witness :
  prefixRe_MatchString
    (Prefix (mkParsed (str "order") 1757869157707 0 12 0 13811 190998482103373592)) = true
  /\ epoch2020
     <= TimeMs (mkParsed (str "order") 1757869157707 0 12 0 13811 190998482103373592)
     < epoch2020 + 2 ^ 48
  /\ is_u8 (Flags (mkParsed (str "order") 1757869157707 0 12 0 13811 190998482103373592))
  /\ is_u16 (Tenant (mkParsed (str "order") 1757869157707 0 12 0 13811 190998482103373592))
  /\ 0 <= Seq (mkParsed (str "order") 1757869157707 0 12 0 13811 190998482103373592) < 2 ^ 12
  /\ is_u16 (Shard (mkParsed (str "order") 1757869157707 0 12 0 13811 190998482103373592))
  /\ 0 <= Random (mkParsed (str "order") 1757869157707 0 12 0 13811 190998482103373592)
     < 2 ^ 60.
Proof.
  apply (Parse_in_range lowerUnicode_unused foldUnicode_unused
           (str " order_00myngy59c0003000dfk59mg3e36j3rr-9XGG ")).
  vm_compute. reflexivity.
Defined.

Lemma Parse_regenerate_witness :
  exists s',
    NewFromParts lowerUnicode_unused
      (components_of (mkParsed (str "order") 1757869157707 0 12 0 13811 190998482103373592))
      true = Ok s'
    /\ Parse lowerUnicode_unused foldUnicode_unused s'
       = Ok (mkParsed (str "order") 1757869157707 0 12 0 13811 190998482103373592).
Proof.
  apply (Parse_regenerate lowerUnicode_unused foldUnicode_unused
           (str "order_O0MYNGY59C0003000DFK59MG3E36J3RR")).
  vm_compute. reflexivity.
Defined.

Lemma Parse_ignores_padding_witness :
  Parse lowerUnicode_unused foldUnicode_unused
    ([32; 9] ++ str "order_00myngy59c0003000dfk59mg3e36j3rr-9xgg" ++ [13; 10])
  = Parse lowerUnicode_unused foldUnicode_unused
      (str "order_00myngy59c0003000dfk59mg3e36j3rr-9xgg").
Proof.
  apply Parse_ignores_padding.
  - repeat (apply Forall_cons; [reflexivity |]). apply Forall_nil.
  - repeat (apply Forall_cons; [reflexivity |]). apply Forall_nil.
  - split; [discriminate |]. split; split; reflexivity.
Defined.

Lemma Parse_same_symbols_witness :
  Parse lowerUnicode_unused foldUnicode_unused
    (str "order" ++ str "_" ++ str "oOMYNGY59C00030o0DFK59MG3E36J3RR")
  = Parse lowerUnicode_unused foldUnicode_unused
      (str "order" ++ str "_" ++ str "00myngy59c0003000dfk59mg3e36j3rr")
  /\ Parse lowerUnicode_unused foldUnicode_unused
       (str "order" ++ str "_" ++ str "oOMYNGY59C00030o0DFK59MG3E36J3RR"
        ++ str "-" ++ str "9xgg")
     = Parse lowerUnicode_unused foldUnicode_unused
         (str "order" ++ str "_" ++ str "00myngy59c0003000dfk59mg3e36j3rr"
          ++ str "-" ++ str "9xgg").
Proof.
  apply Parse_same_symbols.
  - reflexivity.
  - reflexivity.
  - all_accepted.
  - repeat (apply Forall2_cons; [reflexivity |]). apply Forall2_nil.
  - all_no_space.
  - intros H. repeat (destruct H as [H | H]; [discriminate H |]). exact H.
Defined.

Lemma regenerate_canonical_witness :
  exists r,
    Parse lowerUnicode_unused foldUnicode_unused
      (str "order" ++ str "_" ++ str "oOMYNGY59C00030o0DFK59MG3E36J3RR") = Ok r
    /\ NewFromParts lowerUnicode_unused (components_of r) false
       = Ok (str "order" ++ str "_"
             ++ map sym (map alphaRev (str "oOMYNGY59C00030o0DFK59MG3E36J3RR"))).
Proof.
  apply regenerate_canonical; [reflexivity | reflexivity | all_accepted].
Defined.

Lemma Parse_New_witness :
  exists id,
    New lowerUnicode_unused (str "order") [WithTenant 12; WithShard 34]
      1757869157707 (Some [255; 1; 2; 3; 4; 5; 6; 7]) (0, 0)
    = (Ok id, sequence_step (0, 0) (1757869157707 - epoch2020))
    /\ Parse lowerUnicode_unused foldUnicode_unused id
       = Ok {| Prefix := str "order";
               TimeMs := 1757869157707;
               Flags := 0;
               Tenant := tenant (resolve_options [WithTenant 12; WithShard 34]);
               Seq := snd (sequence_step (0, 0) (1757869157707 - epoch2020));
               Shard := shard (resolve_options [WithTenant 12; WithShard 34]);
               Random := value 8 [255; 1; 2; 3; 4; 5; 6; 7] mod 2 ^ 60 |}.
Proof.
  apply (Parse_New lowerUnicode_unused foldUnicode_unused).
  - ready.
  - cbn. lia.
  - unfold epoch2020. lia.
Defined.


Lemma New_shape_witness :
  exists payload cs,
    length payload = 32%nat /\ Forall (fun c => In c alpha) payload
    /\ length cs = 4%nat /\ Forall (fun c => In c alpha) cs
    /\ checksum4Base lowerUnicode_unused (str "order" ++ str "_" ++ payload) = Ok cs
    /\ fst (New lowerUnicode_unused (str "order") [WithChecksum true]
              1757869157707 (Some [255; 1; 2; 3; 4; 5; 6; 7]) (0, 0))
       = Ok (if withChecksum (resolve_options [WithChecksum true])
             then str "order" ++ str "_" ++ payload ++ str "-" ++ cs
             else str "order" ++ str "_" ++ payload)
    /\ (forall id,
          fst (New lowerUnicode_unused (str "order") [WithChecksum true]
                 1757869157707 (Some [255; 1; 2; 3; 4; 5; 6; 7]) (0, 0)) = Ok id ->
          len id
          = len (str "order")
            + (if withChecksum (resolve_options [WithChecksum true]) then 38 else 33)).
Proof. apply (New_shape lowerUnicode_unused foldUnicode_unused). ready. Defined.

Lemma New_sorts_by_time_witness :
  exists id1 id2,
    fst (New lowerUnicode_unused (str "order") [WithTenant 65535; WithShard 65535]
           1757869157707 (Some [255; 255; 255; 255; 255; 255; 255; 255]) (177, 4095)) = Ok id1
    /\ fst (New lowerUnicode_unused (str "order") [WithChecksum true]
              1757869157708 (Some [0; 0; 0; 0; 0; 0; 0; 0]) (0, 0)) = Ok id2
    /\ lex_compare id1 id2 = Lt.
Proof.
  apply (New_sorts_by_time lowerUnicode_unused foldUnicode_unused).
  - ready.
  - ready.
  - cbn. lia.
  - cbn. lia.
  - unfold epoch2020. lia.
  - lia.
  - unfold epoch2020. lia.
Defined.

Lemma New_sorts_within_ms_witness :
  exists id1 id2 st1,
    New lowerUnicode_unused (str "order") [WithTenant 12; WithShard 65535]
      1757869157707 (Some [255; 255; 255; 255; 255; 255; 255; 255])
      (1757869157707 - epoch2020, 4094)
    = (Ok id1, st1)
    /\ fst (New lowerUnicode_unused (str "order") [WithTenant 12]
              1757869157707 (Some [0; 0; 0; 0; 0; 0; 0; 0]) st1) = Ok id2
    /\ lex_compare id1 id2 = if snd st1 <? 4095 then Lt else Gt.
Proof.
  apply (New_sorts_within_ms lowerUnicode_unused foldUnicode_unused).
  - ready.
  - ready.
  - cbn. lia.
  - cbn. lia.
  - reflexivity.
  - unfold epoch2020. lia.
Defined.

Lemma New_outcomes_witness :
  (prefixRe_MatchString (str "order") = false
   /\ New lowerUnicode_unused (str "order") [WithBucketSeconds (2 ^ 61)] 1757869157707
        None (0, 0)
      = (Panic PanicInvalidPrefix, (0, 0)))
  \/ (prefixRe_MatchString (str "order") = true
      /\ 0 < bucketSeconds (resolve_options [WithBucketSeconds (2 ^ 61)])
      /\ (bucketSeconds (resolve_options [WithBucketSeconds (2 ^ 61)]) * 1000) mod 2 ^ 64 = 0
      /\ New lowerUnicode_unused (str "order") [WithBucketSeconds (2 ^ 61)] 1757869157707
           None (0, 0)
         = (Panic PanicDivideByZero, (0, 0)))
  \/ (prefixRe_MatchString (str "order") = true
      /\ ~ (0 < bucketSeconds (resolve_options [WithBucketSeconds (2 ^ 61)])
            /\ (bucketSeconds (resolve_options [WithBucketSeconds (2 ^ 61)]) * 1000)
               mod 2 ^ 64 = 0)
      /\ @None (list Z) = None
      /\ New lowerUnicode_unused (str "order") [WithBucketSeconds (2 ^ 61)] 1757869157707
           None (0, 0)
         = (Panic PanicEntropy,
            sequence_step (0, 0)
              (incoming_ms (resolve_options [WithBucketSeconds (2 ^ 61)]) 1757869157707)))
  \/ (prefixRe_MatchString (str "order") = true
      /\ ~ (0 < bucketSeconds (resolve_options [WithBucketSeconds (2 ^ 61)])
            /\ (bucketSeconds (resolve_options [WithBucketSeconds (2 ^ 61)]) * 1000)
               mod 2 ^ 64 = 0)
      /\ exists (rnd : list Z) id,
           None = Some rnd
           /\ New lowerUnicode_unused (str "order") [WithBucketSeconds (2 ^ 61)]
                1757869157707 None (0, 0)
              = (Ok id,
                 sequence_step (0, 0)
                   (incoming_ms (resolve_options [WithBucketSeconds (2 ^ 61)])
                      1757869157707))).
Proof.
  apply (New_outcomes lowerUnicode_unused foldUnicode_unused (str "order")
           [WithBucketSeconds (2 ^ 61)] 1757869157707 None (0, 0)).
  - unfold is_u16. cbn. lia.
  - unfold is_u16. cbn. lia.
  - intros rnd H. discriminate H.
Defined.

Lemma NewFromParts_any_time_witness :
  exists s,
    NewFromParts lowerUnicode_unused
      (mkComponents (str "order") (epoch2020 + 2 ^ 48 + 5) 0 12 4097 34 (2 ^ 60 + 1)) true
    = Ok s
    /\ Parse lowerUnicode_unused foldUnicode_unused s
       = Ok {| Prefix := str "order";
               TimeMs := if epoch2020 + 2 ^ 48 + 5 <? epoch2020 then epoch2020
                         else epoch2020 + (epoch2020 + 2 ^ 48 + 5 - epoch2020) mod 2 ^ 48;
               Flags := 0;
               Tenant := 12;
               Seq := 4097 mod 4096;
               Shard := 34;
               Random := (2 ^ 60 + 1) mod 2 ^ 60 |}.
Proof.
  apply (NewFromParts_any_time lowerUnicode_unused foldUnicode_unused
           (mkComponents (str "order") (epoch2020 + 2 ^ 48 + 5) 0 12 4097 34 (2 ^ 60 + 1)) true);
    cbn; unfold is_u8, is_u16, is_u64, epoch2020; first [reflexivity | lia].
Defined.

Ltac all_hex :=
  repeat (apply Forall_cons; [unfold is_hex; apply Z.leb_le; reflexivity |]);
  apply Forall_nil.

Lemma NewFromPartsHex_value_witness :
  NewFromPartsHex lowerUnicode_unused
    (mkComponents (str "order") 1757869157707 0 12 0 13811 77)
    (str "ff02A6901b86690f18") true
  = FromParts
      (NewFromParts lowerUnicode_unused
         (with_random (mkComponents (str "order") 1757869157707 0 12 0 13811 77)
            (value 4 (map hex.reverseHexTable (str "ff02A6901b86690f18")) mod 2 ^ 60))
         true).
Proof. apply NewFromPartsHex_value; [all_hex | reflexivity]. Defined.

Lemma encode_check_then_parse_check_witness :
  spec_vectors_test.parse_check lowerUnicode_unused foldUnicode_unused
    (mkVector (str "basic") (str "order") 1757869157707 0 12 0 13811
       (str "02a6901b86690f18") (str "order_00myngy59c0003000dfk59mg3e36j3rr-9xgg") false)
  = if negb (time_in_range 1757869157707)
    then spec_vectors_test.Fatalf spec_vectors_test.TimeMismatch
    else if len (str "02a6901b86690f18") =? 0
    then spec_vectors_test.Fatalf spec_vectors_test.RandomDecode
    else spec_vectors_test.Pass.
Proof.
  apply (encode_check_then_parse_check lowerUnicode_unused foldUnicode_unused
           (mkVector (str "basic") (str "order") 1757869157707 0 12 0 13811
              (str "02a6901b86690f18") (str "order_00myngy59c0003000dfk59mg3e36j3rr-9xgg")
              false)).
  - unfold vector_typed, is_u8, is_u16. cbn. lia.
  - reflexivity.
  - vm_compute. reflexivity.
  - vm_compute. reflexivity.
Defined.

Lemma goldenized_vector_conforms_witness :
  conformance.vector_round lowerUnicode_unused foldUnicode_unused false true
    (goldenize.set_ID
       (mkVector (str "basic") (str "order") 1757869157707 0 12 0 13811
          (str "02a6901b86690f18") (str "stale-") false)
       (str "order_00myngy59c0003000dfk59mg3e36j3rr-9xgg"))
    (conformance.mkCounts 3 1 4 0)
  = conformance.Next
      ((if time_in_range 1757869157707
        then conformance.add_parseOK else conformance.add_parseFail)
         (conformance.add_encOK (conformance.mkCounts 3 1 4 0))).
Proof.
  apply (goldenized_vector_conforms lowerUnicode_unused foldUnicode_unused false true
           (mkVector (str "basic") (str "order") 1757869157707 0 12 0 13811
              (str "02a6901b86690f18") (str "stale-") false)
           _ true).
  - unfold vector_typed, is_u8, is_u16. cbn. lia.
  - reflexivity.
  - vm_compute. reflexivity.
Defined.

Lemma goldenize_idempotent_witness :
  goldenize.main lowerUnicode_unused
    [goldenize.set_ID
       (mkVector (str "basic") (str "order") 1757869157707 0 12 0 13811
          (str "02a6901b86690f18") (str "stale-") false)
       (str "order_00myngy59c0003000dfk59mg3e36j3rr-9xgg");
     mkVector (str "bad prefix") (str "Order") 1757869157707 0 0 0 0
       (str "zz") (str "Order_x") true]
  = goldenize.Done
      [goldenize.set_ID
         (mkVector (str "basic") (str "order") 1757869157707 0 12 0 13811
            (str "02a6901b86690f18") (str "stale-") false)
         (str "order_00myngy59c0003000dfk59mg3e36j3rr-9xgg");
       mkVector (str "bad prefix") (str "Order") 1757869157707 0 0 0 0
         (str "zz") (str "Order_x") true].
Proof.
  apply (goldenize_idempotent lowerUnicode_unused foldUnicode_unused
           [mkVector (str "basic") (str "order") 1757869157707 0 12 0 13811
              (str "02a6901b86690f18") (str "stale-") false;
            mkVector (str "bad prefix") (str "Order") 1757869157707 0 0 0 0
              (str "zz") (str "Order_x") true]).
  - repeat (apply Forall_cons; [unfold vector_typed, is_u8, is_u16; cbn; lia |]).
    apply Forall_nil.
  - vm_compute. reflexivity.
Defined.

Ltac all_digits :=
  repeat (apply Forall_cons; [lia |]); apply Forall_nil.

Lemma tamper_demo_witness :
  Parse lowerUnicode_unused foldUnicode_unused
    (cli.tamper
       (identifier (str "order")
          [0; 0; 20; 30; 21; 16; 30; 5; 9; 12; 0; 0; 0; 3; 0; 0; 0; 13; 15; 19; 5; 9; 20;
           16; 3; 14; 3; 6; 18; 3; 24; 24] true [9; 29; 16; 16]))
  = Err ErrChecksumMismatch
  /\ exists r,
       Parse lowerUnicode_unused foldUnicode_unused
         (cli.tamper
            (identifier (str "order")
               [0; 0; 20; 30; 21; 16; 30; 5; 9; 12; 0; 0; 0; 3; 0; 0; 0; 13; 15; 19; 5; 9;
                20; 16; 3; 14; 3; 6; 18; 3; 24; 24] false [9; 29; 16; 16]))
       = Ok r.
Proof.
  apply tamper_demo.
  - reflexivity.
  - reflexivity.
  - all_digits.
  - reflexivity.
  - all_digits.
  - vm_compute. reflexivity.
Defined.

Lemma tamper_zero_New_witness :
  exists id r,
    fst (New lowerUnicode_unused (str "order") [WithChecksum true]
           1757869157707 (Some [255; 1; 2; 3; 4; 5; 6; 7]) (0, 0)) = Ok id
    /\ Parse lowerUnicode_unused foldUnicode_unused id = Ok r
    /\ Parse lowerUnicode_unused foldUnicode_unused (tamper_zero id)
       = if at_ id (len id - 1) =? chr "0" then Ok r else Err ErrChecksumMismatch.
Proof.
  apply (tamper_zero_New lowerUnicode_unused foldUnicode_unused).
  - ready.
  - reflexivity.
Defined.

Lemma checksum_detects_substitution_witness :
  checksum4Base lowerUnicode_unused
    (canonical_base (str "order")
       ([0; 0; 20; 30; 21; 16; 30; 5; 9; 12] ++ 1
        :: [0; 0; 3; 0; 0; 0; 13; 15; 19; 5; 9; 20; 16; 3; 14; 3; 6; 18; 3; 24; 24]))
  <> Ok (map sym [9; 29; 16; 16])
  /\ Parse lowerUnicode_unused foldUnicode_unused
       (canonical_base (str "order")
          ([0; 0; 20; 30; 21; 16; 30; 5; 9; 12] ++ 1
           :: [0; 0; 3; 0; 0; 0; 13; 15; 19; 5; 9; 20; 16; 3; 14; 3; 6; 18; 3; 24; 24])
        ++ str "-" ++ map sym [9; 29; 16; 16])
     = Err ErrChecksumMismatch.
Proof.
  apply (checksum_detects_substitution lowerUnicode_unused foldUnicode_unused
           (str "order") [0; 0; 20; 30; 21; 16; 30; 5; 9; 12]
           [0; 0; 3; 0; 0; 0; 13; 15; 19; 5; 9; 20; 16; 3; 14; 3; 6; 18; 3; 24; 24]
           [9; 29; 16; 16] 0 1).
  - reflexivity.
  - all_digits.
  - all_digits.
  - lia.
  - lia.
  - lia.
  - reflexivity.
  - cbn [length]. lia.
  - reflexivity.
  - all_digits.
  - vm_compute. reflexivity.
Defined.
